(** * The plugin-phase engine of arago.common.processor

    A shallow embedding of [Processor] from
    [src/arago/common/processor/processor.py]: the candidate builder
    [test_plugins_on_value], the arbiter call [decide_on_plugin], the
    guarded plugin call [execute_plugin_with_context] and the two nested
    loops of [apply_all_plugins_on_value].

    Modelling choices.
    - The issue is a Python dict with string keys: a [gmap string value].
    - Python values are restricted to [None], booleans, integers, strings
      and flat lists of those; on this fragment [==], truthiness and
      [str()] are modelled exactly.  Floats are left out.
    - A plugin is an object with an identity, a class name, the
      attribute [description] and the two methods [test] and [process];
      both methods receive the shared issue and may mutate it, so both
      return the issue they leave behind.  Plugin objects compare by
      identity ([ident]): two plugins of one registry carry different
      numbers.  Exceptions of plugins are instances of [Exception] (what
      the engine's [except Exception] clauses catch).
    - [description] is set by [Plugin.__init__] (line 22); an object
      whose class does not run that constructor has no such attribute,
      and reading it raises [AttributeError].  The engine reads it in its
      log lines: before the [try] of [execute_plugin_with_context]
      (line 126) and inside the handler of [test_plugins_on_value]
      (line 147), so in both places outside any guard.  The methods of a
      plugin do not add or delete attributes of the plugin object.
    - Every call to a collaborator and every [logger.debug] line that
      marks progress is recorded, in order, in a trace of events.
    - Both [while] loops may run forever; they are bounded by explicit
      budgets and report [OutOfFuel] when a budget is exhausted. *)

From Stdlib Require Import ZArith Ascii String List Bool Lia DecimalString Sorted.
From stdpp Require Import base gmap strings list.

Local Open Scope string_scope.
Local Open Scope list_scope.
Local Open Scope stdpp_scope.

(** ** Python values *)

Inductive atom : Type :=
| ANone
| ABool (b : bool)
| AInt (z : Z)
| AStr (s : string).

Inductive value : Type :=
| Atom (a : atom)
| VList (l : list atom).

(** [bool] is a subclass of [int]: [True == 1] and [False == 0]. *)
Definition as_number (a : atom) : option Z :=
  match a with
  | ABool b => Some (Z.b2z b)
  | AInt z => Some z
  | _ => None
  end.

(** [a == b] *)
Definition py_eqb (a b : atom) : bool :=
  match a, b with
  | ANone, ANone => true
  | AStr s, AStr t => String.eqb s t
  | _, _ =>
      match as_number a, as_number b with
      | Some x, Some y => Z.eqb x y
      | _, _ => false
      end
  end.

(** [bool(a)] *)
Definition atom_truthy (a : atom) : bool :=
  match a with
  | ANone => false
  | ABool b => b
  | AInt z => negb (Z.eqb z 0)
  | AStr s => negb (String.eqb s "")
  end.

Definition truthy (v : value) : bool :=
  match v with
  | Atom a => atom_truthy a
  | VList l => match l with [] => false | _ :: _ => true end
  end.

(** [str(a)] *)
Definition py_str (a : atom) : string :=
  match a with
  | ANone => "None"
  | ABool true => "True"
  | ABool false => "False"
  | AInt z => NilZero.string_of_int (Z.to_int z)
  | AStr s => s
  end.

(** [s.endswith(suffix)] *)
Fixpoint endswith (s suffix : string) : bool :=
  if String.eqb s suffix then true
  else match s with
       | EmptyString => false
       | String _ s' => endswith s' suffix
       end.

(** [s.split(':')]: the pieces between the separators, never empty. *)
Fixpoint split_on (sep : ascii) (s : string) : list string :=
  match s with
  | EmptyString => [EmptyString]
  | String c s' =>
      if Ascii.eqb c sep then EmptyString :: split_on sep s'
      else match split_on sep s' with
           | [] => [String c EmptyString]
           | piece :: pieces => String c piece :: pieces
           end
  end.

(** [sorted(names)] on strings: ascending by code unit. *)
Fixpoint sorted_insert (x : string) (l : list string) : list string :=
  match l with
  | [] => [x]
  | y :: l' => if String.leb x y then x :: l else y :: sorted_insert x l'
  end.

Definition sorted (l : list string) : list string :=
  fold_right sorted_insert [] l.

(** ** Issue, plugins, decision service *)

Abbreviation issue := (gmap string value).

(** What a call to a collaborator does: it returns, or it raises an
    [Exception]. *)
Inductive outcome (A : Type) : Type :=
| Returns (a : A)
| Raises.
Arguments Returns {A} a.
Arguments Raises {A}.

Record Plugin : Type := {
  ident : nat;                                   (* object identity *)
  kind : string;                                 (* type(x).__name__ *)
  description : option string;                   (* plugin.description, if set *)
  test : issue -> issue * outcome value;
  process : issue -> atom -> issue * outcome unit
}.

Record DecisionService : Type := {
  decide : issue -> list string -> issue * outcome string;
  finish_episode : issue -> issue * outcome unit
}.

Record Processor : Type := {
  plugins : gmap string (list Plugin);
  ds : option DecisionService;
  auto_reward : Z
}.

(** A candidate is the tuple [(plugin, context)].  Tuples compare
    componentwise; plugin objects compare by identity. *)
Abbreviation candidate := (Plugin * atom)%type.

Definition candidate_eqb (a b : candidate) : bool :=
  Nat.eqb (ident (fst a)) (ident (fst b)) && py_eqb (snd a) (snd b).

(** ** Traces, results and the engine monad *)

Inductive event : Type :=
| EPhase (directory : string)                    (* " Phase '{}'" *)
| ETesting                                       (* " Test plugins for possible context" *)
| ETest (p : nat) (o : outcome value)            (* plugin.test(issue) *)
| ENoPossible (directory : string)               (* " No possible contexts in phase '{}'" *)
| EProcess (p : nat) (context : atom) (o : outcome unit)  (* plugin.process(issue, context) *)
| EDecide (possible_kis : list string) (o : outcome string)  (* ds.decide(data) *)
| EFinish (o : outcome unit).                    (* ds.finish_episode(issue) *)

Inductive exn : Type :=
| KeyError (key : string)
| IndexError
| ValueError
| TypeError
| AttributeError
| CollaboratorError.     (* raised inside the decision service *)

Inductive result (A : Type) : Type :=
| Done (a : A)
| Raised (e : exn)
| OutOfFuel.
Arguments Done {A} a.
Arguments Raised {A} e.
Arguments OutOfFuel {A}.

(** A computation of the engine: from the issue as it finds it to a
    result, the issue as it leaves it, and the events it emitted. *)
Definition M (A : Type) : Type := issue -> result A * issue * list event.

Definition ret {A} (a : A) : M A := fun i => (Done a, i, []).

Definition bind {A B} (m : M A) (f : A -> M B) : M B := fun i =>
  match m i with
  | (Done a, i1, t1) =>
      match f a i1 with (r, i2, t2) => (r, i2, t1 ++ t2) end
  | (Raised e, i1, t1) => (Raised e, i1, t1)
  | (OutOfFuel, i1, t1) => (OutOfFuel, i1, t1)
  end.

Notation "x <- m ;; k" := (bind m (fun x => k))
  (at level 100, m at next level, right associativity).
Notation "m ;;; k" := (bind m (fun _ => k))
  (at level 100, right associativity).

Definition raise {A} (e : exn) : M A := fun i => (Raised e, i, []).
Definition out_of_fuel {A} : M A := fun i => (OutOfFuel, i, []).
Definition emit (e : event) : M unit := fun i => (Done tt, i, [e]).

(** [issue[key]] *)
Definition getitem (key : string) : M value := fun i =>
  match i !! key with
  | Some v => (Done v, i, [])
  | None => (Raised (KeyError key), i, [])
  end.

(** [issue[key] = v] *)
Definition setitem (key : string) (v : value) : M unit := fun i =>
  (Done tt, <[key := v]> i, []).

Definition result_of {A} (x : result A * issue * list event) : result A := fst (fst x).
Definition issue_of {A} (x : result A * issue * list event) : issue := snd (fst x).
Definition trace_of {A} (x : result A * issue * list event) : list event := snd x.

(** ** The engine *)

Section Engine.

Variable self : Processor.

(** *** decide_on_plugin *)

(** [type(x).__name__+':'+str(y)] *)
Definition label (c : candidate) : string :=
  String.append (kind (fst c)) (String.append ":" (py_str (snd c))).

(** [type(x).__name__ == best_plugin and str(y) == best_context] *)
Definition resolves (best_plugin best_context : string) (c : candidate) : bool :=
  String.eqb (kind (fst c)) best_plugin && String.eqb (py_str (snd c)) best_context.

(** [self.ds.decide(data)]; an exception of the service is not caught. *)
Definition call_decide (d : DecisionService) (possible_kis : list string) : M string :=
  fun i =>
    match decide d i possible_kis with
    | (i', Returns decision) => (Done decision, i', [EDecide possible_kis (Returns decision)])
    | (i', Raises) => (Raised CollaboratorError, i', [EDecide possible_kis Raises])
    end.

(** Lines 73-74: the decision is split at its colons into exactly two
    names, and the first candidate whose class name and stringified
    context equal them is taken. *)
Definition resolve (decision : string) (possible : list candidate) : M candidate :=
  match split_on ":" decision with
  | [best_plugin; best_context] =>
      match List.filter (resolves best_plugin best_context) possible with
      | [] => raise IndexError                              (* [...][0] *)
      | chosen :: _ => ret chosen
      end
  | _ => raise ValueError                                   (* unpacking into two names *)
  end.

Definition decide_on_plugin (possible : list candidate) : M candidate :=
  match possible with
  | [] => raise IndexError                                  (* possible[0] *)
  | first :: _ =>
      match ds self with
      | None => ret first
      | Some d =>
          let possible_kis := map label possible in
          decision <- call_decide d possible_kis ;;
          resolve decision possible
      end
  end.

(** *** execute_plugin_with_context *)

(** Line 126 formats [plugin.description] into the log line before the
    [try]: without the attribute the call ends there with
    [AttributeError] and [process] is not called.  The [try] swallows
    every exception of [process]; what [process] did to the issue before
    raising stays.  (The handler of lines 130-131 reads the attribute
    that line 126 has read already.) *)
Definition execute_plugin_with_context (plugin : Plugin) (context : atom) : M unit :=
  fun i =>
    match description plugin with
    | None => (Raised AttributeError, i, [])
    | Some _ =>
        match process plugin i context with
        | (i', o) => (Done tt, i', [EProcess (ident plugin) context o])
        end
    end.

(** *** test_plugins_on_value *)

(** The contexts a returned value stands for: nothing when it is falsy,
    its elements when it is a list, itself otherwise. *)
Definition contexts_of (contexts : value) : list atom :=
  if truthy contexts then
    match contexts with
    | VList l => l
    | Atom a => [a]
    end
  else [].

(** One turn of the [for plugin in plugins] loop: the pairs it appends.
    When [test] raises, the handler formats [plugin.description] into
    its warning (line 147): without the attribute the handler itself
    raises [AttributeError], which nothing catches. *)
Definition test_plugin (plugin : Plugin) : M (list candidate) :=
  fun i =>
    match test plugin i with
    | (i', Returns contexts) =>
        (Done (map (pair plugin) (contexts_of contexts)), i',
         [ETest (ident plugin) (Returns contexts)])
    | (i', Raises) =>
        match description plugin with
        | Some _ => (Done [], i', [ETest (ident plugin) Raises])
        | None => (Raised AttributeError, i', [ETest (ident plugin) Raises])
        end
    end.

Fixpoint test_each (plugins : list Plugin) (passed_test_plugins : list candidate)
  : M (list candidate) :=
  match plugins with
  | [] => ret passed_test_plugins
  | plugin :: rest =>
      found <- test_plugin plugin ;;
      test_each rest (passed_test_plugins ++ found)
  end.

Definition test_plugins_on_value (plugins : list Plugin) : M (list candidate) :=
  emit ETesting ;;; test_each plugins [].

(** *** apply_all_plugins_on_value *)

(** [a in possible] *)
Definition list_contains (a : candidate) (l : list candidate) : bool :=
  existsb (fun x => candidate_eqb x a) l.

(** [possible.remove(a)]: drops the first element equal to [a]. *)
Fixpoint list_remove (a : candidate) (l : list candidate) : list candidate :=
  match l with
  | [] => []
  | x :: l' => if candidate_eqb x a then l' else x :: list_remove a l'
  end.

(** [for a in any_executed: if a in possible: possible.remove(a)] *)
Definition remove_executed (any_executed possible : list candidate) : list candidate :=
  fold_left
    (fun possible a => if list_contains a possible then list_remove a possible else possible)
    any_executed possible.

(** The body of the [-parallel] branch: every candidate of the round, in
    order, each appended to [any_executed] after its execution. *)
Fixpoint execute_each (possible any_executed : list candidate) : M (list candidate) :=
  match possible with
  | [] => ret any_executed
  | p :: rest =>
      execute_plugin_with_context (fst p) (snd p) ;;;
      execute_each rest (any_executed ++ [p])
  end.

(** [issue['_current_phase'] == directory] *)
Definition is_phase (v : value) (directory : string) : bool :=
  match v with
  | Atom (AStr s) => String.eqb s directory
  | _ => false
  end.

(** The two tests that close a round of the inner loop (lines 115-118):
    leave the loop when a plugin wrote another phase name, or when nothing
    was recorded in this round; otherwise go round again. *)
Definition end_of_round (next_round : list candidate -> M unit) (directory : string)
  (len_already_executed : nat) (any_executed : list candidate) : M unit :=
  current <- getitem "_current_phase" ;;
  if negb (is_phase current directory) then ret tt
  else if Nat.eqb (length any_executed) len_already_executed then ret tt
  else next_round any_executed.

(** One pass through the body of the inner [while True] loop;
    [next_round] is the loop itself, entered again. *)
Definition round (next_round : list candidate -> M unit) (directory : string)
  (subplugins : list Plugin) (any_executed : list candidate) : M unit :=
  let len_already_executed := length any_executed in
  tested <- test_plugins_on_value subplugins ;;
  let possible := remove_executed any_executed tested in
  if Nat.ltb (length possible) 1 then emit (ENoPossible directory)
  else if endswith directory "-parallel" then
    any_executed' <- execute_each possible any_executed ;;
    end_of_round next_round directory len_already_executed any_executed'
  else if endswith directory "-alternative" then
    p <- decide_on_plugin possible ;;
    execute_plugin_with_context (fst p) (snd p)
  else
    match last possible with
    | None => raise IndexError                              (* possible.pop() *)
    | Some p =>
        execute_plugin_with_context (fst p) (snd p) ;;;
        end_of_round next_round directory len_already_executed (any_executed ++ [p])
    end.

(** The inner [while True] loop of one phase invocation; [fuel] bounds
    the number of rounds. *)
Fixpoint run_phase (fuel : nat) (directory : string) (subplugins : list Plugin)
  (any_executed : list candidate) : M unit :=
  match fuel with
  | O => out_of_fuel
  | S fuel' => round (run_phase fuel' directory subplugins) directory subplugins any_executed
  end.

(** [sorted(self.plugins)], the values of [dirs] in index order. *)
Definition dirs : list string := sorted (elements (dom (plugins self))).

(** [enumerate(l)] *)
Definition enumerate {A} (l : list A) : list (nat * A) := combine (seq 0 (length l)) l.

(** [{v: k for k, v in dirs.items()}] *)
Definition dirs_lookup : gmap string nat :=
  fold_left (fun m kv => <[snd kv := fst kv]> m) (enumerate dirs) ∅.

(** [dirs_lookup.get(v, default)]; a list is unhashable. *)
Definition dirs_lookup_get (v : value) (default : nat) : M nat :=
  match v with
  | VList _ => raise TypeError
  | Atom (AStr s) =>
      match dirs_lookup !! s with
      | Some k => ret k
      | None => ret default
      end
  | Atom _ => ret default
  end.

(** [issue['_reward'] += self.auto_reward] *)
Definition add_reward : M unit :=
  r <- getitem "_reward" ;;
  match r with
  | Atom a =>
      match as_number a with
      | Some z => setitem "_reward" (Atom (AInt (Z.add z (auto_reward self))))
      | None => raise TypeError
      end
  | VList _ => raise TypeError
  end.

(** The body of the outer [while] loop: one invocation of the phase
    [directory = dirs[current_dirno]]; it returns the next value of
    [current_dirno]. *)
Definition visit_phase (fuel : nat) (current_dirno : nat) (directory : string) : M nat :=
  setitem "_current_phase" (Atom (AStr directory)) ;;;
  emit (EPhase directory) ;;;
  match plugins self !! directory with
  | None => raise (KeyError directory)
  | Some subplugins =>
      run_phase fuel directory subplugins [] ;;;
      add_reward ;;;
      current <- getitem "_current_phase" ;;
      if is_phase current directory then ret (S current_dirno)
      else dirs_lookup_get current (S current_dirno)
  end.

(** The outer [while current_dirno < len(dirs)] loop; [visits] bounds the
    number of phase invocations, [fuel] the rounds of each. *)
Fixpoint run_phases (visits fuel : nat) (current_dirno : nat) : M unit :=
  match dirs !! current_dirno with
  | None => ret tt
  | Some directory =>
      match visits with
      | O => out_of_fuel
      | S visits' =>
          next <- visit_phase fuel current_dirno directory ;;
          run_phases visits' fuel next
      end
  end.

(** The first [k] iterations of the outer loop, from index
    [current_dirno]: the index the loop has reached after them. *)
Fixpoint first_visits (k fuel : nat) (current_dirno : nat) : M nat :=
  match k with
  | O => ret current_dirno
  | S k' =>
      match dirs !! current_dirno with
      | None => ret current_dirno
      | Some directory =>
          next <- visit_phase fuel current_dirno directory ;;
          first_visits k' fuel next
      end
  end.

Definition apply_all_plugins_on_value (visits fuel : nat) : M unit :=
  setitem "_reward" (Atom (AInt 0)) ;;;
  run_phases visits fuel 0.

(** [self.ds.finish_episode(issue)] *)
Definition call_finish (d : DecisionService) : M unit :=
  fun i =>
    match finish_episode d i with
    | (i', Returns u) => (Done tt, i', [EFinish (Returns u)])
    | (i', Raises) => (Raised CollaboratorError, i', [EFinish Raises])
    end.

Definition process_issue (visits fuel : nat) : M unit :=
  apply_all_plugins_on_value visits fuel ;;;
  match ds self with
  | Some d => call_finish d
  | None => ret tt
  end.

End Engine.

(** ** Plugin.get_argument *)

(** [a = issue.get(argument, [])], then [a] itself when it is a list and
    [[a]] otherwise. *)
Definition get_argument (i : issue) (argument : string) : list atom :=
  let a := match i !! argument with
           | Some v => v
           | None => VList []
           end in
  match a with
  | VList l => l
  | Atom x => [x]
  end.

(** ** logging.logger.Logger *)

(** The level constants of the class. *)
Definition CRITICAL : Z := 50.
Definition ERROR : Z := 40.
Definition HEARTBEAT : Z := 35.
Definition WARNING : Z := 30.
Definition INFO : Z := 20.
Definition VERBOSE : Z := 15.
Definition DEBUG : Z := 10.
Definition TRACE : Z := 5.
Definition NOTSET : Z := 0.

Section Logger.

(** [isEnabledFor] is inherited from the standard library's logger and
    taken as given; [_log], inherited too, hands one record on: here it
    is added to the records handled so far. *)
Variable isEnabledFor : Z -> bool.

Definition log_record (level : Z) (msg : string) (handled : list (Z * string))
  : list (Z * string) :=
  handled ++ [(level, msg)].

Definition verbose (msg : string) (handled : list (Z * string)) : list (Z * string) :=
  if isEnabledFor VERBOSE then log_record VERBOSE msg handled else handled.

Definition trace (msg : string) (handled : list (Z * string)) : list (Z * string) :=
  if isEnabledFor TRACE then log_record TRACE msg handled else handled.

Definition heartbeat (msg : string) (handled : list (Z * string)) : list (Z * string) :=
  if isEnabledFor HEARTBEAT then log_record HEARTBEAT msg handled else handled.

End Logger.

(** ** Observations on traces *)

(** The plugin object has the attribute [description], as every object
    that [Plugin.__init__] has initialised. *)
Definition described (p : Plugin) : Prop := description p <> None.

(** Every registered plugin has it. *)
Definition all_described (self : Processor) : Prop :=
  map_Forall (fun _ ps => Forall described ps) (plugins self).

(** The calls [plugin.process(issue, context)] of a trace, in order. *)
Definition process_calls (t : list event) : list (nat * atom) :=
  flat_map (fun e => match e with EProcess p c _ => [(p, c)] | _ => [] end) t.

(** The calls [ds.decide(data)] of a trace: the labels offered each time. *)
Definition decide_calls (t : list event) : list (list string) :=
  flat_map (fun e => match e with EDecide kis _ => [kis] | _ => [] end) t.

(** How a candidate shows up in [process_calls]. *)
Definition call_of (c : candidate) : nat * atom := (ident (fst c), snd c).

(** The event of executing candidate [c] on issue [i]. *)
Definition process_event (c : candidate) (i : issue) : event :=
  EProcess (ident (fst c)) (snd c) (snd (process (fst c) i (snd c))).


(** The issue after executing the candidates [cs], in order, from [i]. *)
Definition run_all (cs : list candidate) (i : issue) : issue :=
  fold_left (fun j c => fst (process (fst c) j (snd c))) cs i.

(** The events of executing the candidates [cs], in order, from [i]. *)
Fixpoint process_events (cs : list candidate) (i : issue) : list event :=
  match cs with
  | [] => []
  | c :: cs' => process_event c i :: process_events cs' (fst (process (fst c) i (snd c)))
  end.

(** The candidates one round of a looping phase executes: all of them
    under [-parallel], the last one by default. *)
Definition round_batch (directory : string) (possible : list candidate) : list candidate :=
  if endswith directory "-parallel" then possible
  else match last possible with
       | Some p => [p]
       | None => []
       end.

(** The issue names a phase other than [directory]. *)
Definition phase_left (directory : string) (i : issue) : bool :=
  match i !! "_current_phase" with
  | Some v => negb (is_phase v directory)
  | None => false
  end.

(** The phase invocations of a trace: the names announced, in order. *)
Definition phases_of (t : list event) : list string :=
  flat_map (fun e => match e with EPhase d => [d] | _ => [] end) t.

(** A plugin, or a decision service, that leaves the engine's
    [_reward] field alone. *)
Definition plugin_keeps_reward (p : Plugin) : Prop :=
  forall i, fst (test p i) !! "_reward" = i !! "_reward"
            /\ forall c, fst (process p i c) !! "_reward" = i !! "_reward".

Definition service_keeps_reward (d : DecisionService) : Prop :=
  forall i kis, fst (decide d i kis) !! "_reward" = i !! "_reward".

Definition reward_is_engine_owned (self : Processor) : Prop :=
  map_Forall (fun _ ps => Forall plugin_keeps_reward ps) (plugins self)
  /\ forall d, ds self = Some d -> service_keeps_reward d.

(** A computation that neither touches [_reward] nor announces a phase. *)
Definition reward_neutral {A} (m : M A) : Prop :=
  forall i, issue_of (m i) !! "_reward" = i !! "_reward"
            /\ phases_of (trace_of (m i)) = [].

(** What a computation guarantees about the value it returns. *)
Definition returns {A} (Q : A -> Prop) (m : M A) : Prop :=
  forall i a i1 t1, m i = (Done a, i1, t1) -> Q a.






Definition map_result {A B} (f : A -> B) (r : result A) : result B :=
  match r with
  | Done a => Done (f a)
  | Raised e => Raised e
  | OutOfFuel => OutOfFuel
  end.


#[local] Instance atom_eq_dec : EqDecision atom.
Proof. solve_decision. Defined.

(** The representative of an atom under [==]: [True] and [1] are the
    same context, as are [False] and [0]. *)
Definition norm_atom (a : atom) : atom :=
  match a with
  | ABool b => AInt (Z.b2z b)
  | _ => a
  end.

(** A (plugin, context) pair as the already-run list tells pairs apart:
    the plugin's identity and the context up to [==]. *)
Definition pair_of (c : candidate) : nat * atom := (ident (fst c), norm_atom (snd c)).

(** The pairs that matched in a trace: for every answered [test] call,
    the contexts its answer stands for. *)
Definition matched_pairs (t : list event) : list (nat * atom) :=
  flat_map (fun e => match e with
                     | ETest p (Returns v) => map (fun c => (p, norm_atom c)) (contexts_of v)
                     | _ => []
                     end) t.

(** The pairs that were executed in a trace. *)
Definition executed_pairs (t : list event) : list (nat * atom) :=
  map (fun pc => (fst pc, norm_atom (snd pc))) (process_calls t).

(** The number of rounds of a trace: how often candidates were built. *)
Definition rounds_of (t : list event) : nat :=
  length (flat_map (fun e => match e with ETesting => [tt] | _ => [] end) t).

(** What a trace of rounds of the default policy looks like when the
    pairs [any_executed] were run before it and all pairs come from [U]:
    no pair is executed twice, none that was run before, only pairs that
    matched; every round but possibly the last executes one pair; and
    all executed pairs fit in [U]. *)
Definition orderly (U : list (nat * atom)) (any_executed : list candidate)
  (t : list event) : Prop :=
  NoDup (executed_pairs t)
  /\ (forall q, q ∈ executed_pairs t ->
        (q ∉ map pair_of any_executed) /\ q ∈ matched_pairs t)
  /\ length (process_calls t) <= rounds_of t
  /\ rounds_of t <= S (length (process_calls t))
  /\ length any_executed + length (process_calls t) <= length U.

(** The calls [plugin.test(issue)] of a trace: who was asked, in order. *)
Definition test_calls (t : list event) : list nat :=
  flat_map (fun e => match e with ETest p _ => [p] | _ => [] end) t.

(** The calls [ds.finish_episode(issue)] of a trace. *)
Definition finish_calls (t : list event) : list (outcome unit) :=
  flat_map (fun e => match e with EFinish o => [o] | _ => [] end) t.

(** The number of occurrences of [sep] in [s]. *)
Fixpoint count_char (sep : ascii) (s : string) : nat :=
  match s with
  | EmptyString => 0
  | String c s' => (if Ascii.eqb c sep then 1 else 0) + count_char sep s'
  end.

(** Every event of the trace of [m] satisfies [P]. *)
Definition emits (P : event -> Prop) {A} (m : M A) : Prop :=
  forall i, Forall P (trace_of (m i)).

(** An event of the pass proper: anything but [ds.finish_episode]. *)
Definition of_the_pass (e : event) : Prop :=
  match e with
  | EFinish _ => False
  | _ => True
  end.

(** A plugin that never applies: its [test] leaves the issue alone and
    either raises (as the [test] of the base class [Plugin] does, whose
    constructor has set the description) or answers something falsy. *)
Definition never_matches (p : Plugin) : Prop :=
  forall i, exists o,
    test p i = (i, o)
    /\ match o with
       | Raises => described p
       | Returns v => truthy v = false
       end.

Definition nothing_matches (self : Processor) : Prop :=
  map_Forall (fun _ ps => Forall never_matches ps) (plugins self).

(** The inner loop with the test of line 117 ([len(any_executed) ==
    len_already_executed]) taken out, everything else as in
    [end_of_round], [round] and [run_phase]. *)
Definition end_of_round_unguarded (next_round : list candidate -> M unit)
  (directory : string) (any_executed : list candidate) : M unit :=
  current <- getitem "_current_phase" ;;
  if negb (is_phase current directory) then ret tt
  else next_round any_executed.

Definition round_unguarded (self : Processor) (next_round : list candidate -> M unit)
  (directory : string) (subplugins : list Plugin) (any_executed : list candidate) : M unit :=
  tested <- test_plugins_on_value subplugins ;;
  let possible := remove_executed any_executed tested in
  if Nat.ltb (length possible) 1 then emit (ENoPossible directory)
  else if endswith directory "-parallel" then
    any_executed' <- execute_each possible any_executed ;;
    end_of_round_unguarded next_round directory any_executed'
  else if endswith directory "-alternative" then
    p <- decide_on_plugin self possible ;;
    execute_plugin_with_context (fst p) (snd p)
  else
    match last possible with
    | None => raise IndexError
    | Some p =>
        execute_plugin_with_context (fst p) (snd p) ;;;
        end_of_round_unguarded next_round directory (any_executed ++ [p])
    end.

Fixpoint run_phase_unguarded (self : Processor) (fuel : nat) (directory : string)
  (subplugins : list Plugin) (any_executed : list candidate) : M unit :=
  match fuel with
  | O => out_of_fuel
  | S fuel' =>
      round_unguarded self (run_phase_unguarded self fuel' directory subplugins)
        directory subplugins any_executed
  end.

(** Every exception [m] can end with satisfies [P]. *)
Definition raises_only (P : exn -> Prop) {A} (m : M A) : Prop :=
  forall i e i' t, m i = (Raised e, i', t) -> P e.

(** The exceptions of the engine proper: a damaged engine field. *)
Definition field_error (e : exn) : Prop :=
  e = KeyError "_current_phase" \/ e = KeyError "_reward" \/ e = TypeError.

(** The exceptions that come with a decision service. *)
Definition arbiter_error (e : exn) : Prop :=
  e = IndexError \/ e = ValueError \/ e = CollaboratorError.

Definition arbiter_only (self : Processor) (e : exn) : Prop :=
  ds self <> None /\ arbiter_error e.

(** The exception of a log line that reads the description of a plugin
    of [ps] which has none. *)
Definition bare_in (ps : list Plugin) (e : exn) : Prop :=
  e = AttributeError /\ exists p, p ∈ ps /\ description p = None.

Definition phase_error (self : Processor) (ps : list Plugin) (e : exn) : Prop :=
  field_error e \/ (ds self <> None /\ arbiter_error e) \/ bare_in ps e.

Definition pass_error (self : Processor) (e : exn) : Prop :=
  field_error e
  \/ (ds self <> None /\ arbiter_error e)
  \/ (e = AttributeError
      /\ exists directory ps p,
           plugins self !! directory = Some ps /\ p ∈ ps /\ description p = None).

(** The reward field holds a number. *)
Definition rewarded (i : issue) : Prop :=
  exists a z, i !! "_reward" = Some (Atom a) /\ as_number a = Some z.

(** The two fields of the engine are in the state it leaves them in
    itself: a phase name and a numeric reward. *)
Definition sound_fields (i : issue) : Prop :=
  (exists s, i !! "_current_phase" = Some (Atom (AStr s))) /\ rewarded i.

(** A plugin, or a decision service, that may write both fields but
    leaves a string as phase name and a number as reward. *)
Definition plugin_keeps_fields (p : Plugin) : Prop :=
  forall i, sound_fields i ->
    sound_fields (fst (test p i)) /\ forall c, sound_fields (fst (process p i c)).

Definition service_keeps_fields (d : DecisionService) : Prop :=
  forall i kis, sound_fields i -> sound_fields (fst (decide d i kis)).

Definition fields_are_kept (self : Processor) : Prop :=
  map_Forall (fun _ ps => Forall plugin_keeps_fields ps) (plugins self)
  /\ forall d, ds self = Some d -> service_keeps_fields d.

(** From an issue that satisfies [P], the computation [m] ends with an
    issue that satisfies [Q], or with an exception among [E], or runs
    out of fuel. *)
Definition safely (E : exn -> Prop) (P : issue -> Prop) {A} (m : M A) (Q : issue -> Prop)
  : Prop :=
  forall i r i' t, P i -> m i = (r, i', t) ->
    match r with
    | Done _ => Q i'
    | Raised e => E e
    | OutOfFuel => True
    end.

(** ** Properties as the specification words them *)

(** "If there is exactly one candidate, execute it": a lone candidate of
    a single-choice phase is executed without asking the arbiter. *)
Definition lone_candidate_runs_directly (self : Processor) (directory : string)
  (subplugins : list Plugin) (i : issue) : Prop :=
  forall c i1 t1,
    test_plugins_on_value subplugins i = (Done [c], i1, t1) ->
    decide_calls (trace_of (run_phase self 1 directory subplugins [] i)) = [].

(** "Zero when the built candidate set is empty, one otherwise." *)
Definition acts_once_unless_empty (self : Processor) (directory : string)
  (subplugins : list Plugin) (i : issue) : Prop :=
  forall tested i1 t1,
    test_plugins_on_value subplugins i = (Done tested, i1, t1) ->
    length (process_calls (trace_of (run_phase self 1 directory subplugins [] i)))
    = match tested with [] => 0 | _ :: _ => 1 end.



(** "If a plugin sets [_current_phase] to an existing phase name [P],
    the Orchestrator's next iteration operates on [P]": after an
    invocation that executed a plugin whose action writes [P], the loop
    index points at [P]. *)
Definition written_phase_is_next (self : Processor) (fuel n : nat)
  (directory : string) (i : issue) (P : string) : Prop :=
  forall subplugins p next i1 t1,
    plugins self !! directory = Some subplugins ->
    p ∈ subplugins ->
    (forall j c, fst (process p j c) !! "_current_phase" = Some (Atom (AStr P))) ->
    (exists c, (ident p, c) ∈ process_calls t1) ->
    P ∈ dirs self ->
    visit_phase self fuel n directory i = (Done next, i1, t1) ->
    dirs self !! next = Some P.

(** "[_reward] is non-decreasing": a pass never ends with less reward
    than the 0 it starts from. *)
Definition reward_never_decreases (self : Processor) (visits fuel : nat) (i : issue) : Prop :=
  forall r,
    issue_of (apply_all_plugins_on_value self visits fuel i) !! "_reward"
    = Some (Atom (AInt r)) ->
    (0 <= r)%Z.

(** "The phase terminates in a finite number of rounds equal to the
    number of distinct (plugin, context) pairs that ever matched",
    whether the rounds counted are those that executed a pair or all
    rounds, the closing one included. *)
Definition rounds_equal_matched_pairs (self : Processor) (fuel : nat) (directory : string)
  (subplugins : list Plugin) (i : issue) : Prop :=
  let x := run_phase self fuel directory subplugins [] i in
  result_of x = Done tt
  /\ (length (process_calls (trace_of x)) = length (remove_dups (matched_pairs (trace_of x)))
      \/ rounds_of (trace_of x) = length (remove_dups (matched_pairs (trace_of x)))).

(** "Every candidate present at ROUND_START is executed exactly once":
    each candidate the tests of a fan-out round yield shows up exactly
    once among the [process] calls of that round. *)
Definition batch_runs_each_once (self : Processor) (directory : string)
  (subplugins : list Plugin) (i : issue) : Prop :=
  forall tested i1 t1 c,
    test_plugins_on_value subplugins i = (Done tested, i1, t1) ->
    c ∈ tested ->
    length (List.filter (fun x => bool_decide (x = call_of c))
              (process_calls (trace_of (run_phase self 1 directory subplugins [] i)))) = 1.


(** ** Example plugins and processors *)

(** A plugin whose methods do not raise, built by [Plugin.__init__]
    (lines 21-22). *)
Definition plugin_of (n : nat) (k : string) (t : issue -> value)
  (pr : issue -> atom -> issue) : Plugin :=
  {| ident := n; kind := k; description := Some "UNKNOWN";
     test := fun i => (i, Returns (t i));
     process := fun i c => (pr i c, Returns tt) |}.

(** Always matches with the same answer and leaves the issue alone. *)
Definition always (n : nat) (k : string) (v : value) : Plugin :=
  plugin_of n k (fun _ => v) (fun i _ => i).

(** Always matches; its action redirects the issue to phase [target]. *)
Definition jumper (n : nat) (k : string) (v : value) (target : string) : Plugin :=
  plugin_of n k (fun _ => v) (fun i _ => <["_current_phase" := Atom (AStr target)]> i).

(** A decision service that answers [answer] whatever it is offered. *)
Definition fixed_service (answer : string) : DecisionService :=
  {| decide := fun i _ => (i, Returns answer);
     finish_episode := fun i => (i, Returns tt) |}.

Definition restart_db : Plugin := always 1 "Restart" (Atom (AStr "db")).
Definition reboot_host : Plugin := always 2 "Reboot" (Atom (AStr "host")).

Definition remediate (service : option DecisionService) : Processor :=
  {| plugins := {[ "20-remediate-alternative" := [restart_db; reboot_host] ]};
     ds := service; auto_reward := 1 |}.

Definition escalate : Plugin := jumper 3 "Escalate" (Atom (AStr "ticket")) "90-report".
Definition purge_cache : Plugin := always 4 "Purge" (VList [AStr "tmp"; AStr "log"]).

(** A fan-out phase whose first plugin redirects the issue, and the
    phase it redirects to. *)
Definition cleanup : Processor :=
  {| plugins := <[ "30-cleanup-parallel" := [escalate; purge_cache] ]>
                  {[ "90-report" := [] ]};
     ds := None; auto_reward := 1 |}.

(** The issue right after the pass has reset its reward. *)
Definition fresh_issue : issue := {[ "_reward" := Atom (AInt 0) ]}.

(** The issue as a pass finds it in phase [directory] with reward [r]. *)
Definition issue_in (directory : string) (r : Z) : issue :=
  <["_current_phase" := Atom (AStr directory)]> {[ "_reward" := Atom (AInt r) ]}.

(** Always matches, and writes the name of the phase it already runs in. *)
Definition recheck : Plugin := jumper 5 "Recheck" (Atom (AStr "disk")) "10-detect".

Definition detect : Processor :=
  {| plugins := {[ "10-detect" := [recheck] ]}; ds := None; auto_reward := 1 |}.

(** A processor that charges one unit for every phase visited. *)
Definition costly : Processor :=
  {| plugins := {[ "10-detect" := [restart_db] ]}; ds := None; auto_reward := (-1) |}.

(** Matches with context [c] as long as the issue is not handled. *)
Definition while_open (n : nat) (k : string) (c : atom) : Plugin :=
  plugin_of n k
    (fun i => match i !! "handled" with None => Atom c | Some _ => Atom ANone end)
    (fun i _ => i).

(** Matches as long as the issue is not handled, and handles it. *)
Definition handler (n : nat) (k : string) (c : atom) : Plugin :=
  plugin_of n k
    (fun i => match i !! "handled" with None => Atom c | Some _ => Atom ANone end)
    (fun i _ => <["handled" := Atom (ABool true)]> i).

Definition triage : list Plugin :=
  [while_open 6 "CheckDisk" (AStr "disk"); while_open 7 "CheckNet" (AStr "net");
   handler 8 "Close" (AStr "done")].

(** A decision service that echoes the label at position [n] of what
    it is offered (or answers with the empty string). *)
Definition echo_service (n : nat) : DecisionService :=
  {| decide := fun i kis => (i, Returns (nth n kis ""));
     finish_episode := fun i => (i, Returns tt) |}.

(** A plugin whose context is a URL, colon included. *)
Definition fetch_url : Plugin := always 9 "Fetch" (Atom (AStr "http://x")).

(** A subclass of [Plugin] that overrides nothing: both methods raise
    [NotImplementedError]. *)
Definition unimplemented (n : nat) (k : string) : Plugin :=
  {| ident := n; kind := k; description := Some "UNKNOWN";
     test := fun i => (i, Raises);
     process := fun i _ => (i, Raises) |}.

(** Three registered phases whose plugins were left unimplemented. *)
Definition skeleton : Processor :=
  {| plugins := <[ "20-fix" := [unimplemented 2 "Fix"] ]>
                  (<[ "10-detect" := [unimplemented 1 "Detect"] ]>
                     {[ "30-report-parallel" := [unimplemented 3 "Report"] ]});
     ds := None; auto_reward := 2 |}.

(** Always matches; its action deletes the phase field of the issue. *)
Definition eraser : Plugin :=
  plugin_of 10 "Erase" (fun _ => Atom (AStr "all")) (fun i _ => delete "_current_phase" i).

Definition erasing : Processor :=
  {| plugins := {[ "41-erase-alternative" := [eraser] ]}; ds := None; auto_reward := 1 |}.

(** The plugin [p] as an object of a class whose constructor does not
    call [Plugin.__init__]: the attribute [description] is never set. *)
Definition bare (p : Plugin) : Plugin :=
  {| ident := ident p; kind := kind p; description := None;
     test := test p; process := process p |}.

(** Matches with the same context twice. *)
Definition purge_twice : Plugin := always 11 "Purge" (VList [AStr "tmp"; AStr "tmp"]).

(** A registry whose only plugin inherits [test] and [process] from the
    base class but not its constructor. *)
Definition careless : Processor :=
  {| plugins := {[ "10-detect" := [bare (unimplemented 12 "Detect")] ]};
     ds := None; auto_reward := 1 |}.

(** * Lemmas and theorems *)

(** ** The engine monad and the two guarded calls *)

Lemma bind_done {A B} (m : M A) (f : A -> M B) i a i1 t1 :
  m i = (Done a, i1, t1) ->
  bind m f i = (result_of (f a i1), issue_of (f a i1), t1 ++ trace_of (f a i1)).
Proof.
  intros H. unfold bind. rewrite H. destruct (f a i1) as [[r i2] t2]. reflexivity.
Qed.

Lemma bind_raised {A B} (m : M A) (f : A -> M B) i e i1 t1 :
  m i = (Raised e, i1, t1) -> bind m f i = (Raised e, i1, t1).
Proof. intros H. unfold bind. rewrite H. reflexivity. Qed.

Lemma bind_out_of_fuel {A B} (m : M A) (f : A -> M B) i i1 t1 :
  m i = (OutOfFuel, i1, t1) -> bind m f i = (OutOfFuel, i1, t1).
Proof. intros H. unfold bind. rewrite H. reflexivity. Qed.

Lemma bind_ret_l {A B} (a : A) (f : A -> M B) i : bind (ret a) f i = f a i.
Proof. unfold bind, ret. by destruct (f a i) as [[r i2] t2]. Qed.

Lemma bind_ext {A B} (m : M A) (f g : A -> M B) i :
  (forall a j, f a j = g a j) -> bind m f i = bind m g i.
Proof.
  intros H. unfold bind. destruct (m i) as [[[a| |] i1] t1]; auto. by rewrite H.
Qed.

Lemma bind_assoc {A B C} (m : M A) (f : A -> M B) (g : B -> M C) i :
  bind (bind m f) g i = bind m (fun a => bind (f a) g) i.
Proof.
  unfold bind. destruct (m i) as [[[a| |] i1] t1]; auto.
  destruct (f a i1) as [[[b| |] i2] t2]; auto.
  destruct (g b i2) as [[r i3] t3]. by rewrite app_assoc.
Qed.

Lemma bind_trace_prefix {A B} (m : M A) (f : A -> M B) i :
  exists rest, trace_of (bind m f i) = trace_of (m i) ++ rest.
Proof.
  unfold bind. destruct (m i) as [[[a| |] i1] t1]; simpl.
  - destruct (f a i1) as [[r i2] t2]. by exists t2.
  - exists []. by rewrite app_nil_r.
  - exists []. by rewrite app_nil_r.
Qed.

Lemma triple_eta {A} (x : result A * issue * list event) :
  x = (result_of x, issue_of x, trace_of x).
Proof. destruct x as [[r i] t]. reflexivity. Qed.

Lemma process_calls_app t1 t2 :
  process_calls (t1 ++ t2) = process_calls t1 ++ process_calls t2.
Proof. unfold process_calls. apply flat_map_app. Qed.

Lemma decide_calls_app t1 t2 :
  decide_calls (t1 ++ t2) = decide_calls t1 ++ decide_calls t2.
Proof. unfold decide_calls. apply flat_map_app. Qed.

(** The guarded call of a plugin that has a description never fails. *)
Lemma execute_plugin_with_context_eq p c i :
  described p ->
  execute_plugin_with_context p c i
  = (Done tt, fst (process p i c), [process_event (p, c) i]).
Proof.
  unfold described, execute_plugin_with_context, process_event. intros Hp. simpl.
  destruct (description p); [|done].
  destruct (process p i c) as [i' o]. reflexivity.
Qed.

(** Without the attribute it fails before [process] is called. *)
Lemma execute_plugin_with_context_bare p c i :
  description p = None ->
  execute_plugin_with_context p c i = (Raised AttributeError, i, []).
Proof. intros Hp. unfold execute_plugin_with_context. by rewrite Hp. Qed.

Lemma test_plugin_done p i :
  described p ->
  exists found i' o,
    test_plugin p i = (Done found, i', [ETest (ident p) o]).
Proof.
  unfold described, test_plugin. intros Hp. destruct (test p i) as [i' [v|]]; eauto.
  destruct (description p); [eauto|done].
Qed.

(** Whatever its result, a test leaves one event, of the test itself. *)
Lemma test_plugin_trace p i :
  exists o, trace_of (test_plugin p i) = [ETest (ident p) o].
Proof.
  unfold test_plugin. destruct (test p i) as [i' [v|]]; [by eexists|].
  destruct (description p); by eexists.
Qed.

Lemma test_each_no_calls ps : forall acc i,
  process_calls (trace_of (test_each ps acc i)) = []
  /\ decide_calls (trace_of (test_each ps acc i)) = [].
Proof.
  induction ps as [|p ps IH]; intros acc i; simpl; [done|].
  destruct (test_plugin_trace p i) as [o Ho]. unfold bind.
  destruct (test_plugin p i) as [[[found| |] i'] t]; simpl in Ho; subst; [|done|done].
  destruct (IH (acc ++ found) i') as [Hc Hd].
  destruct (test_each ps (acc ++ found) i') as [[r i2] t2]. simpl in *.
  by rewrite Hc, Hd.
Qed.

Lemma test_each_done ps : Forall described ps -> forall acc i,
  exists found i' t,
    test_each ps acc i = (Done (acc ++ found), i', t)
    /\ process_calls t = [] /\ decide_calls t = [].
Proof.
  induction 1 as [|p ps Hp Hps IH]; intros acc i; simpl.
  - exists [], i, []. rewrite app_nil_r. auto.
  - destruct (test_plugin_done p i Hp) as (found & i' & o & Hf).
    destruct (IH (acc ++ found) i') as (found' & i'' & t & Ht & Hc & Hd).
    exists (found ++ found'), i'', (ETest (ident p) o :: t).
    rewrite (bind_done _ _ _ _ _ _ Hf), Ht. simpl.
    rewrite app_assoc. auto.
Qed.

Lemma test_plugins_on_value_done ps i :
  Forall described ps ->
  exists tested i' t,
    test_plugins_on_value ps i = (Done tested, i', t)
    /\ process_calls t = [] /\ decide_calls t = [].
Proof.
  intros Hps. destruct (test_each_done ps Hps [] i) as (found & i' & t & Ht & Hc & Hd).
  exists found, i', (ETesting :: t). unfold test_plugins_on_value.
  rewrite (bind_done _ _ i tt i [ETesting]) by reflexivity.
  rewrite Ht. simpl. auto.
Qed.

Lemma tests_make_no_calls ps i r i1 t1 :
  test_plugins_on_value ps i = (r, i1, t1) ->
  process_calls t1 = [] /\ decide_calls t1 = [].
Proof.
  intros H. unfold test_plugins_on_value in H.
  rewrite (bind_done _ _ i tt i [ETesting]) in H by reflexivity.
  destruct (test_each_no_calls ps [] i) as [Hc Hd].
  inversion H; subst. simpl. auto.
Qed.

(** Candidates are made of the plugins that were tested. *)
Lemma test_each_plugins ps : forall acc,
  returns (fun tested => forall c, c ∈ tested -> c ∈ acc \/ fst c ∈ ps) (test_each ps acc).
Proof.
  induction ps as [|p ps IH]; intros acc i tested i1 t1 H c Hc; simpl in H.
  - unfold ret in H. inversion H; subst. by left.
  - destruct (test_plugin p i) as [[[found| |] j] u] eqn:E.
    + rewrite (bind_done _ _ _ _ _ _ E) in H.
      destruct (test_each ps (acc ++ found) j) as [[r' j'] u'] eqn:E'.
      unfold result_of, issue_of, trace_of in H; simpl in H. inversion H; subst.
      destruct (IH _ _ _ _ _ E' c Hc) as [Hin|Hin].
      * apply elem_of_app in Hin as [Hin|Hin]; [by left|]. right.
        unfold test_plugin in E. destruct (test p i) as [i' [v|]].
        -- inversion E; subst.
           apply list_elem_of_fmap in Hin as (x & -> & _). apply elem_of_cons. by left.
        -- destruct (description p); inversion E; subst. by apply elem_of_nil in Hin.
      * right. apply elem_of_cons. by right.
    + rewrite (bind_raised _ _ _ _ _ _ E) in H. discriminate.
    + rewrite (bind_out_of_fuel _ _ _ _ _ E) in H. discriminate.
Qed.

Lemma tested_plugins ps :
  returns (fun tested => forall c, c ∈ tested -> fst c ∈ ps) (test_plugins_on_value ps).
Proof.
  intros i tested i1 t1 H c Hc. unfold test_plugins_on_value in H.
  rewrite (bind_done _ _ i tt i [ETesting]) in H by reflexivity.
  destruct (test_each ps [] i) as [[r j] u] eqn:E.
  unfold result_of, issue_of, trace_of in H; simpl in H. inversion H; subst.
  destruct (test_each_plugins ps [] _ _ _ _ E c Hc) as [Hin|Hin]; [|done].
  by apply elem_of_nil in Hin.
Qed.

Lemma tested_described ps i tested i1 t1 :
  Forall described ps ->
  test_plugins_on_value ps i = (Done tested, i1, t1) ->
  forall c, c ∈ tested -> described (fst c).
Proof.
  intros Hps Ht c Hc. rewrite Forall_forall in Hps.
  apply Hps. exact (tested_plugins ps _ _ _ _ Ht c Hc).
Qed.

(** The candidates found so far are only passed along. *)
Lemma test_each_shift ps : forall acc' acc i,
  test_each ps (acc' ++ acc) i
  = (map_result (app acc') (result_of (test_each ps acc i)),
     issue_of (test_each ps acc i), trace_of (test_each ps acc i)).
Proof.
  induction ps as [|p ps IH]; intros acc' acc i; simpl; [reflexivity|].
  unfold bind. destruct (test_plugin p i) as [[[found| |] i1] t1]; try reflexivity.
  rewrite <- app_assoc, IH.
  by destruct (test_each ps (acc ++ found) i1) as [[r i2] t2].
Qed.

Lemma test_each_from_nil ps acc i tested i' t :
  test_each ps acc i = (Done tested, i', t) ->
  exists found, tested = acc ++ found /\ test_each ps [] i = (Done found, i', t).
Proof.
  intros H. pose proof (test_each_shift ps acc [] i) as Hs.
  rewrite app_nil_r, H in Hs.
  destruct (test_each ps [] i) as [[[found| |] j] u]; inversion Hs; subst; eauto.
Qed.

Lemma list_remove_subset a (l : list candidate) c : c ∈ list_remove a l -> c ∈ l.
Proof.
  induction l as [|x l IH]; simpl; [done|].
  destruct (candidate_eqb x a); rewrite !elem_of_cons; tauto.
Qed.

Lemma remove_executed_subset any_executed : forall (possible : list candidate) c,
  c ∈ remove_executed any_executed possible -> c ∈ possible.
Proof.
  unfold remove_executed.
  induction any_executed as [|a l IH]; intros possible c H; simpl in H; [done|].
  apply IH in H. destruct (list_contains a possible); [|done].
  by apply list_remove_subset in H.
Qed.

Lemma possible_described ps any_executed i tested i1 t1 :
  Forall described ps ->
  test_plugins_on_value ps i = (Done tested, i1, t1) ->
  forall c, c ∈ remove_executed any_executed tested -> described (fst c).
Proof.
  intros Hps Ht c Hc. apply (tested_described _ _ _ _ _ Hps Ht).
  by eapply remove_executed_subset.
Qed.

(** Building the candidates needs no budget. *)
Lemma test_each_fuel ps : forall acc i, result_of (test_each ps acc i) <> OutOfFuel.
Proof.
  induction ps as [|p ps IH]; intros acc i; simpl; [done|].
  unfold bind. destruct (test_plugin p i) as [[[found| |] i1] t1] eqn:E.
  - specialize (IH (acc ++ found) i1).
    by destruct (test_each ps (acc ++ found) i1) as [[r i2] t2].
  - done.
  - unfold test_plugin in E. destruct (test p i) as [j [v|]]; [discriminate|].
    destruct (description p); discriminate.
Qed.

Lemma tests_never_out_of_fuel ps i : result_of (test_plugins_on_value ps i) <> OutOfFuel.
Proof.
  unfold test_plugins_on_value. rewrite (bind_done _ _ i tt i [ETesting]) by reflexivity.
  exact (test_each_fuel ps [] i).
Qed.

(** ** The single-choice policy *)

Section Alternative.

Variable self : Processor.

Lemma resolves_spec bp bc (c : candidate) :
  resolves bp bc c = true <-> kind (fst c) = bp /\ py_str (snd c) = bc.
Proof.
  unfold resolves. rewrite andb_true_iff, !String.eqb_eq. reflexivity.
Qed.

(** Either the decision names a candidate exactly, and the first such
    candidate is returned, or the lookup raises. *)
Lemma resolve_cases decision (possible : list candidate) i :
  (exists chosen,
      resolve decision possible i = (Done chosen, i, [])
      /\ chosen ∈ possible
      /\ split_on ":" decision = [kind (fst chosen); py_str (snd chosen)])
  \/ (exists e,
      (e = IndexError \/ e = ValueError)
      /\ resolve decision possible i = (Raised e, i, [])
      /\ forall c, c ∈ possible ->
           split_on ":" decision <> [kind (fst c); py_str (snd c)]).
Proof.
  unfold resolve.
  destruct (split_on ":" decision) as [|bp [|bc [|x xs]]] eqn:Hs;
    try (right; exists ValueError; repeat split; auto; intros; discriminate).
  destruct (List.filter (resolves bp bc) possible) as [|chosen rest] eqn:Hf.
  - right. exists IndexError. repeat split; auto.
    intros c Hc Heq. inversion Heq; subst.
    assert (In c (List.filter (resolves (kind (fst c)) (py_str (snd c))) possible)) as Hin.
    { apply filter_In. split; [by apply list_elem_of_In|]. by apply resolves_spec. }
    rewrite Hf in Hin. destruct Hin.
  - left. exists chosen.
    assert (In chosen (List.filter (resolves bp bc) possible)) as Hin
      by (rewrite Hf; left; reflexivity).
    apply filter_In in Hin as [Hin Hres]. apply resolves_spec in Hres as [<- <-].
    repeat split; auto. by apply list_elem_of_In.
Qed.

(** What the [-alternative] branch does with a non-empty candidate list. *)
Lemma choose_without_service (possible : list candidate) first others i :
  ds self = None -> possible = first :: others -> described (fst first) ->
  (p <- decide_on_plugin self possible ;; execute_plugin_with_context (fst p) (snd p)) i
  = (Done tt, fst (process (fst first) i (snd first)), [process_event first i]).
Proof.
  intros Hds -> Hf. unfold decide_on_plugin. rewrite Hds.
  rewrite (bind_done _ _ i first i []) by reflexivity.
  rewrite execute_plugin_with_context_eq by done. simpl. by destruct first.
Qed.

Lemma choose_service_raises d (possible : list candidate) i i2 :
  ds self = Some d -> possible <> [] ->
  decide d i (map label possible) = (i2, Raises) ->
  (p <- decide_on_plugin self possible ;; execute_plugin_with_context (fst p) (snd p)) i
  = (Raised CollaboratorError, i2, [EDecide (map label possible) Raises]).
Proof.
  intros Hds Hne Hd. destruct possible as [|first others]; [done|].
  unfold decide_on_plugin. rewrite Hds.
  apply bind_raised. apply bind_raised. unfold call_decide. by rewrite Hd.
Qed.

Lemma choose_service_resolved d (possible : list candidate) i i2 decision chosen :
  ds self = Some d -> possible <> [] ->
  decide d i (map label possible) = (i2, Returns decision) ->
  resolve decision possible i2 = (Done chosen, i2, []) ->
  described (fst chosen) ->
  (p <- decide_on_plugin self possible ;; execute_plugin_with_context (fst p) (snd p)) i
  = (Done tt, fst (process (fst chosen) i2 (snd chosen)),
     [EDecide (map label possible) (Returns decision); process_event chosen i2]).
Proof.
  intros Hds Hne Hd Hr Hch. destruct possible as [|first others]; [done|].
  assert (decide_on_plugin self (first :: others) i
          = (Done chosen, i2, [EDecide (map label (first :: others)) (Returns decision)])) as Hdec.
  { unfold decide_on_plugin. rewrite Hds.
    rewrite (bind_done _ _ i decision i2 [EDecide (map label (first :: others)) (Returns decision)])
      by (unfold call_decide; by rewrite Hd).
    by rewrite Hr. }
  rewrite (bind_done _ _ _ _ _ _ Hdec), execute_plugin_with_context_eq by done. simpl.
  by destruct chosen.
Qed.

Lemma choose_service_unresolved d (possible : list candidate) i i2 decision e :
  ds self = Some d -> possible <> [] ->
  decide d i (map label possible) = (i2, Returns decision) ->
  resolve decision possible i2 = (Raised e, i2, []) ->
  (p <- decide_on_plugin self possible ;; execute_plugin_with_context (fst p) (snd p)) i
  = (Raised e, i2, [EDecide (map label possible) (Returns decision)]).
Proof.
  intros Hds Hne Hd Hr. destruct possible as [|first others]; [done|].
  apply bind_raised. unfold decide_on_plugin. rewrite Hds.
  rewrite (bind_done _ _ i decision i2 [EDecide (map label (first :: others)) (Returns decision)])
    by (unfold call_decide; by rewrite Hd).
  by rewrite Hr.
Qed.

(** A round of a phase invocation, once the candidates are built. *)
Lemma round_after_tests next directory subplugins any_executed i tested i1 t1 :
  test_plugins_on_value subplugins i = (Done tested, i1, t1) ->
  round self next directory subplugins any_executed i
  = let possible := remove_executed any_executed tested in
    let x :=
      (if Nat.ltb (length possible) 1 then emit (ENoPossible directory)
       else if endswith directory "-parallel" then
         any_executed' <- execute_each possible any_executed ;;
         end_of_round next directory (length any_executed) any_executed'
       else if endswith directory "-alternative" then
         p <- decide_on_plugin self possible ;;
         execute_plugin_with_context (fst p) (snd p)
       else
         match last possible with
         | None => raise IndexError
         | Some p =>
             execute_plugin_with_context (fst p) (snd p) ;;;
             end_of_round next directory (length any_executed) (any_executed ++ [p])
         end) i1 in
    (result_of x, issue_of x, t1 ++ trace_of x).
Proof.
  intros Ht. unfold round. by rewrite (bind_done _ _ _ _ _ _ Ht).
Qed.

Lemma round_alternative next directory subplugins i tested i1 t1 :
  endswith directory "-parallel" = false ->
  endswith directory "-alternative" = true ->
  test_plugins_on_value subplugins i = (Done tested, i1, t1) ->
  round self next directory subplugins [] i
  = match tested with
    | [] => (Done tt, i1, t1 ++ [ENoPossible directory])
    | _ :: _ =>
        let x := (p <- decide_on_plugin self tested ;;
                  execute_plugin_with_context (fst p) (snd p)) i1 in
        (result_of x, issue_of x, t1 ++ trace_of x)
    end.
Proof.
  intros Hp Ha Ht. rewrite (round_after_tests _ _ _ _ _ _ _ _ Ht).
  simpl. destruct tested as [|c cs]; [reflexivity|]. simpl. by rewrite Hp, Ha.
Qed.


Lemma run_phase_alternative fuel directory subplugins i tested i1 t1 :
  endswith directory "-parallel" = false ->
  endswith directory "-alternative" = true ->
  test_plugins_on_value subplugins i = (Done tested, i1, t1) ->
  run_phase self (S fuel) directory subplugins [] i
  = match tested with
    | [] => (Done tt, i1, t1 ++ [ENoPossible directory])
    | _ :: _ =>
        let x := (p <- decide_on_plugin self tested ;;
                  execute_plugin_with_context (fst p) (snd p)) i1 in
        (result_of x, issue_of x, t1 ++ trace_of x)
    end.
Proof. intros. simpl. by apply round_alternative. Qed.

(** The four ways a single-choice round with candidates can go when
    the candidates' plugins have a description. *)
Lemma alternative_outcomes (possible : list candidate) i :
  possible <> [] ->
  (forall c, c ∈ possible -> described (fst c)) ->
  let x := (p <- decide_on_plugin self possible ;;
            execute_plugin_with_context (fst p) (snd p)) i in
  (exists first others, ds self = None /\ possible = first :: others
      /\ x = (Done tt, fst (process (fst first) i (snd first)), [process_event first i]))
  \/ (exists d i2, ds self = Some d
      /\ decide d i (map label possible) = (i2, Raises)
      /\ x = (Raised CollaboratorError, i2, [EDecide (map label possible) Raises]))
  \/ (exists d i2 decision chosen, ds self = Some d
      /\ decide d i (map label possible) = (i2, Returns decision)
      /\ resolve decision possible i2 = (Done chosen, i2, [])
      /\ x = (Done tt, fst (process (fst chosen) i2 (snd chosen)),
              [EDecide (map label possible) (Returns decision); process_event chosen i2]))
  \/ (exists d i2 decision e, ds self = Some d
      /\ decide d i (map label possible) = (i2, Returns decision)
      /\ resolve decision possible i2 = (Raised e, i2, [])
      /\ x = (Raised e, i2, [EDecide (map label possible) (Returns decision)])).
Proof.
  intros Hne Hall x. subst x. destruct (ds self) as [d|] eqn:Hds.
  - destruct (decide d i (map label possible)) as [i2 [decision|]] eqn:Hd.
    + destruct (resolve_cases decision possible i2)
        as [(chosen & Hr & Hin & _)|(e & _ & Hr & _)].
      * right; right; left. exists d, i2, decision, chosen.
        repeat split; auto. eapply choose_service_resolved; eauto.
      * right; right; right. exists d, i2, decision, e.
        repeat split; auto. by eapply choose_service_unresolved.
    + right; left. exists d, i2. repeat split; auto.
      by eapply choose_service_raises.
  - left. destruct possible as [|first others]; [done|].
    exists first, others. repeat split; auto.
    eapply choose_without_service; eauto. apply Hall, elem_of_cons. by left.
Qed.

(** The ways a single-choice round with candidates can go, whatever the
    plugins: at most one [process] call, made only when the round
    returns. *)
Lemma alternative_calls (possible : list candidate) i :
  possible <> [] ->
  let x := (p <- decide_on_plugin self possible ;;
            execute_plugin_with_context (fst p) (snd p)) i in
  (result_of x = Done tt /\ length (process_calls (trace_of x)) = 1)
  \/ ((exists e, result_of x = Raised e) /\ process_calls (trace_of x) = []).
Proof.
  intros Hne x. subst x.
  assert (forall chosen j td,
            decide_on_plugin self possible i = (Done chosen, j, td) -> process_calls td = []) as Hquiet.
  { intros chosen j td H. unfold decide_on_plugin in H.
    destruct possible as [|first others]; [done|].
    destruct (ds self) as [d|]; [|inversion H; by subst].
    unfold bind, call_decide in H.
    destruct (decide d i (map label (first :: others))) as [i2 [decision|]]; [|discriminate].
    destruct (resolve_cases decision (first :: others) i2)
      as [(ch & Hr & _)|(e & _ & Hr & _)]; rewrite Hr in H; inversion H; by subst. }
  destruct (decide_on_plugin self possible i) as [[[chosen| |] j] td] eqn:Hd.
  - specialize (Hquiet _ _ _ eq_refl). rewrite (bind_done _ _ _ _ _ _ Hd).
    destruct (description (fst chosen)) as [s|] eqn:Hs.
    + left. rewrite execute_plugin_with_context_eq by (unfold described; by rewrite Hs).
      unfold result_of, trace_of. simpl. by rewrite process_calls_app, Hquiet.
    + right. rewrite execute_plugin_with_context_bare by done.
      unfold result_of, trace_of. simpl. rewrite app_nil_r. eauto.
  - right. rewrite (bind_raised _ _ _ _ _ _ Hd). unfold result_of, trace_of. simpl.
    split; [eauto|]. unfold decide_on_plugin in Hd.
    destruct possible as [|first others]; [done|].
    destruct (ds self) as [d|]; [|discriminate].
    unfold bind, call_decide in Hd.
    destruct (decide d i (map label (first :: others))) as [i2 [decision|]].
    + destruct (resolve_cases decision (first :: others) i2)
        as [(ch & Hr & _)|(e' & _ & Hr & _)]; rewrite Hr in Hd; inversion Hd; by subst.
    + inversion Hd; by subst.
  - exfalso. unfold decide_on_plugin in Hd.
    destruct possible as [|first others]; [done|].
    destruct (ds self) as [d|]; [|discriminate].
    unfold bind, call_decide in Hd.
    destruct (decide d i (map label (first :: others))) as [i2 [decision|]]; [|discriminate].
    destruct (resolve_cases decision (first :: others) i2)
      as [(ch & Hr & _)|(e' & _ & Hr & _)]; rewrite Hr in Hd; discriminate.
Qed.


Lemma test_each_acc ps : forall acc i found i' t,
  test_each ps [] i = (Done found, i', t) ->
  test_each ps acc i = (Done (acc ++ found), i', t).
Proof.
  intros acc i found i' t H. pose proof (test_each_shift ps acc [] i) as Hs.
  rewrite app_nil_r, H in Hs. exact Hs.
Qed.



(** C2, as the code has it: in a single-choice phase with candidates,
    of plugins that carry a description, the arbiter is consulted
    whenever a decision service is configured, also when there is
    exactly one candidate, and the candidate its answer resolves to is
    the one executed; only without a decision service is the first
    candidate executed directly. *)
Theorem service_consulted_for_any_count
  fuel directory subplugins i first others i1 t1 :
  Forall described subplugins ->
  endswith directory "-parallel" = false ->
  endswith directory "-alternative" = true ->
  test_plugins_on_value subplugins i = (Done (first :: others), i1, t1) ->
  let t := trace_of (run_phase self (S fuel) directory subplugins [] i) in
  match ds self with
  | None => decide_calls t = [] /\ process_calls t = [call_of first]
  | Some d =>
      decide_calls t = [map label (first :: others)]
      /\ forall i2 decision chosen,
           decide d i1 (map label (first :: others)) = (i2, Returns decision) ->
           resolve decision (first :: others) i2 = (Done chosen, i2, []) ->
           process_calls t = [call_of chosen]
  end.
Proof.
  intros Hdesc Hp Ha Ht t. subst t.
  destruct (tests_make_no_calls _ _ _ _ _ Ht) as [Hc Hd].
  rewrite (run_phase_alternative _ _ _ _ _ _ _ Hp Ha Ht).
  destruct (alternative_outcomes (first :: others) i1 ltac:(done)
              (tested_described _ _ _ _ _ Hdesc Ht))
    as [(f & o & Hds & Hfo & Hx)|[(d & i2 & Hds & Hdec & Hx)
       |[(d & i2 & dec & ch & Hds & Hdec & Hr & Hx)|(d & i2 & dec & e & Hds & Hdec & Hr & Hx)]]];
    rewrite Hds; cbv zeta; rewrite Hx; unfold trace_of; simpl;
    rewrite ?process_calls_app, ?decide_calls_app, Hc, Hd; simpl in *.
  - inversion Hfo; subst. auto.
  - split; [reflexivity|]. intros ??? E. rewrite Hdec in E. discriminate.
  - split; [reflexivity|]. intros ??? E1 E2. rewrite Hdec in E1. inversion E1; subst.
    rewrite Hr in E2. inversion E2; subst. reflexivity.
  - split; [reflexivity|]. intros ??? E1 E2. rewrite Hdec in E1. inversion E1; subst.
    rewrite Hr in E2. discriminate.
Qed.

(** C3, as the code has it: an invocation of a single-choice phase makes
    at most one [process] call: none when the candidate list is empty or
    when the arbiter's decision fails (the invocation then raises, as it
    does when the chosen plugin has no description), and exactly one
    when it has candidates and returns. *)
Theorem alternative_acts_at_most_once fuel directory subplugins i tested i1 t1 :
  endswith directory "-parallel" = false ->
  endswith directory "-alternative" = true ->
  test_plugins_on_value subplugins i = (Done tested, i1, t1) ->
  let x := run_phase self (S fuel) directory subplugins [] i in
  length (process_calls (trace_of x)) <= 1
  /\ (tested = [] -> result_of x = Done tt /\ process_calls (trace_of x) = [])
  /\ (tested <> [] -> result_of x = Done tt -> length (process_calls (trace_of x)) = 1)
  /\ (tested <> [] -> result_of x <> Done tt ->
        (exists e, result_of x = Raised e) /\ process_calls (trace_of x) = []).
Proof.
  intros Hp Ha Ht x. subst x.
  destruct (tests_make_no_calls _ _ _ _ _ Ht) as [Hc Hd].
  rewrite (run_phase_alternative _ _ _ _ _ _ _ Hp Ha Ht).
  destruct tested as [|first others].
  - unfold trace_of, result_of. simpl. rewrite process_calls_app, Hc. simpl.
    repeat split; auto; done.
  - destruct (alternative_calls (first :: others) i1 ltac:(done)) as [[Hr Hn]|[[e Hr] Hn]];
      cbv zeta in *; unfold trace_of, result_of in *; simpl in *;
      rewrite process_calls_app, Hc; simpl; rewrite Hr, Hn; simpl;
      repeat split; auto; try done; eauto.
Qed.

End Alternative.


(** A lone candidate with a service configured: the service is asked. *)
Lemma service_consulted_for_any_count_witness :
  decide_calls (trace_of (run_phase (remediate (Some (fixed_service "Restart:db"))) 1
                            "20-remediate-alternative" [restart_db] [] ∅))
  = [["Restart:db"]].
Proof.
  assert (Forall described [restart_db]) as Hdesc by (repeat constructor; done).
  exact (proj1 (service_consulted_for_any_count
           (remediate (Some (fixed_service "Restart:db"))) 0
           "20-remediate-alternative" [restart_db] ∅
           (restart_db, AStr "db") [] ∅
           [ETesting; ETest 1 (Returns (Atom (AStr "db")))]
           Hdesc eq_refl eq_refl eq_refl)).
Defined.

(** Two candidates, one [process] call. *)
Lemma alternative_acts_at_most_once_witness :
  length (process_calls (trace_of (run_phase (remediate None) 1
            "20-remediate-alternative" [restart_db; reboot_host] [] ∅))) <= 1.
Proof.
  exact (proj1 (alternative_acts_at_most_once (remediate None) 0
           "20-remediate-alternative" [restart_db; reboot_host] ∅
           [(restart_db, AStr "db"); (reboot_host, AStr "host")] ∅
           [ETesting; ETest 1 (Returns (Atom (AStr "db"))); ETest 2 (Returns (Atom (AStr "host")))]
           eq_refl eq_refl eq_refl)).
Defined.

(** C2 fails as worded: with a decision service configured, a lone
    candidate is still submitted to the arbiter. *)
Lemma lone_candidate_still_arbitrated :
  ~ lone_candidate_runs_directly (remediate (Some (fixed_service "Restart:db")))
      "20-remediate-alternative" [restart_db] ∅.
Proof.
  intros H. specialize (H _ _ _ eq_refl). vm_compute in H. discriminate.
Qed.

(** C3 fails as worded: when the arbiter names nobody the candidate list
    is not empty and yet no [process] call is made. *)
Lemma unresolved_decision_runs_nothing :
  ~ acts_once_unless_empty (remediate (Some (fixed_service "Nobody:db")))
      "20-remediate-alternative" [restart_db; reboot_host] ∅.
Proof.
  intros H. specialize (H _ _ _ eq_refl). vm_compute in H. discriminate.
Qed.

(** ** The outer loop *)

Section Pass.

Variable self : Processor.

(** A phase invocation, after its two opening statements. *)
Lemma visit_phase_eq fuel n directory subplugins i :
  plugins self !! directory = Some subplugins ->
  visit_phase self fuel n directory i
  = let x := (run_phase self fuel directory subplugins [] ;;;
              add_reward self ;;;
              current <- getitem "_current_phase" ;;
              if is_phase current directory then ret (S n)
              else dirs_lookup_get self current (S n))
               (<["_current_phase" := Atom (AStr directory)]> i) in
    (result_of x, issue_of x, EPhase directory :: trace_of x).
Proof.
  intros Hsub. unfold visit_phase. rewrite Hsub.
  rewrite (bind_done _ _ i tt (<["_current_phase" := Atom (AStr directory)]> i) [])
    by reflexivity.
  simpl.
  rewrite (bind_done _ _ _ tt (<["_current_phase" := Atom (AStr directory)]> i) [EPhase directory])
    by reflexivity.
  reflexivity.
Qed.

(** The loop continues after its first [k] iterations from where they
    left it. *)
Lemma run_phases_after k : forall visits fuel n i nk ik tk,
  first_visits self k fuel n i = (Done nk, ik, tk) ->
  run_phases self (k + visits) fuel n i
  = (result_of (run_phases self visits fuel nk ik),
     issue_of (run_phases self visits fuel nk ik),
     tk ++ trace_of (run_phases self visits fuel nk ik)).
Proof.
  induction k as [|k IH]; intros visits fuel n i nk ik tk H.
  - simpl in H. unfold ret in H. inversion H; subst. simpl. apply triple_eta.
  - simpl in H. change (S k + visits) with (S (k + visits)). simpl.
    destruct (dirs self !! n) as [directory|] eqn:Hd.
    + destruct (visit_phase self fuel n directory i) as [[[next| |] i1] t1] eqn:Hv.
      * rewrite (bind_done _ _ _ _ _ _ Hv) in H.
        rewrite (bind_done _ _ _ _ _ _ Hv).
        destruct (first_visits self k fuel next i1) as [[r2 i2] t2] eqn:Hf.
        unfold result_of, issue_of, trace_of in H. simpl in H. inversion H; subst.
        rewrite (IH _ _ _ _ _ _ _ Hf). unfold result_of, issue_of, trace_of. simpl.
        by rewrite app_assoc.
      * rewrite (bind_raised _ _ _ _ _ _ Hv) in H. discriminate.
      * rewrite (bind_out_of_fuel _ _ _ _ _ Hv) in H. discriminate.
    + unfold ret in H. inversion H; subst.
      destruct visits; simpl; rewrite Hd; reflexivity.
Qed.

(** An iteration that raises ends the loop with that exception. *)
Lemma run_phases_raised visits fuel n directory i e i1 t1 :
  dirs self !! n = Some directory ->
  visit_phase self fuel n directory i = (Raised e, i1, t1) ->
  run_phases self (S visits) fuel n i = (Raised e, i1, t1).
Proof.
  intros Hd Hv. simpl. rewrite Hd. by apply bind_raised.
Qed.

(** C7: when the arbiter's answer matches no candidate of the round by
    class name and stringified context, the lookup raises ([IndexError],
    or [ValueError] when the answer does not split into two names); no
    candidate is executed, and the exception leaves [process_issue]: the
    pass ends there, whatever came before ([k] completed phase
    invocations) and whatever budget remains. *)
Theorem unresolved_decision_aborts_pass
  k visits fuel i0 n i tk directory subplugins d possible i1 t1 i2 decision :
  first_visits self k (S fuel) 0 (<["_reward" := Atom (AInt 0)]> i0) = (Done n, i, tk) ->
  dirs self !! n = Some directory ->
  plugins self !! directory = Some subplugins ->
  endswith directory "-parallel" = false ->
  endswith directory "-alternative" = true ->
  ds self = Some d ->
  test_plugins_on_value subplugins (<["_current_phase" := Atom (AStr directory)]> i)
    = (Done possible, i1, t1) ->
  possible <> [] ->
  decide d i1 (map label possible) = (i2, Returns decision) ->
  (forall c, c ∈ possible -> split_on ":" decision <> [kind (fst c); py_str (snd c)]) ->
  exists e,
    (e = IndexError \/ e = ValueError)
    /\ process_issue self (k + S visits) (S fuel) i0
       = (Raised e, i2,
          tk ++ EPhase directory :: t1 ++ [EDecide (map label possible) (Returns decision)]).
Proof.
  intros Hk Hdir Hsub Hp Ha Hds Ht Hne Hdec Hno.
  destruct (resolve_cases decision possible i2)
    as [(chosen & _ & Hin & Hs)|(e & He & Hr & _)].
  { exfalso. by apply (Hno chosen). }
  exists e. split; [exact He|].
  assert (visit_phase self (S fuel) n directory i
          = (Raised e, i2, EPhase directory :: t1 ++ [EDecide (map label possible) (Returns decision)]))
    as Hv.
  { rewrite (visit_phase_eq _ _ _ _ _ Hsub). cbv zeta.
    erewrite bind_raised; [reflexivity|].
    rewrite (run_phase_alternative self _ _ _ _ _ _ _ Hp Ha Ht).
    destruct possible as [|c cs]; [done|].
    cbv zeta. by rewrite (choose_service_unresolved self d (c :: cs) i1 i2 decision e). }
  unfold process_issue, apply_all_plugins_on_value.
  apply bind_raised.
  rewrite (bind_done _ _ i0 tt (<["_reward" := Atom (AInt 0)]> i0) []) by reflexivity.
  rewrite (run_phases_after _ _ _ _ _ _ _ _ Hk).
  by rewrite (run_phases_raised _ _ _ _ _ _ _ _ Hdir Hv).
Qed.

End Pass.

(** The service names a plugin that is not a candidate: the pass raises
    in its first phase, before any [process] call. *)
Lemma unresolved_decision_aborts_pass_witness :
  exists e,
    (e = IndexError \/ e = ValueError)
    /\ process_issue (remediate (Some (fixed_service "Nobody:db"))) 1 1 ∅
       = (Raised e,
          <["_current_phase" := Atom (AStr "20-remediate-alternative")]>
            (<["_reward" := Atom (AInt 0)]> ∅),
          [EPhase "20-remediate-alternative"; ETesting;
           ETest 1 (Returns (Atom (AStr "db"))); ETest 2 (Returns (Atom (AStr "host")));
           EDecide ["Restart:db"; "Reboot:host"] (Returns "Nobody:db")]).
Proof.
  apply (unresolved_decision_aborts_pass (remediate (Some (fixed_service "Nobody:db")))
           0 0 0 ∅ 0 (<["_reward" := Atom (AInt 0)]> ∅) []
           "20-remediate-alternative" [restart_db; reboot_host]
           (fixed_service "Nobody:db")
           [(restart_db, AStr "db"); (reboot_host, AStr "host")]
           (<["_current_phase" := Atom (AStr "20-remediate-alternative")]>
              (<["_reward" := Atom (AInt 0)]> ∅))
           [ETesting; ETest 1 (Returns (Atom (AStr "db"))); ETest 2 (Returns (Atom (AStr "host")))]
           (<["_current_phase" := Atom (AStr "20-remediate-alternative")]>
              (<["_reward" := Atom (AInt 0)]> ∅))
           "Nobody:db");
    try reflexivity; try done.
  intros c Hc.
  apply elem_of_cons in Hc as [->|Hc]; [vm_compute; discriminate|].
  apply elem_of_cons in Hc as [->|Hc]; [vm_compute; discriminate|].
  by apply elem_of_nil in Hc.
Defined.

(** ** Rounds of the looping policies *)

Section Rounds.

Variable self : Processor.

Lemma execute_each_eq possible : forall any_executed i,
  (forall c, c ∈ possible -> described (fst c)) ->
  execute_each possible any_executed i
  = (Done (any_executed ++ possible), run_all possible i, process_events possible i).
Proof.
  induction possible as [|c cs IH]; intros any_executed i Hall; simpl.
  - unfold ret. by rewrite app_nil_r.
  - assert (described (fst c)) as Hc by (apply Hall, elem_of_cons; by left).
    rewrite (bind_done _ _ _ _ _ _ (execute_plugin_with_context_eq (fst c) (snd c) i Hc)).
    rewrite IH by (intros c' Hc'; apply Hall, elem_of_cons; by right).
    unfold result_of, issue_of, trace_of. simpl.
    by rewrite <- app_assoc.
Qed.

(** The batch stops at the first candidate whose plugin has no
    description. *)
Lemma execute_each_stops ran c later : forall any_executed i,
  (forall b, b ∈ ran -> described (fst b)) ->
  description (fst c) = None ->
  execute_each (ran ++ c :: later) any_executed i
  = (Raised AttributeError, run_all ran i, process_events ran i).
Proof.
  induction ran as [|b ran IH]; intros any_executed i Hall Hc; simpl.
  - apply bind_raised. by apply execute_plugin_with_context_bare.
  - assert (described (fst b)) as Hb by (apply Hall, elem_of_cons; by left).
    rewrite (bind_done _ _ _ _ _ _ (execute_plugin_with_context_eq (fst b) (snd b) i Hb)).
    rewrite IH by (try done; intros b' Hb'; apply Hall, elem_of_cons; by right).
    reflexivity.
Qed.

Lemma list_remove_sublist a (l : list candidate) : list_remove a l `sublist_of` l.
Proof.
  induction l as [|x l IH]; simpl; [constructor|].
  destruct (candidate_eqb x a); [by apply sublist_cons|by apply sublist_skip].
Qed.

Lemma remove_executed_sublist any_executed : forall possible : list candidate,
  remove_executed any_executed possible `sublist_of` possible.
Proof.
  unfold remove_executed.
  induction any_executed as [|a l IH]; intros possible; simpl; [done|].
  destruct (list_contains a possible); [|apply IH].
  etrans; [apply IH|apply list_remove_sublist].
Qed.

Lemma process_calls_events cs : forall i,
  process_calls (process_events cs i) = map call_of cs.
Proof.
  induction cs as [|c cs IH]; intros i; simpl; [reflexivity|].
  by rewrite IH.
Qed.

Lemma process_events_length cs : forall i, length (process_events cs i) = length cs.
Proof. induction cs as [|c cs IH]; intros i; simpl; [reflexivity|]. by rewrite IH. Qed.

Lemma last_nonempty {A} (l : list A) : l <> [] -> exists x, last l = Some x.
Proof.
  intros Hne. destruct (last l) as [x|] eqn:E; [eauto|].
  apply last_None in E. contradiction.
Qed.

Lemma round_batch_subset directory (possible : list candidate) c :
  c ∈ round_batch directory possible -> c ∈ possible.
Proof.
  unfold round_batch. destruct (endswith directory "-parallel"); [done|].
  destruct (last possible) as [p|] eqn:Hl; intros Hc; [|by apply elem_of_nil in Hc].
  apply elem_of_cons in Hc as [->|Hc]; [|by apply elem_of_nil in Hc].
  apply last_Some in Hl as [l' ->]. apply elem_of_app. right. apply elem_of_cons. by left.
Qed.

(** A round of a [-parallel] or default phase that found candidates:
    the batch is executed, then the closing tests decide. *)
Lemma round_looping_batch fuel directory subplugins any_executed i tested i1 t1 :
  endswith directory "-parallel" = true \/ endswith directory "-alternative" = false ->
  test_plugins_on_value subplugins i = (Done tested, i1, t1) ->
  remove_executed any_executed tested <> [] ->
  (forall c, c ∈ round_batch directory (remove_executed any_executed tested) ->
     described (fst c)) ->
  let batch := round_batch directory (remove_executed any_executed tested) in
  let x := end_of_round (run_phase self fuel directory subplugins) directory
             (length any_executed) (any_executed ++ batch) (run_all batch i1) in
  run_phase self (S fuel) directory subplugins any_executed i
  = (result_of x, issue_of x, t1 ++ process_events batch i1 ++ trace_of x).
Proof.
  intros Hpol Ht Hne Hall batch x. subst x batch. simpl run_phase.
  rewrite (round_after_tests self _ _ _ _ _ _ _ _ Ht). cbv zeta.
  set (possible := remove_executed any_executed tested) in *.
  destruct possible as [|c cs] eqn:Hposs; [done|].
  change (Nat.ltb (length (c :: cs)) 1) with false. cbv iota.
  unfold round_batch in *.
  destruct (endswith directory "-parallel") eqn:Hp.
  - rewrite (bind_done _ _ _ _ _ _ (execute_each_eq (c :: cs) any_executed i1 Hall)).
    unfold result_of, issue_of, trace_of. simpl. by rewrite <- ?app_assoc.
  - destruct Hpol as [?|Ha]; [done|]. rewrite Ha.
    destruct (last_nonempty (c :: cs) ltac:(done)) as [p Hl]. rewrite Hl in *.
    assert (described (fst p)) as Hp' by (apply Hall, elem_of_cons; by left).
    rewrite (bind_done _ _ _ _ _ _ (execute_plugin_with_context_eq (fst p) (snd p) i1 Hp')).
    unfold result_of, issue_of, trace_of. simpl. by rewrite <- ?app_assoc.
Qed.

Lemma round_looping fuel directory subplugins any_executed i tested i1 t1 :
  Forall described subplugins ->
  endswith directory "-parallel" = true \/ endswith directory "-alternative" = false ->
  test_plugins_on_value subplugins i = (Done tested, i1, t1) ->
  remove_executed any_executed tested <> [] ->
  let batch := round_batch directory (remove_executed any_executed tested) in
  let x := end_of_round (run_phase self fuel directory subplugins) directory
             (length any_executed) (any_executed ++ batch) (run_all batch i1) in
  run_phase self (S fuel) directory subplugins any_executed i
  = (result_of x, issue_of x, t1 ++ process_events batch i1 ++ trace_of x).
Proof.
  intros Hdesc Hpol Ht Hne. apply round_looping_batch; try done.
  intros c Hc. apply (possible_described _ any_executed _ _ _ _ Hdesc Ht).
  by eapply round_batch_subset.
Qed.

(** A round whose candidates cannot be built ends the phase with the
    exception of the builder. *)
Lemma round_tests_raise fuel directory subplugins any_executed i e i1 t1 :
  test_plugins_on_value subplugins i = (Raised e, i1, t1) ->
  run_phase self (S fuel) directory subplugins any_executed i = (Raised e, i1, t1).
Proof. intros Ht. simpl. unfold round. by apply bind_raised. Qed.

(** A default round whose candidate has no description ends the phase
    before the candidate is executed. *)
Lemma round_default_bare fuel directory subplugins any_executed i tested i1 t1 p :
  endswith directory "-parallel" = false ->
  endswith directory "-alternative" = false ->
  test_plugins_on_value subplugins i = (Done tested, i1, t1) ->
  last (remove_executed any_executed tested) = Some p ->
  description (fst p) = None ->
  run_phase self (S fuel) directory subplugins any_executed i
  = (Raised AttributeError, i1, t1).
Proof.
  intros Hp Ha Ht Hl Hd. simpl run_phase.
  rewrite (round_after_tests self _ _ _ _ _ _ _ _ Ht). cbv zeta.
  destruct (remove_executed any_executed tested) as [|c cs] eqn:Hposs; [discriminate|].
  change (Nat.ltb (length (c :: cs)) 1) with false. cbv iota.
  rewrite Hp, Ha, Hl.
  rewrite (bind_raised _ _ _ _ _ _ (execute_plugin_with_context_bare (fst p) (snd p) i1 Hd)).
  unfold result_of, issue_of, trace_of. simpl. by rewrite app_nil_r.
Qed.

(** The closing tests of a round, case by case. *)
Lemma end_of_round_left next directory n any_executed i :
  phase_left directory i = true ->
  end_of_round next directory n any_executed i = (Done tt, i, []).
Proof.
  unfold phase_left, end_of_round. intros H.
  destruct (i !! "_current_phase") as [v|] eqn:E; [|done].
  rewrite (bind_done _ _ i v i []) by (unfold getitem; by rewrite E).
  by rewrite H.
Qed.

Lemma end_of_round_stays next directory n any_executed i v :
  i !! "_current_phase" = Some v -> is_phase v directory = true ->
  length any_executed <> n ->
  end_of_round next directory n any_executed i = next any_executed i.
Proof.
  unfold end_of_round. intros E Hv Hn.
  rewrite (bind_done _ _ i v i []) by (unfold getitem; by rewrite E).
  rewrite Hv. simpl. apply Nat.eqb_neq in Hn. rewrite Hn.
  symmetry. apply triple_eta.
Qed.

(** C9, as the code has it: in a fan-out round whose plugins carry a
    description, every entry of the list built at the start of the round
    is executed, once per entry and in list order, with nothing in
    between; only then does the phase end or the next round build its
    candidates, with all of them recorded as run.  A pair is executed
    exactly once when the tests of the round name no pair twice.  A
    candidate whose plugin has no description stops the batch: the
    entries before it have run, it and the entries after it have not,
    and the phase ends with [AttributeError]. *)
Theorem parallel_round_executes_every_candidate
  fuel directory subplugins any_executed i tested i1 t1 :
  endswith directory "-parallel" = true ->
  test_plugins_on_value subplugins i = (Done tested, i1, t1) ->
  let possible := remove_executed any_executed tested in
  possible <> [] ->
  (Forall described subplugins ->
     (exists rest,
        trace_of (run_phase self (S fuel) directory subplugins any_executed i)
        = t1 ++ process_events possible i1 ++ rest
        /\ process_calls (process_events possible i1) = map call_of possible
        /\ length (process_events possible i1) = length possible
        /\ (rest = []
            \/ rest = trace_of (run_phase self fuel directory subplugins
                                  (any_executed ++ possible) (run_all possible i1))))
     /\ (NoDup (map pair_of tested) ->
           executed_pairs (process_events possible i1) = map pair_of possible
           /\ NoDup (executed_pairs (process_events possible i1))))
  /\ (forall ran c later,
        possible = ran ++ c :: later ->
        (forall b, b ∈ ran -> described (fst b)) ->
        description (fst c) = None ->
        run_phase self (S fuel) directory subplugins any_executed i
        = (Raised AttributeError, run_all ran i1, t1 ++ process_events ran i1)
        /\ process_calls (t1 ++ process_events ran i1) = map call_of ran).
Proof.
  intros Hp Ht possible Hne. split.
  - intros Hdesc. split.
    + pose proof (round_looping fuel directory subplugins any_executed i tested i1 t1
                    Hdesc (or_introl Hp) Ht Hne) as Hr.
      cbv zeta in Hr. unfold round_batch in Hr. rewrite Hp in Hr. fold possible in Hr.
      rewrite Hr. unfold trace_of at 1. simpl.
      eexists. split; [reflexivity|].
      split; [apply process_calls_events|]. split; [apply process_events_length|].
      unfold end_of_round.
      destruct (run_all possible i1 !! "_current_phase") as [v|] eqn:E.
      * rewrite (bind_done _ _ _ v (run_all possible i1) []) by (unfold getitem; by rewrite E).
        destruct (is_phase v directory); simpl; [|auto].
        destruct (Nat.eqb _ _); simpl; auto.
      * rewrite (bind_raised _ _ _ (KeyError "_current_phase") (run_all possible i1) [])
          by (unfold getitem; by rewrite E).
        auto.
    + intros Hnd.
      assert (executed_pairs (process_events possible i1) = map pair_of possible) as Hex.
      { unfold executed_pairs. rewrite process_calls_events, map_map. reflexivity. }
      split; [exact Hex|]. rewrite Hex.
      eapply sublist_NoDup; [exact Hnd|apply (fmap_sublist pair_of), remove_executed_sublist].
  - intros ran c later Hsplit Hran Hc. split.
    + simpl run_phase. rewrite (round_after_tests self _ _ _ _ _ _ _ _ Ht). cbv zeta.
      fold possible. rewrite Hsplit.
      replace (Nat.ltb (length (ran ++ c :: later)) 1) with false
        by (rewrite length_app; simpl; symmetry; apply Nat.ltb_ge; lia).
      rewrite Hp.
      rewrite (bind_raised _ _ _ _ _ _ (execute_each_stops ran c later any_executed i1 Hran Hc)).
      reflexivity.
    + rewrite process_calls_app, process_calls_events.
      by destruct (tests_make_no_calls _ _ _ _ _ Ht) as [-> _].
Qed.


End Rounds.

Lemma cleanup_described : Forall described [escalate; purge_cache].
Proof. repeat constructor; done. Qed.

(** The three candidates of the clean-up round, one after the other. *)
Lemma parallel_round_executes_every_candidate_witness :
  exists rest,
    trace_of (run_phase cleanup 1 "30-cleanup-parallel" [escalate; purge_cache] []
                (issue_in "30-cleanup-parallel" 0))
    = [ETesting; ETest 3 (Returns (Atom (AStr "ticket")));
       ETest 4 (Returns (VList [AStr "tmp"; AStr "log"]))]
      ++ [EProcess 3 (AStr "ticket") (Returns tt); EProcess 4 (AStr "tmp") (Returns tt);
          EProcess 4 (AStr "log") (Returns tt)]
      ++ rest.
Proof.
  destruct (proj1 (parallel_round_executes_every_candidate cleanup 0 "30-cleanup-parallel"
              [escalate; purge_cache] [] (issue_in "30-cleanup-parallel" 0)
              [(escalate, AStr "ticket"); (purge_cache, AStr "tmp"); (purge_cache, AStr "log")]
              (issue_in "30-cleanup-parallel" 0)
              [ETesting; ETest 3 (Returns (Atom (AStr "ticket")));
               ETest 4 (Returns (VList [AStr "tmp"; AStr "log"]))]
              eq_refl eq_refl ltac:(discriminate)) cleanup_described) as [(rest & H & _) _].
  exists rest. exact H.
Defined.



(** C9 fails as worded, twice over: a pair that the tests list twice is
    executed twice in the round, and a candidate whose plugin has no
    description ends the round before it and the candidates after it
    are executed. *)
Lemma batch_is_not_once_each :
  ~ batch_runs_each_once cleanup "30-cleanup-parallel" [purge_twice]
      (issue_in "30-cleanup-parallel" 0)
  /\ ~ batch_runs_each_once cleanup "30-cleanup-parallel" [bare escalate; purge_cache]
        (issue_in "30-cleanup-parallel" 0).
Proof.
  split; intros H.
  - specialize (H _ _ _ (purge_twice, AStr "tmp") eq_refl ltac:(apply elem_of_cons; by left)).
    vm_compute in H. discriminate.
  - specialize (H _ _ _ (purge_cache, AStr "tmp") eq_refl
                  ltac:(apply elem_of_cons; right; apply elem_of_cons; by left)).
    vm_compute in H. discriminate.
Qed.

(** ** Phase names and jump resolution *)

Section Jump.

Variable self : Processor.

Lemma sorted_insert_elem x y l : y ∈ sorted_insert x l <-> y = x \/ y ∈ l.
Proof.
  induction l as [|z l IH]; simpl.
  - apply elem_of_cons.
  - destruct (String.leb x z).
    + rewrite elem_of_cons. reflexivity.
    + rewrite !elem_of_cons, IH. tauto.
Qed.

Lemma sorted_elem y l : y ∈ sorted l <-> y ∈ l.
Proof.
  induction l as [|z l IH]; simpl; [reflexivity|].
  rewrite sorted_insert_elem, elem_of_cons, IH. reflexivity.
Qed.

(** The phase list holds exactly the keys of [self.plugins]. *)
Lemma dirs_spec P : P ∈ dirs self <-> is_Some (plugins self !! P).
Proof.
  unfold dirs. rewrite sorted_elem, elem_of_elements, elem_of_dom. reflexivity.
Qed.

Lemma lookup_fold_index (l : list string) : forall a (m : gmap string nat) P j,
  fold_left (fun m kv => <[snd kv := fst kv]> m) (combine (seq a (length l)) l) m !! P = Some j ->
  (exists k, j = a + k /\ l !! k = Some P) \/ m !! P = Some j.
Proof.
  induction l as [|x l IH]; intros a m P j H; simpl in H; [by right|].
  apply IH in H. destruct H as [(k & -> & Hk)|H].
  - left. exists (S k). split; [lia|exact Hk].
  - simpl in H. destruct (base.decide (x = P)) as [->|Hne].
    + rewrite lookup_insert_eq in H. inversion H; subst.
      left. exists 0. split; [lia|reflexivity].
    + rewrite lookup_insert_ne in H by done. by right.
Qed.

Lemma lookup_fold_index_elem (l : list string) : forall a (m : gmap string nat) P,
  (P ∈ l -> is_Some (fold_left (fun m kv => <[snd kv := fst kv]> m)
                       (combine (seq a (length l)) l) m !! P))
  /\ (P ∉ l -> fold_left (fun m kv => <[snd kv := fst kv]> m)
                 (combine (seq a (length l)) l) m !! P = m !! P).
Proof.
  induction l as [|x l IH]; intros a m P; simpl.
  - split; [intros H; by apply elem_of_nil in H|reflexivity].
  - destruct (IH (S a) (<[x := a]> m) P) as [IH1 IH2]. split.
    + intros Hin. destruct (base.decide (P ∈ l)) as [Hl|Hl]; [by apply IH1|].
      rewrite (IH2 Hl). apply elem_of_cons in Hin as [->|Hin]; [|done].
      rewrite lookup_insert_eq. eauto.
    + intros Hnin. apply not_elem_of_cons in Hnin as [Hne Hl].
      rewrite (IH2 Hl). by rewrite lookup_insert_ne.
Qed.

(** [dirs_lookup] inverts [dirs]. *)
Lemma dirs_lookup_some P j : dirs_lookup self !! P = Some j -> dirs self !! j = Some P.
Proof.
  unfold dirs_lookup, enumerate. intros H.
  apply lookup_fold_index in H as [(k & -> & Hk)|H]; [exact Hk|].
  by rewrite lookup_empty in H.
Qed.

Lemma dirs_lookup_elem P : P ∈ dirs self -> is_Some (dirs_lookup self !! P).
Proof. unfold dirs_lookup, enumerate. apply lookup_fold_index_elem. Qed.

Lemma dirs_lookup_none P : P ∉ dirs self -> dirs_lookup self !! P = None.
Proof.
  unfold dirs_lookup, enumerate. intros H.
  by rewrite (proj2 (lookup_fold_index_elem _ 0 ∅ P) H), lookup_empty.
Qed.

(** The first statements of an iteration of the outer loop. *)
Lemma run_phases_starts visits fuel n directory subplugins i :
  dirs self !! n = Some directory ->
  plugins self !! directory = Some subplugins ->
  exists rest,
    trace_of (run_phases self (S visits) fuel n i)
    = EPhase directory
      :: trace_of (run_phase self fuel directory subplugins []
                     (<["_current_phase" := Atom (AStr directory)]> i)) ++ rest.
Proof.
  intros Hd Hsub. simpl. rewrite Hd.
  destruct (bind_trace_prefix (visit_phase self fuel n directory)
              (fun next => run_phases self visits fuel next) i) as [rest1 ->].
  rewrite (visit_phase_eq self _ _ _ _ _ Hsub). cbv zeta.
  match goal with
  | |- context [bind ?m ?f ?j] => destruct (bind_trace_prefix m f j) as [rest2 H2]
  end.
  unfold trace_of at 1. simpl. rewrite H2.
  exists (rest2 ++ rest1). by rewrite <- app_assoc.
Qed.

(** C5, as the code has it: when a phase invocation ends with a phase
    name [P] in [_current_phase] that differs from the phase just
    executed, the invocation returns an index without raising; if [P]
    is in the sorted phase list the index is that of [P], and the next
    iteration announces [P] and runs it from an empty already-run list;
    if [P] is absent the index is the current one plus one. *)
Theorem jump_resolution visits fuel n directory subplugins i i1 ta P :
  plugins self !! directory = Some subplugins ->
  (run_phase self fuel directory subplugins [] ;;; add_reward self)
    (<["_current_phase" := Atom (AStr directory)]> i) = (Done tt, i1, ta) ->
  i1 !! "_current_phase" = Some (Atom (AStr P)) ->
  P <> directory ->
  exists next,
    visit_phase self fuel n directory i = (Done next, i1, EPhase directory :: ta)
    /\ (P ∉ dirs self -> next = S n)
    /\ (P ∈ dirs self ->
          dirs self !! next = Some P
          /\ exists subplugins' rest,
               plugins self !! P = Some subplugins'
               /\ trace_of (run_phases self (S visits) fuel next i1)
                  = EPhase P
                    :: trace_of (run_phase self fuel P subplugins' []
                                   (<["_current_phase" := Atom (AStr P)]> i1)) ++ rest).
Proof.
  intros Hsub Hrun Hcur Hne.
  assert (is_phase (Atom (AStr P)) directory = false) as Hph
    by (simpl; by apply String.eqb_neq).
  assert (forall next, dirs_lookup_get self (Atom (AStr P)) (S n) i1 = (Done next, i1, []) ->
            visit_phase self fuel n directory i = (Done next, i1, EPhase directory :: ta)) as Hvisit.
  { intros next Hget. rewrite (visit_phase_eq self _ _ _ _ _ Hsub). cbv zeta.
    rewrite <- bind_assoc. rewrite (bind_done _ _ _ _ _ _ Hrun).
    rewrite (bind_done _ _ i1 (Atom (AStr P)) i1 []) by (unfold getitem; by rewrite Hcur).
    rewrite Hph, Hget. unfold result_of, issue_of, trace_of. simpl.
    by rewrite app_nil_r. }
  destruct (base.decide (P ∈ dirs self)) as [Hin|Hnin].
  - destruct (dirs_lookup_elem P Hin) as [j Hj]. exists j.
    split; [|split; [done|]].
    + apply Hvisit. simpl. by rewrite Hj.
    + intros _. pose proof (dirs_lookup_some P j Hj) as Hdj. split; [exact Hdj|].
      destruct (proj1 (dirs_spec P) Hin) as [sub' Hsub'].
      destruct (run_phases_starts visits fuel j P sub' i1 Hdj Hsub') as [rest Hrest].
      eauto.
  - exists (S n). split; [|split; [done|done]].
    apply Hvisit. simpl. by rewrite (dirs_lookup_none P Hnin).
Qed.

End Jump.

(** The clean-up phase is left for the report phase, which is in the list. *)
Lemma jump_resolution_witness :
  exists next,
    visit_phase cleanup 2 0 "30-cleanup-parallel" fresh_issue
    = (Done next,
       issue_in "90-report" 1,
       [EPhase "30-cleanup-parallel"; ETesting;
        ETest 3 (Returns (Atom (AStr "ticket")));
        ETest 4 (Returns (VList [AStr "tmp"; AStr "log"]));
        EProcess 3 (AStr "ticket") (Returns tt); EProcess 4 (AStr "tmp") (Returns tt);
        EProcess 4 (AStr "log") (Returns tt)])
    /\ dirs cleanup !! next = Some "90-report".
Proof.
  destruct (jump_resolution cleanup 0 2 0 "30-cleanup-parallel" [escalate; purge_cache]
              fresh_issue (issue_in "90-report" 1)
              [ETesting;
               ETest 3 (Returns (Atom (AStr "ticket")));
               ETest 4 (Returns (VList [AStr "tmp"; AStr "log"]));
               EProcess 3 (AStr "ticket") (Returns tt); EProcess 4 (AStr "tmp") (Returns tt);
               EProcess 4 (AStr "log") (Returns tt)]
              "90-report" eq_refl)
    as (next & Hv & _ & Hin).
  - reflexivity.
  - reflexivity.
  - discriminate.
  - exists next. split; [exact Hv|]. apply Hin. apply dirs_spec. by eexists.
Defined.

(** C5 fails as worded: a plugin that writes the name of the phase it
    runs in is not seen as a jump; the loop index moves past that phase
    instead of staying on it. *)
Lemma same_phase_write_is_no_jump :
  ~ written_phase_is_next detect 2 0 "10-detect" fresh_issue "10-detect".
Proof.
  intros H.
  assert (dirs detect !! 1 = Some "10-detect") as Habs; [|vm_compute in Habs; discriminate].
  eapply (H [recheck] recheck).
  6: reflexivity.
  - reflexivity.
  - apply elem_of_cons. by left.
  - intros j c. simpl. apply lookup_insert_eq.
  - exists (AStr "disk"). apply elem_of_cons. left. reflexivity.
  - apply dirs_spec. by eexists.
Qed.

(** ** Reward accounting *)

Section Reward.

Variable self : Processor.

Lemma phases_of_app t1 t2 : phases_of (t1 ++ t2) = phases_of t1 ++ phases_of t2.
Proof. unfold phases_of. apply flat_map_app. Qed.

Lemma neutral_bind {A B} (Q : A -> Prop) (m : M A) (f : A -> M B) :
  reward_neutral m -> returns Q m -> (forall a, Q a -> reward_neutral (f a)) ->
  reward_neutral (bind m f).
Proof.
  intros Hm HQ Hf i. destruct (Hm i) as [Hi Ht]. unfold bind.
  destruct (m i) as [[[a| |] i1] t1] eqn:E; auto.
  destruct (Hf a (HQ _ _ _ _ E) i1) as [Hi2 Ht2].
  destruct (f a i1) as [[r i2] t2]. unfold issue_of, trace_of in *. simpl in *.
  split; [congruence|]. by rewrite phases_of_app, Ht, Ht2.
Qed.

Lemma neutral_bind' {A B} (m : M A) (f : A -> M B) :
  reward_neutral m -> (forall a, reward_neutral (f a)) -> reward_neutral (bind m f).
Proof.
  intros Hm Hf. apply (neutral_bind (fun _ => True)); auto. by intros ????.
Qed.

Lemma neutral_ret {A} (a : A) : reward_neutral (ret a).
Proof. by intros i. Qed.

Lemma neutral_raise {A} e : reward_neutral (@raise A e).
Proof. by intros i. Qed.

Lemma neutral_out_of_fuel {A} : reward_neutral (@out_of_fuel A).
Proof. by intros i. Qed.

Lemma neutral_emit e : (forall d, e <> EPhase d) -> reward_neutral (emit e).
Proof. intros H i. split; [reflexivity|]. destruct e; try reflexivity. by destruct (H directory). Qed.

Lemma neutral_getitem key : reward_neutral (getitem key).
Proof. intros i. unfold getitem. by destruct (i !! key). Qed.

Lemma neutral_test_plugin p : plugin_keeps_reward p -> reward_neutral (test_plugin p).
Proof.
  intros Hp i. destruct (Hp i) as [Ht _]. unfold test_plugin.
  destruct (test p i) as [i' [v|]]; [done|]. by destruct (description p).
Qed.

Lemma neutral_execute p c :
  plugin_keeps_reward p -> reward_neutral (execute_plugin_with_context p c).
Proof.
  intros Hp i. destruct (Hp i) as [_ Hc]. specialize (Hc c).
  unfold execute_plugin_with_context. destruct (description p); [|done].
  by destruct (process p i c) as [i' o].
Qed.

Lemma neutral_test_each ps : Forall plugin_keeps_reward ps ->
  forall acc, reward_neutral (test_each ps acc).
Proof.
  induction 1 as [|p ps Hp Hps IH]; intros acc; simpl.
  - apply neutral_ret.
  - apply neutral_bind'; [by apply neutral_test_plugin|]. intros a. apply IH.
Qed.

Lemma neutral_test_plugins_on_value ps :
  Forall plugin_keeps_reward ps -> reward_neutral (test_plugins_on_value ps).
Proof.
  intros H. apply neutral_bind'; [by apply neutral_emit|].
  intros _. by apply neutral_test_each.
Qed.

Lemma decide_on_plugin_chooses (possible : list candidate) :
  returns (fun p => p ∈ possible) (decide_on_plugin self possible).
Proof.
  intros i p i1 t1 H. unfold decide_on_plugin in H.
  destruct possible as [|first others]; [discriminate|].
  destruct (ds self) as [d|].
  - unfold bind, call_decide in H.
    destruct (decide d i (map label (first :: others))) as [i2 [decision|]]; [|discriminate].
    destruct (resolve_cases decision (first :: others) i2)
      as [(chosen & Hr & Hin & _)|(e & _ & Hr & _)]; rewrite Hr in H;
      inversion H; by subst.
  - unfold ret in H. inversion H; subst. apply elem_of_cons. by left.
Qed.

Lemma neutral_resolve decision (possible : list candidate) :
  reward_neutral (resolve decision possible).
Proof.
  intros i. by destruct (resolve_cases decision possible i)
    as [(chosen & -> & _)|(e & _ & -> & _)].
Qed.

Lemma neutral_decide_on_plugin (possible : list candidate) :
  (forall d, ds self = Some d -> service_keeps_reward d) ->
  reward_neutral (decide_on_plugin self possible).
Proof.
  intros Hds. unfold decide_on_plugin.
  destruct possible as [|first others]; [apply neutral_raise|].
  destruct (ds self) as [d|]; [|apply neutral_ret].
  apply neutral_bind'; [|intros; apply neutral_resolve].
  intros i. specialize (Hds d eq_refl i (map label (first :: others))).
  unfold call_decide. by destruct (decide d i _) as [i2 [decision|]].
Qed.

Lemma neutral_execute_each possible : forall any_executed,
  (forall c, c ∈ possible -> plugin_keeps_reward (fst c)) ->
  reward_neutral (execute_each possible any_executed).
Proof.
  induction possible as [|c cs IH]; intros any_executed H; simpl.
  - apply neutral_ret.
  - apply neutral_bind'.
    + apply neutral_execute, H, elem_of_cons. by left.
    + intros _. apply IH. intros c' Hc'. apply H, elem_of_cons. by right.
Qed.

Lemma neutral_end_of_round next directory n any_executed :
  (forall l, reward_neutral (next l)) ->
  reward_neutral (end_of_round next directory n any_executed).
Proof.
  intros Hnext. apply neutral_bind'; [apply neutral_getitem|]. intros v.
  destruct (negb _); [apply neutral_ret|].
  destruct (Nat.eqb _ _); [apply neutral_ret|apply Hnext].
Qed.

(** A phase invocation leaves the reward as it found it. *)
Lemma neutral_run_phase fuel directory subplugins :
  Forall plugin_keeps_reward subplugins ->
  (forall d, ds self = Some d -> service_keeps_reward d) ->
  forall any_executed, reward_neutral (run_phase self fuel directory subplugins any_executed).
Proof.
  intros Hps Hds. rewrite Forall_forall in Hps.
  induction fuel as [|fuel IH]; intros any_executed; simpl.
  - apply neutral_out_of_fuel.
  - unfold round.
    apply (neutral_bind _ _ _ (neutral_test_plugins_on_value _ (proj2 (Forall_forall _ _) Hps))
             (tested_plugins subplugins)).
    intros tested Htested. cbv beta.
    assert (forall c, c ∈ remove_executed any_executed tested ->
                      plugin_keeps_reward (fst c)) as Hposs.
    { intros c Hc. apply Hps, Htested. by eapply remove_executed_subset. }
    destruct (Nat.ltb _ 1); [by apply neutral_emit|].
    destruct (endswith directory "-parallel").
    { apply neutral_bind'; [by apply neutral_execute_each|].
      intros l. by apply neutral_end_of_round. }
    destruct (endswith directory "-alternative").
    { apply (neutral_bind _ _ _ (neutral_decide_on_plugin _ Hds)
               (decide_on_plugin_chooses _)).
      intros p Hp. by apply neutral_execute, Hposs. }
    destruct (last _) as [p|] eqn:El; [|apply neutral_raise].
    apply neutral_bind'.
    + apply neutral_execute, Hposs. apply last_Some in El as [l' ->].
      apply elem_of_app. right. apply elem_of_cons. by left.
    + intros _. by apply neutral_end_of_round.
Qed.

Lemma neutral_dirs_lookup_get v default : reward_neutral (dirs_lookup_get self v default).
Proof.
  unfold dirs_lookup_get. destruct v as [[| | |s]|]; try apply neutral_ret; try apply neutral_raise.
  destruct (dirs_lookup self !! s); apply neutral_ret.
Qed.

(** One phase invocation that returns has announced its phase once and
    added [auto_reward] once. *)
Lemma visit_phase_reward fuel n directory i next i1 t1 r :
  reward_is_engine_owned self ->
  visit_phase self fuel n directory i = (Done next, i1, t1) ->
  i !! "_reward" = Some (Atom (AInt r)) ->
  i1 !! "_reward" = Some (Atom (AInt (r + auto_reward self)))
  /\ phases_of t1 = [directory].
Proof.
  intros [Hps Hds] Hv Hr.
  destruct (plugins self !! directory) as [subplugins|] eqn:Hsub.
  2: { unfold visit_phase in Hv. rewrite Hsub in Hv. discriminate. }
  rewrite (visit_phase_eq self _ _ _ _ _ Hsub) in Hv. cbv zeta in Hv.
  set (i0 := <["_current_phase" := Atom (AStr directory)]> i) in *.
  assert (i0 !! "_reward" = Some (Atom (AInt r))) as Hr0
    by (unfold i0; by rewrite lookup_insert_ne).
  destruct (neutral_run_phase fuel directory subplugins (Hps _ _ Hsub) Hds [] i0) as [Hki Hkt].
  destruct (run_phase self fuel directory subplugins [] i0) as [[[[]| |] ia] ta] eqn:Hrun.
  2: { rewrite (bind_raised _ _ _ _ _ _ Hrun) in Hv. discriminate. }
  2: { rewrite (bind_out_of_fuel _ _ _ _ _ Hrun) in Hv. discriminate. }
  rewrite (bind_done _ _ _ _ _ _ Hrun) in Hv.
  unfold issue_of, trace_of in Hki, Hkt. simpl in Hki, Hkt.
  assert (add_reward self ia
          = (Done tt, <["_reward" := Atom (AInt (r + auto_reward self))]> ia, [])) as Hadd.
  { unfold add_reward.
    rewrite (bind_done _ _ ia (Atom (AInt r)) ia [])
      by (unfold getitem; by rewrite Hki, Hr0).
    reflexivity. }
  rewrite (bind_done _ _ _ _ _ _ Hadd) in Hv.
  set (ib := <["_reward" := Atom (AInt (r + auto_reward self))]> ia) in *.
  match type of Hv with
  | context [result_of (bind ?m ?f ib)] =>
      assert (reward_neutral (bind m f)) as Hn
  end.
  { apply neutral_bind'; [apply neutral_getitem|]. intros v.
    destruct (is_phase v directory); [apply neutral_ret|apply neutral_dirs_lookup_get]. }
  destruct (Hn ib) as [Hni Hnt].
  unfold result_of, issue_of, trace_of in *. simpl in *.
  inversion Hv; subst. split.
  - rewrite Hni. unfold ib. apply lookup_insert_eq.
  - simpl. by rewrite !phases_of_app, Hkt, Hnt.
Qed.

Lemma first_visits_reward fuel k : forall n i r nk ik tk,
  reward_is_engine_owned self ->
  i !! "_reward" = Some (Atom (AInt r)) ->
  first_visits self k fuel n i = (Done nk, ik, tk) ->
  ik !! "_reward"
  = Some (Atom (AInt (r + auto_reward self * Z.of_nat (length (phases_of tk))))).
Proof.
  induction k as [|k IH]; intros n i r nk ik tk Hown Hr H; simpl in H.
  - unfold ret in H. inversion H; subst. simpl. rewrite Hr. do 3 f_equal. lia.
  - destruct (dirs self !! n) as [directory|].
    2: { unfold ret in H. inversion H; subst. simpl. rewrite Hr. do 3 f_equal. lia. }
    destruct (visit_phase self fuel n directory i) as [[[next| |] i1] t1] eqn:Hv.
    2: { rewrite (bind_raised _ _ _ _ _ _ Hv) in H. discriminate. }
    2: { rewrite (bind_out_of_fuel _ _ _ _ _ Hv) in H. discriminate. }
    rewrite (bind_done _ _ _ _ _ _ Hv) in H.
    destruct (visit_phase_reward _ _ _ _ _ _ _ _ Hown Hv Hr) as [Hr1 Hp1].
    destruct (first_visits self k fuel next i1) as [[r2 i2] t2] eqn:Hf.
    unfold result_of, issue_of, trace_of in H. simpl in H. inversion H; subst.
    rewrite (IH _ _ _ _ _ _ Hown Hr1 Hf), phases_of_app, Hp1. simpl.
    do 3 f_equal. lia.
Qed.

Lemma run_phases_reward fuel visits : forall n i r i' t,
  reward_is_engine_owned self ->
  i !! "_reward" = Some (Atom (AInt r)) ->
  run_phases self visits fuel n i = (Done tt, i', t) ->
  i' !! "_reward"
  = Some (Atom (AInt (r + auto_reward self * Z.of_nat (length (phases_of t))))).
Proof.
  induction visits as [|visits IH]; intros n i r i' t Hown Hr H; simpl in H;
    destruct (dirs self !! n) as [directory|];
    try (unfold ret in H; inversion H; subst; simpl; rewrite Hr; do 3 f_equal; lia);
    try discriminate.
  destruct (visit_phase self fuel n directory i) as [[[next| |] i1] t1] eqn:Hv.
  2: { rewrite (bind_raised _ _ _ _ _ _ Hv) in H. discriminate. }
  2: { rewrite (bind_out_of_fuel _ _ _ _ _ Hv) in H. discriminate. }
  rewrite (bind_done _ _ _ _ _ _ Hv) in H.
  destruct (visit_phase_reward _ _ _ _ _ _ _ _ Hown Hv Hr) as [Hr1 Hp1].
  destruct (run_phases self visits fuel next i1) as [[r2 i2] t2] eqn:Hf.
  unfold result_of, issue_of, trace_of in H. simpl in H. inversion H; subst.
  rewrite (IH _ _ _ _ _ Hown Hr1 Hf), phases_of_app, Hp1. simpl.
  do 3 f_equal. lia.
Qed.

(** C4, as the code has it: provided no plugin and no decision service
    writes [_reward], the pass sets it to 0 before the first phase; every
    phase invocation that returns adds [auto_reward] to it exactly once,
    however many plugins ran in it (also none); so after any number of
    invocations, and at the end of a pass that returns, it is
    [auto_reward] times the number of phases visited.  It is
    non-decreasing when [auto_reward] is not negative. *)
Theorem reward_accounting :
  reward_is_engine_owned self ->
  (forall fuel n directory i next i1 t1 r,
     visit_phase self fuel n directory i = (Done next, i1, t1) ->
     i !! "_reward" = Some (Atom (AInt r)) ->
     i1 !! "_reward" = Some (Atom (AInt (r + auto_reward self)))
     /\ (0 <= auto_reward self -> r <= r + auto_reward self)%Z)
  /\ (forall k fuel i nk ik tk,
        first_visits self k fuel 0 (<["_reward" := Atom (AInt 0)]> i) = (Done nk, ik, tk) ->
        ik !! "_reward"
        = Some (Atom (AInt (auto_reward self * Z.of_nat (length (phases_of tk))))))
  /\ (forall visits fuel i i' t,
        apply_all_plugins_on_value self visits fuel i = (Done tt, i', t) ->
        i' !! "_reward"
        = Some (Atom (AInt (auto_reward self * Z.of_nat (length (phases_of t)))))).
Proof.
  intros Hown. split; [|split].
  - intros fuel n directory i next i1 t1 r Hv Hr.
    destruct (visit_phase_reward _ _ _ _ _ _ _ _ Hown Hv Hr) as [H _].
    split; [exact H|lia].
  - intros k fuel i nk ik tk H.
    by rewrite (first_visits_reward fuel k _ _ 0%Z _ _ _ Hown (lookup_insert_eq _ _ _) H).
  - intros visits fuel i i' t H. unfold apply_all_plugins_on_value in H.
    rewrite (bind_done _ _ i tt (<["_reward" := Atom (AInt 0)]> i) []) in H by reflexivity.
    destruct (run_phases self visits fuel 0 (<["_reward" := Atom (AInt 0)]> i))
      as [[r2 i2] t2] eqn:Hf.
    unfold result_of, issue_of, trace_of in H. simpl in H. inversion H; subst.
    by rewrite (run_phases_reward fuel visits _ _ 0%Z _ _ Hown (lookup_insert_eq _ _ _) Hf).
Qed.

End Reward.

Lemma remediate_owns_reward : reward_is_engine_owned (remediate None).
Proof.
  split.
  - apply map_Forall_singleton. repeat constructor.
  - intros d H. discriminate.
Qed.

(** One phase visited, one increment. *)
Lemma reward_accounting_witness :
  issue_of (apply_all_plugins_on_value (remediate None) 2 2 ∅) !! "_reward"
  = Some (Atom (AInt 1)).
Proof.
  exact (proj2 (proj2 (reward_accounting (remediate None) remediate_owns_reward))
           2 2 ∅
           (issue_of (apply_all_plugins_on_value (remediate None) 2 2 ∅))
           (trace_of (apply_all_plugins_on_value (remediate None) 2 2 ∅))
           eq_refl).
Defined.

(** C4 fails as worded: [auto_reward] is whatever the processor was
    built with; with a negative one the reward goes down at each phase. *)
Lemma negative_increment_lowers_reward : ~ reward_never_decreases costly 1 2 ∅.
Proof.
  intros H. specialize (H (-1)%Z eq_refl). lia.
Qed.

(** ** The already-run list *)

Lemma py_eqb_norm a b : py_eqb a b = true <-> norm_atom a = norm_atom b.
Proof.
  destruct a as [|ba|x|s], b as [|bb|y|t]; unfold py_eqb, norm_atom; simpl;
    rewrite ?Z.eqb_eq, ?String.eqb_eq;
    split; intros H; try discriminate; try congruence; try reflexivity.
Qed.

Lemma candidate_eqb_pair a b : candidate_eqb a b = true <-> pair_of a = pair_of b.
Proof.
  unfold candidate_eqb, pair_of.
  rewrite andb_true_iff, Nat.eqb_eq, py_eqb_norm. split.
  - intros [-> ->]. reflexivity.
  - intros H. inversion H. auto.
Qed.

Lemma candidate_eqb_refl (c : candidate) : candidate_eqb c c = true.
Proof. by apply candidate_eqb_pair. Qed.

Lemma pairs_elem (c : candidate) l : c ∈ l -> pair_of c ∈ map pair_of l.
Proof. intros H. apply list_elem_of_fmap. eauto. Qed.

Lemma list_remove_fresh a (l : list candidate) :
  NoDup (map pair_of l) ->
  NoDup (map pair_of (list_remove a l))
  /\ forall c, c ∈ list_remove a l -> pair_of c <> pair_of a /\ c ∈ l.
Proof.
  induction l as [|x l IH]; simpl; intros Hnd.
  - split; [constructor|]. intros c Hc. by apply elem_of_nil in Hc.
  - apply NoDup_cons in Hnd as [Hx Hnd]. destruct (IH Hnd) as [IH1 IH2].
    destruct (candidate_eqb x a) eqn:E.
    + apply candidate_eqb_pair in E. split; [exact Hnd|].
      intros c Hc. split; [|apply elem_of_cons; by right].
      intros Heq. apply Hx. rewrite E, <- Heq. by apply pairs_elem.
    + split.
      * simpl. apply NoDup_cons. split; [|exact IH1].
        intros Hin. apply Hx. apply list_elem_of_fmap in Hin as (c & Hc & Hin).
        rewrite Hc. apply pairs_elem. by apply IH2.
      * intros c Hc. apply elem_of_cons in Hc as [->|Hc].
        -- split; [|apply elem_of_cons; by left].
           intros Heq. apply candidate_eqb_pair in Heq. congruence.
        -- destruct (IH2 c Hc). split; [done|]. apply elem_of_cons. by right.
Qed.

Lemma list_contains_false a (l : list candidate) c :
  list_contains a l = false -> c ∈ l -> pair_of c <> pair_of a.
Proof.
  unfold list_contains. intros H Hc Heq. apply candidate_eqb_pair in Heq.
  apply list_elem_of_In in Hc.
  assert (existsb (fun x => candidate_eqb x a) l = true) as Ht
    by (apply existsb_exists; eauto).
  congruence.
Qed.

(** After the executed pairs are taken out of a duplicate-free candidate
    list, none of what is left has been executed. *)
Lemma remove_executed_fresh any_executed : forall possible,
  NoDup (map pair_of possible) ->
  forall c, c ∈ remove_executed any_executed possible ->
    (pair_of c ∉ map pair_of any_executed) /\ c ∈ possible.
Proof.
  unfold remove_executed.
  induction any_executed as [|a l IH]; intros possible Hnd c Hc; simpl in *.
  - split; [apply not_elem_of_nil|done].
  - destruct (list_contains a possible) eqn:E.
    + destruct (list_remove_fresh a possible Hnd) as [Hnd' Hfresh].
      destruct (IH _ Hnd' c Hc) as [Hl Hin]. destruct (Hfresh c Hin) as [Hne Hp].
      split; [|done]. apply not_elem_of_cons. split; done.
    + destruct (IH _ Hnd c Hc) as [Hl Hin].
      split; [|done]. apply not_elem_of_cons. split; [|done].
      by eapply list_contains_false.
Qed.

(** ** Exceptions of plugins *)

Section Exceptions.

Variable self : Processor.


































End Exceptions.



(** ** Termination of the default policy *)

Section Termination.

Variable self : Processor.

Lemma matched_pairs_app t1 t2 : matched_pairs (t1 ++ t2) = matched_pairs t1 ++ matched_pairs t2.
Proof. unfold matched_pairs. apply flat_map_app. Qed.

Lemma executed_pairs_app t1 t2 :
  executed_pairs (t1 ++ t2) = executed_pairs t1 ++ executed_pairs t2.
Proof. unfold executed_pairs. by rewrite process_calls_app, map_app. Qed.

Lemma rounds_of_app t1 t2 : rounds_of (t1 ++ t2) = rounds_of t1 + rounds_of t2.
Proof. unfold rounds_of. by rewrite flat_map_app, length_app. Qed.

Lemma test_plugin_pairs p i found i' t :
  test_plugin p i = (Done found, i', t) ->
  matched_pairs t = map pair_of found /\ rounds_of t = 0.
Proof.
  unfold test_plugin. destruct (test p i) as [j [v|]]; intros H.
  - inversion H; subst. split; [|reflexivity].
    unfold matched_pairs. simpl. rewrite app_nil_r, map_map. reflexivity.
  - destruct (description p); inversion H; subst. split; reflexivity.
Qed.

Lemma test_each_pairs ps : forall i found i' t,
  test_each ps [] i = (Done found, i', t) ->
  matched_pairs t = map pair_of found /\ rounds_of t = 0.
Proof.
  induction ps as [|p ps IH]; intros i found i' t H; simpl in H.
  - unfold ret in H. inversion H; subst. split; reflexivity.
  - unfold bind in H. destruct (test_plugin p i) as [[[fp| |] ip] tp] eqn:Hp; try discriminate.
    simpl in H. destruct (test_each ps fp ip) as [[r j] u] eqn:E. inversion H; subst.
    destruct (test_plugin_pairs _ _ _ _ _ Hp) as [Hm Hr].
    destruct (test_each_from_nil _ _ _ _ _ _ E) as (f3 & -> & E3).
    destruct (IH _ _ _ _ E3) as [Hm3 Hr3].
    rewrite matched_pairs_app, rounds_of_app, Hm, Hm3, Hr, Hr3, map_app. auto.
Qed.

Lemma test_each_rounds ps : forall acc i, rounds_of (trace_of (test_each ps acc i)) = 0.
Proof.
  induction ps as [|p ps IH]; intros acc i; simpl; [reflexivity|].
  destruct (test_plugin_trace p i) as [o Ho]. unfold bind.
  destruct (test_plugin p i) as [[[found| |] i1] t1]; simpl in Ho; subst; try reflexivity.
  specialize (IH (acc ++ found) i1).
  destruct (test_each ps (acc ++ found) i1) as [[r i2] t2]. exact IH.
Qed.

(** Building the candidates is one round, whether or not it succeeds. *)
Lemma tests_one_round ps i : rounds_of (trace_of (test_plugins_on_value ps i)) = 1.
Proof.
  unfold test_plugins_on_value. rewrite (bind_done _ _ i tt i [ETesting]) by reflexivity.
  unfold trace_of at 1. simpl snd.
  change (ETesting :: ?t) with ([ETesting] ++ t).
  by rewrite rounds_of_app, test_each_rounds.
Qed.

(** Building the candidates is one round, and the candidates are the
    pairs that matched in it. *)
Lemma tested_pairs ps i tested i1 t1 :
  test_plugins_on_value ps i = (Done tested, i1, t1) ->
  matched_pairs t1 = map pair_of tested /\ rounds_of t1 = 1.
Proof.
  intros H. unfold test_plugins_on_value in H.
  rewrite (bind_done _ _ i tt i [ETesting]) in H by reflexivity.
  destruct (test_each ps [] i) as [[r j] u] eqn:E.
  unfold result_of, issue_of, trace_of in H. simpl in H. inversion H; subst.
  destruct (test_each_pairs _ _ _ _ _ E) as [Hm Hr].
  change (ETesting :: u) with ([ETesting] ++ u).
  rewrite matched_pairs_app, rounds_of_app, Hm, Hr. auto.
Qed.

(** A round that finds no candidate ends the phase. *)
Lemma round_without_candidates fuel directory subplugins any_executed i tested i1 t1 :
  test_plugins_on_value subplugins i = (Done tested, i1, t1) ->
  remove_executed any_executed tested = [] ->
  run_phase self (S fuel) directory subplugins any_executed i
  = (Done tt, i1, t1 ++ [ENoPossible directory]).
Proof.
  intros Ht He. simpl. rewrite (round_after_tests self _ _ _ _ _ _ _ _ Ht).
  cbv zeta. rewrite He. reflexivity.
Qed.

Lemma pairs_bounded (U : list (nat * atom)) (l : list candidate) :
  NoDup (map pair_of l) -> (forall c, c ∈ l -> pair_of c ∈ U) -> length l <= length U.
Proof.
  intros Hnd Hsub. rewrite <- (length_map pair_of l).
  apply submseteq_length, NoDup_submseteq; [exact Hnd|].
  intros q Hq. apply list_elem_of_fmap in Hq as (c & -> & Hc). by apply Hsub.
Qed.

Lemma orderly_nil U (any_executed : list candidate) :
  length any_executed <= length U -> orderly U any_executed [].
Proof.
  intros H. unfold orderly, executed_pairs, rounds_of, process_calls. simpl.
  split; [constructor|]. split; [intros q Hq; by apply elem_of_nil in Hq|].
  repeat split; lia.
Qed.

Lemma orderly_closing U (any_executed : list candidate) ps i tested i1 t1 directory :
  test_plugins_on_value ps i = (Done tested, i1, t1) ->
  length any_executed <= length U ->
  orderly U any_executed (t1 ++ [ENoPossible directory]).
Proof.
  intros Ht Hlen. destruct (tests_make_no_calls _ _ _ _ _ Ht) as [Hc _].
  destruct (tested_pairs _ _ _ _ _ Ht) as [_ Hr].
  unfold orderly, executed_pairs.
  rewrite process_calls_app, rounds_of_app, Hc, Hr.
  unfold rounds_of, process_calls. simpl.
  split; [constructor|]. split; [intros q Hq; by apply elem_of_nil in Hq|].
  repeat split; lia.
Qed.

(** A round that executes nothing is orderly. *)
Lemma orderly_quiet U (any_executed : list candidate) t :
  process_calls t = [] -> rounds_of t = 1 ->
  length any_executed <= length U ->
  orderly U any_executed t.
Proof.
  intros Hc Hr Hlen. unfold orderly, executed_pairs. rewrite Hc, Hr. simpl.
  split; [constructor|]. split; [intros q Hq; by apply elem_of_nil in Hq|].
  repeat split; lia.
Qed.

(** One more round in front of an orderly trace. *)
Lemma orderly_round U (any_executed : list candidate) ps i tested i1 t1 p rest :
  test_plugins_on_value ps i = (Done tested, i1, t1) ->
  pair_of p ∉ map pair_of any_executed ->
  p ∈ tested ->
  orderly U (any_executed ++ [p]) rest ->
  orderly U any_executed (t1 ++ process_events [p] i1 ++ rest).
Proof.
  intros Ht Hfresh Hin (Hnd & Hmem & Hlo & Hhi & Hlen).
  destruct (tests_make_no_calls _ _ _ _ _ Ht) as [Hc _].
  destruct (tested_pairs _ _ _ _ _ Ht) as [Hm Hr].
  assert (executed_pairs (t1 ++ process_events [p] i1 ++ rest)
          = pair_of p :: executed_pairs rest) as He.
  { rewrite !executed_pairs_app. unfold executed_pairs at 1. rewrite Hc. reflexivity. }
  assert (process_calls (t1 ++ process_events [p] i1 ++ rest)
          = call_of p :: process_calls rest) as Hp.
  { rewrite !process_calls_app, Hc. reflexivity. }
  assert (rounds_of (t1 ++ process_events [p] i1 ++ rest) = S (rounds_of rest)) as Hro.
  { rewrite !rounds_of_app, Hr. reflexivity. }
  assert (matched_pairs (t1 ++ process_events [p] i1 ++ rest)
          = map pair_of tested ++ matched_pairs rest) as Hma.
  { rewrite !matched_pairs_app, Hm. reflexivity. }
  unfold orderly. rewrite He, Hp, Hro, Hma.
  rewrite length_app in Hlen. simpl in *.
  split; [|split; [|repeat split; lia]].
  - apply NoDup_cons. split; [|exact Hnd].
    intros Hq. destruct (Hmem _ Hq) as [Hn _]. apply Hn.
    rewrite map_app. apply elem_of_app. right. apply elem_of_cons. by left.
  - intros q Hq. apply elem_of_cons in Hq as [->|Hq].
    + split; [exact Hfresh|]. apply elem_of_app. left. by apply pairs_elem.
    + destruct (Hmem _ Hq) as [Hn Hmq]. split.
      * intros Ha. apply Hn. rewrite map_app. apply elem_of_app. by left.
      * apply elem_of_app. by right.
Qed.

Section Default.

Variables (directory : string) (subplugins : list Plugin) (U : list (nat * atom)).

Hypothesis Hnot_parallel : endswith directory "-parallel" = false.
Hypothesis Hnot_alternative : endswith directory "-alternative" = false.
Hypothesis Htests : forall i tested i1 t1,
  test_plugins_on_value subplugins i = (Done tested, i1, t1) ->
  NoDup (map pair_of tested) /\ forall c, c ∈ tested -> pair_of c ∈ U.

Lemma default_rounds fuel : forall any_executed i,
  NoDup (map pair_of any_executed) ->
  (forall c, c ∈ any_executed -> pair_of c ∈ U) ->
  length U < fuel + length any_executed ->
  result_of (run_phase self fuel directory subplugins any_executed i) <> OutOfFuel
  /\ orderly U any_executed
       (trace_of (run_phase self fuel directory subplugins any_executed i)).
Proof.
  induction fuel as [|fuel IH]; intros any_executed i Hnd Hsub Hfuel.
  { pose proof (pairs_bounded U any_executed Hnd Hsub). simpl in Hfuel. lia. }
  pose proof (pairs_bounded U any_executed Hnd Hsub) as Hlen.
  pose proof (tests_one_round subplugins i) as Hone.
  pose proof (tests_never_out_of_fuel subplugins i) as Hfuelled.
  destruct (test_plugins_on_value subplugins i) as [[[tested| |] i1] t1] eqn:Ht;
    [| |done].
  2: { rewrite (round_tests_raise _ _ _ _ _ _ _ _ _ Ht). split; [discriminate|].
       destruct (tests_make_no_calls _ _ _ _ _ Ht) as [Hc _]. by apply orderly_quiet. }
  destruct (Htests _ _ _ _ Ht) as [Htnd Htsub].
  destruct (remove_executed any_executed tested) as [|c0 cs0] eqn:Hposs.
  { rewrite (round_without_candidates _ _ _ _ _ _ _ _ Ht Hposs).
    split; [discriminate|]. by eapply orderly_closing. }
  assert (remove_executed any_executed tested <> []) as Hne by (by rewrite Hposs).
  destruct (last_nonempty _ Hne) as [p Hl].
  destruct (description (fst p)) as [text|] eqn:Edesc.
  2: { rewrite (round_default_bare _ _ _ _ _ _ _ _ _ _ Hnot_parallel Hnot_alternative Ht Hl Edesc).
       split; [discriminate|].
       destruct (tests_make_no_calls _ _ _ _ _ Ht) as [Hc _]. by apply orderly_quiet. }
  assert (forall c, c ∈ round_batch directory (remove_executed any_executed tested) ->
                    described (fst c)) as Hbatch.
  { unfold round_batch. rewrite Hnot_parallel, Hl. intros c Hc.
    apply elem_of_cons in Hc as [->|Hc]; [|by apply elem_of_nil in Hc].
    unfold described. by rewrite Edesc. }
  pose proof (round_looping_batch self fuel directory subplugins any_executed i tested i1 t1
                (or_intror Hnot_alternative) Ht Hne Hbatch) as Hr.
  cbv zeta in Hr. unfold round_batch in Hr. rewrite Hnot_parallel in Hr.
  rewrite Hl in Hr.
  assert (p ∈ remove_executed any_executed tested) as Hp.
  { apply last_Some in Hl as [l' ->]. apply elem_of_app. right. apply elem_of_cons. by left. }
  destruct (remove_executed_fresh any_executed tested Htnd p Hp) as [Hfresh Hin].
  assert (NoDup (map pair_of (any_executed ++ [p]))) as Hnd'.
  { rewrite map_app. apply NoDup_app. split; [exact Hnd|]. split.
    - intros q Hq Hq'. apply elem_of_cons in Hq' as [->|Hq']; [done|].
      by apply elem_of_nil in Hq'.
    - apply NoDup_singleton. }
  assert (forall c, c ∈ any_executed ++ [p] -> pair_of c ∈ U) as Hsub'.
  { intros c Hc. apply elem_of_app in Hc as [Hc|Hc]; [by apply Hsub|].
    apply elem_of_cons in Hc as [->|Hc]; [by apply Htsub|]. by apply elem_of_nil in Hc. }
  pose proof (pairs_bounded U _ Hnd' Hsub') as Hlen'.
  set (i2 := run_all [p] i1) in *.
  set (x := end_of_round (run_phase self fuel directory subplugins) directory
              (length any_executed) (any_executed ++ [p]) i2) in *.
  assert (result_of x <> OutOfFuel /\ orderly U (any_executed ++ [p]) (trace_of x)) as [Hres Hord].
  { subst x. destruct (i2 !! "_current_phase") as [v|] eqn:Ecur.
    - destruct (is_phase v directory) eqn:Eph.
      + rewrite (end_of_round_stays _ _ _ _ _ v Ecur Eph)
          by (rewrite length_app; simpl; lia).
        apply IH; [exact Hnd'|exact Hsub'|]. rewrite length_app. simpl. lia.
      + rewrite end_of_round_left by (unfold phase_left; by rewrite Ecur, Eph).
        split; [discriminate|by apply orderly_nil].
    - unfold end_of_round.
      rewrite (bind_raised _ _ i2 (KeyError "_current_phase") i2 [])
        by (unfold getitem; by rewrite Ecur).
      split; [discriminate|by apply orderly_nil]. }
  rewrite Hr. split; [exact Hres|].
  unfold trace_of at 1. simpl snd. by eapply orderly_round.
Qed.

End Default.

(** C8, as the code has it: in a default phase whose plugins' answers
    always lie in a finite list [U] of (plugin, context) pairs and never
    name a pair twice, an invocation ends within [|U| + 1] rounds.  Every
    round but possibly the last executes one pair; no pair is executed
    twice and only pairs that matched are executed, so the executing
    rounds are at most as many as the distinct pairs that matched. *)
Theorem default_phase_terminates directory subplugins U fuel i :
  endswith directory "-parallel" = false ->
  endswith directory "-alternative" = false ->
  (forall j tested j1 t1,
     test_plugins_on_value subplugins j = (Done tested, j1, t1) ->
     NoDup (map pair_of tested) /\ forall c, c ∈ tested -> pair_of c ∈ U) ->
  length U < fuel ->
  let x := run_phase self fuel directory subplugins [] i in
  result_of x <> OutOfFuel
  /\ rounds_of (trace_of x) <= S (length U)
  /\ length (process_calls (trace_of x)) <= rounds_of (trace_of x)
  /\ rounds_of (trace_of x) <= S (length (process_calls (trace_of x)))
  /\ NoDup (executed_pairs (trace_of x))
  /\ (forall q, q ∈ executed_pairs (trace_of x) -> q ∈ matched_pairs (trace_of x))
  /\ length (process_calls (trace_of x))
     <= length (remove_dups (matched_pairs (trace_of x))).
Proof.
  intros Hp Ha Htests Hfuel x.
  destruct (default_rounds directory subplugins U Hp Ha Htests fuel [] i)
    as (Hres & Hnd & Hmem & Hlo & Hhi & Hlen).
  { constructor. }
  { intros c Hc. by apply elem_of_nil in Hc. }
  { simpl. lia. }
  fold x in Hres, Hnd, Hmem, Hlo, Hhi, Hlen. simpl in Hlen.
  split; [exact Hres|]. split; [lia|]. split; [exact Hlo|]. split; [exact Hhi|].
  split; [exact Hnd|]. split; [intros q Hq; by apply Hmem|].
  rewrite <- (length_map (fun pc => (fst pc, norm_atom (snd pc)))).
  apply submseteq_length, NoDup_submseteq; [exact Hnd|].
  intros q Hq. apply elem_of_remove_dups. by apply Hmem.
Qed.

End Termination.

Lemma operators_answers_bounded j (tested : list candidate) j1 t1 :
  test_plugins_on_value [restart_db; reboot_host] j = (Done tested, j1, t1) ->
  NoDup (map pair_of tested)
  /\ forall c, c ∈ tested -> pair_of c ∈ [(1, AStr "db"); (2, AStr "host")].
Proof.
  intros H. vm_compute in H. inversion H; subst; clear H. split.
  - apply (bool_decide_unpack _). vm_compute. reflexivity.
  - intros c Hc.
    apply elem_of_cons in Hc as [->|Hc]; [apply elem_of_cons; by left|].
    apply elem_of_cons in Hc as [->|Hc];
      [apply elem_of_cons; right; apply elem_of_cons; by left|].
    by apply elem_of_nil in Hc.
Qed.

(** Two operators that always match: two executing rounds and a closing one. *)
Lemma default_phase_terminates_witness :
  result_of (run_phase (remediate None) 3 "10-detect" [restart_db; reboot_host] []
               (issue_in "10-detect" 0)) <> OutOfFuel
  /\ rounds_of (trace_of (run_phase (remediate None) 3 "10-detect" [restart_db; reboot_host] []
                            (issue_in "10-detect" 0))) <= 3.
Proof.
  destruct (default_phase_terminates (remediate None) "10-detect" [restart_db; reboot_host]
              [(1, AStr "db"); (2, AStr "host")] 3 (issue_in "10-detect" 0)
              eq_refl eq_refl operators_answers_bounded ltac:(simpl; lia))
    as (Hres & Hrounds & _).
  split; [exact Hres|exact Hrounds].
Defined.

(** C8 fails as worded: three pairs match in the first round, the one
    executed handles the issue, and the other two never match again: one
    executing round, two rounds in all, three distinct pairs matched. *)
Lemma fewer_rounds_than_matched_pairs :
  ~ rounds_equal_matched_pairs (remediate None) 5 "10-detect" triage (issue_in "10-detect" 0).
Proof.
  intros [_ [H|H]]; vm_compute in H; discriminate.
Qed.

(** * Further properties of the code *)

(** ** Reading an argument of the issue *)

(** X1: [get_argument] never fails and always hands back a list: the
    empty list for a missing (or deleted) key, the stored list itself,
    or the stored scalar wrapped in a list.  It reads what was last
    written under the key, other keys do not matter, and writing back
    the list it returned does not change what it returns. *)
Theorem get_argument_normalises (i : issue) (k : string) :
  (i !! k = None -> get_argument i k = [])
  /\ get_argument (delete k i) k = []
  /\ (forall l, get_argument (<[k := VList l]> i) k = l)
  /\ (forall a, get_argument (<[k := Atom a]> i) k = [a])
  /\ (forall k' v, k <> k' -> get_argument (<[k := v]> i) k' = get_argument i k')
  /\ get_argument (<[k := VList (get_argument i k)]> i) k = get_argument i k.
Proof.
  unfold get_argument. repeat split.
  - intros ->. reflexivity.
  - by rewrite lookup_delete_eq.
  - intros l. by rewrite lookup_insert_eq.
  - intros a. by rewrite lookup_insert_eq.
  - intros k' v Hne. by rewrite lookup_insert_ne.
  - by rewrite lookup_insert_eq.
Qed.

Lemma get_argument_normalises_witness : get_argument fresh_issue "host" = [].
Proof. exact (proj1 (get_argument_normalises fresh_issue "host") eq_refl). Defined.

(** ** Building the candidates *)

Lemma test_calls_app t1 t2 : test_calls (t1 ++ t2) = test_calls t1 ++ test_calls t2.
Proof. unfold test_calls. apply flat_map_app. Qed.

(** When the builder returns, every plugin has been asked. *)
Lemma test_each_calls ps : forall acc i found i' t,
  test_each ps acc i = (Done found, i', t) ->
  test_calls t = map ident ps /\ length t = length ps.
Proof.
  induction ps as [|p ps IH]; intros acc i found i' t H; simpl in H.
  - unfold ret in H. inversion H; subst. by split.
  - unfold bind in H. destruct (test_plugin_trace p i) as [o Ho].
    destruct (test_plugin p i) as [[[fp| |] ip] tp] eqn:Hp; try discriminate.
    simpl in Ho. subst tp.
    destruct (test_each ps (acc ++ fp) ip) as [[r j] u] eqn:E. inversion H; subst.
    destruct (IH _ _ _ _ _ E) as [Hc Hl]. simpl. by rewrite Hc, Hl.
Qed.

(** Whatever happens, the plugins asked are a front part of the list,
    and the builder returns or ends with [AttributeError]. *)
Lemma test_each_prefix ps : forall acc i,
  ((exists found, result_of (test_each ps acc i) = Done found)
   \/ result_of (test_each ps acc i) = Raised AttributeError)
  /\ exists rest, map ident ps = test_calls (trace_of (test_each ps acc i)) ++ rest.
Proof.
  induction ps as [|p ps IH]; intros acc i; simpl.
  - split; [left; by eexists|by exists []].
  - unfold bind. destruct (test_plugin_trace p i) as [o Ho].
    destruct (test_plugin p i) as [[[fp| |] ip] tp] eqn:Hp; simpl in Ho; subst tp.
    + destruct (IH (acc ++ fp) ip) as [Hres [rest Hrest]].
      destruct (test_each ps (acc ++ fp) ip) as [[r j] u].
      unfold result_of, trace_of in *. simpl in *. split; [exact Hres|].
      exists rest. by rewrite Hrest.
    + unfold result_of, trace_of. simpl. split; [|by exists (map ident ps)].
      right. unfold test_plugin in Hp. destruct (test p i) as [j [v|]]; [discriminate|].
      destruct (description p); inversion Hp; by subst.
    + unfold test_plugin in Hp. destruct (test p i) as [j [v|]]; [discriminate|].
      destruct (description p); discriminate.
Qed.

Lemma test_each_app ps1 ps2 : forall acc i,
  test_each (ps1 ++ ps2) acc i = (r <- test_each ps1 acc ;; test_each ps2 r) i.
Proof.
  induction ps1 as [|p ps IH]; intros acc i; simpl.
  - by rewrite bind_ret_l.
  - rewrite bind_assoc. apply bind_ext. intros a k. apply IH.
Qed.

(** X2: one call of [test_plugins_on_value] asks the plugins of the list
    in list order, each at most once, and calls nothing else.  When the
    plugins carry a description it asks every one of them exactly once,
    whether or not some of them raise, and returns a list.  When the
    [test] of a plugin without a description raises, the call ends
    there with [AttributeError]: the plugins after it are not asked.
    These are its only two results. *)
Theorem every_plugin_is_tested_once (ps : list Plugin) (i : issue) :
  (Forall described ps ->
     exists tested i1 t1,
       test_plugins_on_value ps i = (Done tested, i1, t1)
       /\ test_calls t1 = map ident ps
       /\ length t1 = S (length ps)
       /\ process_calls t1 = []
       /\ decide_calls t1 = [])
  /\ (forall before p after tested ib tb ip,
        ps = before ++ p :: after ->
        test_plugins_on_value before i = (Done tested, ib, tb) ->
        test p ib = (ip, Raises) ->
        description p = None ->
        test_plugins_on_value ps i
        = (Raised AttributeError, ip, tb ++ [ETest (ident p) Raises])
        /\ test_calls (tb ++ [ETest (ident p) Raises]) = map ident (before ++ [p]))
  /\ (let x := test_plugins_on_value ps i in
      ((exists tested, result_of x = Done tested) \/ result_of x = Raised AttributeError)
      /\ (exists rest, map ident ps = test_calls (trace_of x) ++ rest)
      /\ process_calls (trace_of x) = []
      /\ decide_calls (trace_of x) = []).
Proof.
  assert (forall qs j, test_plugins_on_value qs j
            = (result_of (test_each qs [] j), issue_of (test_each qs [] j),
               ETesting :: trace_of (test_each qs [] j))) as Hwrap.
  { intros qs j. unfold test_plugins_on_value.
    by rewrite (bind_done _ _ j tt j [ETesting]) by reflexivity. }
  split; [|split].
  - intros Hps.
    destruct (test_plugins_on_value_done ps i Hps) as (tested & i1 & t1 & Ht & Hc & Hd).
    exists tested, i1, t1. split; [exact Ht|].
    rewrite Hwrap in Ht. destruct (test_each ps [] i) as [[r j] u] eqn:E.
    unfold result_of, issue_of, trace_of in Ht. simpl in Ht. inversion Ht; subst.
    destruct (test_each_calls _ _ _ _ _ _ E) as [Hcalls Hlen].
    simpl. rewrite Hlen. auto.
  - intros before p after tested ib tb ip -> Hb Hp Hdesc.
    rewrite Hwrap in Hb. destruct (test_each before [] i) as [[r j] u] eqn:E.
    unfold result_of, issue_of, trace_of in Hb. simpl in Hb. inversion Hb; subst.
    destruct (test_each_calls _ _ _ _ _ _ E) as [Hcalls _].
    split.
    + rewrite Hwrap, test_each_app, (bind_done _ _ _ _ _ _ E). simpl.
      assert (test_plugin p ib = (Raised AttributeError, ip, [ETest (ident p) Raises])) as Htp
        by (unfold test_plugin; by rewrite Hp, Hdesc).
      by rewrite (bind_raised _ _ _ _ _ _ Htp).
    + change (ETesting :: u) with ([ETesting] ++ u).
      rewrite !test_calls_app, Hcalls, map_app. reflexivity.
  - cbv zeta. rewrite Hwrap. unfold result_of at 1 3, trace_of at 1 3 5. simpl.
    destruct (test_each_prefix ps [] i) as [Hres Hpre].
    destruct (test_each_no_calls ps [] i) as [Hc Hd].
    repeat split; auto.
Qed.

(** The second plugin is not asked when the first, which has no
    description, raises. *)
Lemma every_plugin_is_tested_once_witness :
  test_plugins_on_value [bare (unimplemented 12 "Detect"); restart_db] fresh_issue
  = (Raised AttributeError, fresh_issue, [ETesting; ETest 12 Raises]).
Proof.
  exact (proj1 (proj1 (proj2 (every_plugin_is_tested_once
                                [bare (unimplemented 12 "Detect"); restart_db] fresh_issue))
           [] (bare (unimplemented 12 "Detect")) [restart_db] [] fresh_issue [ETesting]
           fresh_issue eq_refl eq_refl eq_refl eq_refl)).
Defined.

(** X3: candidates are built plugin by plugin: for plugins that carry a
    description, over [ps1 ++ ps2] the result is what [ps1] yields
    followed by what [ps2] yields on the issue [ps1]'s tests left
    behind; the order of the plugins is the order of their candidates. *)
Theorem candidates_follow_plugin_order (ps1 ps2 : list Plugin) (i : issue) :
  Forall described (ps1 ++ ps2) ->
  exists c1 i1 t1 c2 i2 t2,
    test_plugins_on_value ps1 i = (Done c1, i1, ETesting :: t1)
    /\ test_plugins_on_value ps2 i1 = (Done c2, i2, ETesting :: t2)
    /\ test_plugins_on_value (ps1 ++ ps2) i = (Done (c1 ++ c2), i2, ETesting :: t1 ++ t2)
    /\ (forall c, c ∈ c1 -> fst c ∈ ps1)
    /\ (forall c, c ∈ c2 -> fst c ∈ ps2).
Proof.
  intros Hdesc. apply Forall_app in Hdesc as [Hd1 Hd2].
  destruct (test_each_done ps1 Hd1 [] i) as (c1 & i1 & t1 & H1 & _). simpl in H1.
  destruct (test_each_done ps2 Hd2 [] i1) as (c2 & i2 & t2 & H2 & _). simpl in H2.
  assert (forall ps j c j' t, test_each ps [] j = (Done c, j', t) ->
            test_plugins_on_value ps j = (Done c, j', ETesting :: t)) as Hwrap.
  { intros ps j c j' t H. unfold test_plugins_on_value.
    rewrite (bind_done _ _ j tt j [ETesting]) by reflexivity. by rewrite H. }
  exists c1, i1, t1, c2, i2, t2.
  split; [by apply Hwrap|]. split; [by apply Hwrap|]. split; [|split].
  - apply Hwrap. rewrite test_each_app, (bind_done _ _ _ _ _ _ H1).
    by rewrite (test_each_acc ps2 c1 _ _ _ _ H2).
  - eapply tested_plugins. by apply Hwrap.
  - eapply tested_plugins. by apply Hwrap.
Qed.

(** Two operators, one list each. *)
Lemma candidates_follow_plugin_order_witness :
  exists c1 i1 t1 c2 i2 t2,
    test_plugins_on_value [restart_db] fresh_issue = (Done c1, i1, ETesting :: t1)
    /\ test_plugins_on_value [reboot_host] i1 = (Done c2, i2, ETesting :: t2)
    /\ test_plugins_on_value ([restart_db] ++ [reboot_host]) fresh_issue
       = (Done (c1 ++ c2), i2, ETesting :: t1 ++ t2)
    /\ (forall c, c ∈ c1 -> fst c ∈ [restart_db])
    /\ (forall c, c ∈ c2 -> fst c ∈ [reboot_host]).
Proof.
  assert (Forall described ([restart_db] ++ [reboot_host])) as Hdesc
    by (repeat constructor; done).
  exact (candidates_follow_plugin_order [restart_db] [reboot_host] fresh_issue Hdesc).
Defined.

(** ** Labels and their resolution *)

Section Labels.

Variable self : Processor.

Lemma split_on_length sep s : length (split_on sep s) = S (count_char sep s).
Proof.
  induction s as [|c s IH]; simpl; [reflexivity|].
  destruct (Ascii.eqb c sep); simpl; [by rewrite IH|].
  destruct (split_on sep s); simpl in *; [discriminate|exact IH].
Qed.

Lemma split_on_app sep a b :
  count_char sep a = 0 ->
  split_on sep (String.append a (String sep b)) = a :: split_on sep b.
Proof.
  induction a as [|c a IH]; simpl; intros H.
  - by rewrite Ascii.eqb_refl.
  - destruct (Ascii.eqb c sep); [discriminate|]. by rewrite IH.
Qed.

Lemma split_on_none sep s : count_char sep s = 0 -> split_on sep s = [s].
Proof.
  induction s as [|c s IH]; simpl; intros H; [reflexivity|].
  destruct (Ascii.eqb c sep); [discriminate|]. by rewrite IH.
Qed.

Lemma count_char_app sep a b :
  count_char sep (String.append a b) = count_char sep a + count_char sep b.
Proof. induction a as [|c a IH]; simpl; [reflexivity|]. rewrite IH. lia. Qed.

Lemma label_colons (c : candidate) :
  count_char ":" (label c)
  = S (count_char ":" (kind (fst c)) + count_char ":" (py_str (snd c))).
Proof.
  unfold label. rewrite !count_char_app.
  change (count_char ":" ":") with 1. lia.
Qed.

Lemma label_split (c : candidate) :
  count_char ":" (kind (fst c)) = 0 -> count_char ":" (py_str (snd c)) = 0 ->
  split_on ":" (label c) = [kind (fst c); py_str (snd c)].
Proof.
  intros Hk Hs. unfold label.
  change (String.append ":" (py_str (snd c))) with (String ":" (py_str (snd c))).
  by rewrite (split_on_app _ _ _ Hk), (split_on_none _ _ Hs).
Qed.

Lemma filter_first {A} (f : A -> bool) (l : list A) x rest :
  List.filter f l = x :: rest ->
  exists before after,
    l = before ++ x :: after /\ f x = true /\ forall b, b ∈ before -> f b = false.
Proof.
  induction l as [|y l IH]; simpl; [discriminate|].
  destruct (f y) eqn:E; intros H.
  - inversion H; subst. exists [], l. repeat split; auto.
    intros b Hb. by apply elem_of_nil in Hb.
  - destruct (IH H) as (before & after & -> & Hx & Hb).
    exists (y :: before), after. repeat split; auto.
    intros b Hin. apply elem_of_cons in Hin as [->|Hin]; auto.
Qed.

(** X4: when the arbiter answers with the label of a candidate whose
    class name and context string hold no colon, the lookup succeeds and
    returns the first candidate of the round with that class name and
    that context string; when the labels of the round are pairwise
    different, that is the candidate itself. *)
Theorem echoed_label_resolves (d : DecisionService) (possible : list candidate)
  (c : candidate) (i i2 : issue) :
  ds self = Some d ->
  c ∈ possible ->
  count_char ":" (kind (fst c)) = 0 ->
  count_char ":" (py_str (snd c)) = 0 ->
  decide d i (map label possible) = (i2, Returns (label c)) ->
  exists before chosen after,
    possible = before ++ chosen :: after
    /\ decide_on_plugin self possible i
       = (Done chosen, i2, [EDecide (map label possible) (Returns (label c))])
    /\ kind (fst chosen) = kind (fst c)
    /\ py_str (snd chosen) = py_str (snd c)
    /\ (forall b, b ∈ before ->
          ~ (kind (fst b) = kind (fst c) /\ py_str (snd b) = py_str (snd c)))
    /\ (NoDup (map label possible) -> chosen = c).
Proof.
  intros Hds Hin Hk Hs Hd.
  destruct (List.filter (resolves (kind (fst c)) (py_str (snd c))) possible)
    as [|chosen rest] eqn:Hf.
  { exfalso.
    assert (In c (List.filter (resolves (kind (fst c)) (py_str (snd c))) possible)) as H.
    { apply filter_In. split; [by apply list_elem_of_In|]. by apply resolves_spec. }
    rewrite Hf in H. destruct H. }
  destruct (filter_first _ _ _ _ Hf) as (before & after & Hposs & Hres & Hbefore).
  apply resolves_spec in Hres as [Hck Hcs].
  exists before, chosen, after. split; [exact Hposs|]. split; [|split; [|split; [|split]]]; auto.
  - unfold decide_on_plugin. destruct possible as [|first others] eqn:E.
    { by apply elem_of_nil in Hin. }
    rewrite Hds, <- E.
    rewrite (bind_done _ _ i (label c) i2 [EDecide (map label possible) (Returns (label c))])
      by (unfold call_decide; subst possible; by rewrite Hd).
    unfold resolve. rewrite (label_split c Hk Hs). subst possible. rewrite Hf. reflexivity.
  - intros b Hb Heq. apply resolves_spec in Heq. rewrite (Hbefore b Hb) in Heq. discriminate.
  - intros Hnd. rewrite Hposs in Hin, Hnd.
    assert (label chosen = label c) as Hl by (unfold label; by rewrite Hck, Hcs).
    apply elem_of_app in Hin as [Hin|Hin].
    + exfalso. assert (resolves (kind (fst c)) (py_str (snd c)) c = true) as Hr
        by (by apply resolves_spec).
      rewrite (Hbefore c Hin) in Hr. discriminate.
    + apply elem_of_cons in Hin as [->|Hin]; [reflexivity|]. exfalso.
      rewrite map_app in Hnd. apply NoDup_app in Hnd as (_ & _ & Hnd).
      simpl in Hnd. apply NoDup_cons in Hnd as [Hnot _]. apply Hnot.
      rewrite Hl. apply list_elem_of_fmap. eauto.
Qed.

(** X5: a candidate whose class name or context string holds a colon
    cannot be chosen by the arbiter: answering with its own label makes
    the unpacking of line 73 raise [ValueError], whatever the other
    candidates are. *)
Theorem colon_in_label_is_fatal (d : DecisionService) (possible : list candidate)
  (c : candidate) (i i2 : issue) :
  ds self = Some d ->
  possible <> [] ->
  0 < count_char ":" (kind (fst c)) + count_char ":" (py_str (snd c)) ->
  decide d i (map label possible) = (i2, Returns (label c)) ->
  decide_on_plugin self possible i
  = (Raised ValueError, i2, [EDecide (map label possible) (Returns (label c))]).
Proof.
  intros Hds Hne Hcolon Hd. unfold decide_on_plugin.
  destruct possible as [|first others] eqn:E; [done|]. rewrite Hds, <- E.
  rewrite (bind_done _ _ i (label c) i2 [EDecide (map label possible) (Returns (label c))])
    by (unfold call_decide; subst possible; by rewrite Hd).
  unfold resolve.
  pose proof (split_on_length ":" (label c)) as Hlen. rewrite label_colons in Hlen.
  destruct (split_on ":" (label c)) as [|x [|y [|z zs]]]; simpl in Hlen; try reflexivity; lia.
Qed.

End Labels.

(** The second of two operators is echoed back and chosen. *)
Lemma echoed_label_resolves_witness :
  decide_on_plugin (remediate (Some (echo_service 1)))
    [(restart_db, AStr "db"); (reboot_host, AStr "host")] ∅
  = (Done (reboot_host, AStr "host"), ∅,
     [EDecide ["Restart:db"; "Reboot:host"] (Returns "Reboot:host")]).
Proof.
  assert ((reboot_host, AStr "host") ∈ [(restart_db, AStr "db"); (reboot_host, AStr "host")])
    as Hin by (apply elem_of_cons; right; apply elem_of_cons; by left).
  destruct (echoed_label_resolves (remediate (Some (echo_service 1))) (echo_service 1)
              [(restart_db, AStr "db"); (reboot_host, AStr "host")]
              (reboot_host, AStr "host") ∅ ∅ eq_refl Hin eq_refl eq_refl eq_refl)
    as (before & chosen & after & _ & Hd & _ & _ & _ & Hc).
  rewrite Hd. rewrite Hc; [reflexivity|].
  apply (bool_decide_unpack _). vm_compute. reflexivity.
Defined.

(** A URL as context: its own label cannot be resolved. *)
Lemma colon_in_label_is_fatal_witness :
  decide_on_plugin (remediate (Some (echo_service 0))) [(fetch_url, AStr "http://x")] ∅
  = (Raised ValueError, ∅, [EDecide ["Fetch:http://x"] (Returns "Fetch:http://x")]).
Proof.
  apply (colon_in_label_is_fatal (remediate (Some (echo_service 0))) (echo_service 0)
           [(fetch_url, AStr "http://x")] (fetch_url, AStr "http://x") ∅ ∅ eq_refl).
  - discriminate.
  - vm_compute. lia.
  - reflexivity.
Defined.

(** ** The phase list and its index *)


Section PhaseList.

Variable self : Processor.

Lemma ascii_compare_lt_trans x y z :
  Ascii.compare x y = Lt -> Ascii.compare y z = Lt -> Ascii.compare x z = Lt.
Proof.
  unfold Ascii.compare. rewrite !N.compare_lt_iff. lia.
Qed.

Lemma string_compare_trans a : forall b c,
  String.compare a b <> Gt -> String.compare b c <> Gt -> String.compare a c <> Gt.
Proof.
  induction a as [|x a IH]; intros [|y b] [|z c]; simpl; try congruence.
  destruct (Ascii.compare x y) eqn:Exy; try congruence;
    destruct (Ascii.compare y z) eqn:Eyz; try congruence.
  - apply Ascii.compare_eq_iff in Exy, Eyz. subst.
    unfold Ascii.compare. rewrite N.compare_refl. apply IH.
  - apply Ascii.compare_eq_iff in Exy. subst. rewrite Eyz. congruence.
  - apply Ascii.compare_eq_iff in Eyz. subst. rewrite Exy. congruence.
  - rewrite (ascii_compare_lt_trans _ _ _ Exy Eyz). congruence.
Qed.

Lemma string_leb_trans a b c :
  String.leb a b = true -> String.leb b c = true -> String.leb a c = true.
Proof.
  unfold String.leb. intros Hab Hbc.
  pose proof (string_compare_trans a b c) as H.
  destruct (String.compare a b); try discriminate;
    destruct (String.compare b c); try discriminate;
    destruct (String.compare a c); try reflexivity;
    exfalso; apply H; congruence.
Qed.

Lemma sorted_insert_sorted x l :
  StronglySorted (fun a b => String.leb a b = true) l ->
  StronglySorted (fun a b => String.leb a b = true) (sorted_insert x l).
Proof.
  induction 1 as [|y l Hl IH Hy]; simpl.
  - repeat constructor.
  - destruct (String.leb x y) eqn:E.
    + constructor; [by constructor|].
      constructor; [exact E|].
      eapply Forall_impl; [exact Hy|]. intros z Hz. by eapply string_leb_trans.
    + constructor; [exact IH|].
      apply Forall_forall. intros z Hz. apply sorted_insert_elem in Hz as [->|Hz].
      * destruct (String.leb_total x y) as [H|H]; [congruence|exact H].
      * rewrite Forall_forall in Hy. by apply Hy.
Qed.

Lemma sorted_sorted l : StronglySorted (fun a b => String.leb a b = true) (sorted l).
Proof.
  induction l as [|x l IH]; simpl; [constructor|]. by apply sorted_insert_sorted.
Qed.

Lemma sorted_insert_NoDup x l : x ∉ l -> NoDup l -> NoDup (sorted_insert x l).
Proof.
  induction l as [|y l IH]; simpl; intros Hx Hnd.
  - apply NoDup_singleton.
  - destruct (String.leb x y); [by apply NoDup_cons|].
    apply not_elem_of_cons in Hx as [Hne Hx]. apply NoDup_cons in Hnd as [Hy Hnd].
    apply NoDup_cons. split; [|by apply IH].
    intros Hin. apply sorted_insert_elem in Hin as [->|Hin]; done.
Qed.

Lemma sorted_NoDup l : NoDup l -> NoDup (sorted l).
Proof.
  induction 1 as [|x l Hx Hnd IH]; simpl; [constructor|].
  apply sorted_insert_NoDup; [|exact IH]. by rewrite sorted_elem.
Qed.

Lemma sorted_insert_length x l : length (sorted_insert x l) = S (length l).
Proof.
  induction l as [|y l IH]; simpl; [reflexivity|].
  destruct (String.leb x y); simpl; [reflexivity|]. by rewrite IH.
Qed.

Lemma sorted_length l : length (sorted l) = length l.
Proof.
  induction l as [|x l IH]; simpl; [reflexivity|]. by rewrite sorted_insert_length, IH.
Qed.

Lemma strongly_sorted_lookup {A} (R : A -> A -> Prop) (l : list A) :
  StronglySorted R l ->
  forall j k a b, j < k -> l !! j = Some a -> l !! k = Some b -> R a b.
Proof.
  induction 1 as [|x l Hl IH Hx]; intros j k a b Hlt Hj Hk.
  - by rewrite lookup_nil in Hj.
  - destruct k as [|k]; [lia|]. destruct j as [|j]; simpl in *.
    + inversion Hj; subst. rewrite Forall_forall in Hx. apply Hx.
      apply list_elem_of_lookup. eauto.
    + apply (IH j k); auto. lia.
Qed.

Lemma dirs_NoDup : NoDup (dirs self).
Proof. unfold dirs. apply sorted_NoDup, NoDup_elements. Qed.

(** X6: the phase list holds each registered phase name exactly once,
    in ascending order of the names (earlier entries are smaller), and
    [dirs_lookup] is its inverse: a name is mapped to the one index at
    which the list holds it, and names outside the list have no index. *)
Theorem phase_list_is_a_sorted_index :
  (forall P, P ∈ dirs self <-> is_Some (plugins self !! P))
  /\ NoDup (dirs self)
  /\ length (dirs self) = size (plugins self)
  /\ (forall j k a b, j < k -> dirs self !! j = Some a -> dirs self !! k = Some b ->
        String.leb a b = true /\ a <> b)
  /\ (forall P j, dirs_lookup self !! P = Some j <-> dirs self !! j = Some P).
Proof.
  split; [apply dirs_spec|]. split; [apply dirs_NoDup|]. split; [|split].
  - unfold dirs. by rewrite sorted_length, <- size_dom, <- (size_list_to_set (C:=gset string))
      by apply NoDup_elements; rewrite list_to_set_elements_L.
  - intros j k a b Hlt Hj Hk. split.
    + pose proof (sorted_sorted (elements (dom (plugins self)))) as Hs. fold (dirs self) in Hs.
      by apply (strongly_sorted_lookup _ _ Hs j k a b).
    + intros ->. pose proof (NoDup_lookup _ _ _ _ dirs_NoDup Hj Hk). lia.
  - intros P j. split; [apply dirs_lookup_some|].
    intros Hj. assert (P ∈ dirs self) as Hin by (apply list_elem_of_lookup; eauto).
    destruct (dirs_lookup_elem self P Hin) as [j' Hj'].
    pose proof (dirs_lookup_some self P j' Hj') as Hd.
    by rewrite (NoDup_lookup _ _ _ _ dirs_NoDup Hj Hd).
Qed.

End PhaseList.

(** The two phases of the clean-up processor. *)
Lemma phase_list_is_a_sorted_index_witness :
  String.leb "30-cleanup-parallel" "90-report" = true
  /\ "30-cleanup-parallel" <> "90-report".
Proof.
  exact (proj1 (proj2 (proj2 (proj2 (phase_list_is_a_sorted_index cleanup))))
           0 1 "30-cleanup-parallel" "90-report" ltac:(lia) eq_refl eq_refl).
Defined.

(** ** The pass as a whole *)

Section WholePass.

Variable self : Processor.





Lemma emits_bind (P : event -> Prop) {A B} (m : M A) (f : A -> M B) :
  emits P m -> (forall a, emits P (f a)) -> emits P (bind m f).
Proof.
  intros Hm Hf i. specialize (Hm i). unfold bind.
  destruct (m i) as [[[a| |] i1] t1]; auto.
  specialize (Hf a i1). destruct (f a i1) as [[r i2] t2].
  unfold trace_of in *. simpl in *. by apply Forall_app.
Qed.

Lemma emits_silent (P : event -> Prop) {A} (m : M A) :
  (forall i, trace_of (m i) = []) -> emits P m.
Proof. intros H i. rewrite H. constructor. Qed.

Lemma emits_getitem P key : emits P (getitem key).
Proof. apply emits_silent. intros i. unfold getitem. by destruct (i !! key). Qed.

Lemma pass_test_each ps : forall acc, emits of_the_pass (test_each ps acc).
Proof.
  induction ps as [|p ps IH]; intros acc; simpl.
  - by apply emits_silent.
  - apply emits_bind; [|intros; apply IH].
    intros i. destruct (test_plugin_trace p i) as [o ->]. by repeat constructor.
Qed.

Lemma pass_execute p c : emits of_the_pass (execute_plugin_with_context p c).
Proof.
  intros i. unfold execute_plugin_with_context.
  destruct (description p); [|constructor].
  destruct (process p i c) as [i' o]. by repeat constructor.
Qed.

Lemma pass_execute_each possible : forall any_executed,
  emits of_the_pass (execute_each possible any_executed).
Proof.
  induction possible as [|c cs IH]; intros any_executed; simpl.
  - by apply emits_silent.
  - apply emits_bind; [apply pass_execute|intros; apply IH].
Qed.

Lemma pass_decide_on_plugin possible : emits of_the_pass (decide_on_plugin self possible).
Proof.
  unfold decide_on_plugin. destruct possible as [|first others]; [by apply emits_silent|].
  destruct (ds self) as [d|]; [|by apply emits_silent].
  apply emits_bind.
  - intros i. unfold call_decide. destruct (decide d i _) as [i' [s|]]; by repeat constructor.
  - intros decision i.
    by destruct (resolve_cases decision (first :: others) i)
      as [(chosen & -> & _)|(e & _ & -> & _)]; constructor.
Qed.

Lemma pass_run_phase fuel directory subplugins : forall any_executed,
  emits of_the_pass (run_phase self fuel directory subplugins any_executed).
Proof.
  induction fuel as [|fuel IH]; intros any_executed; simpl; [by apply emits_silent|].
  assert (forall n l, emits of_the_pass
            (end_of_round (run_phase self fuel directory subplugins) directory n l)) as Hend.
  { intros n l. apply emits_bind; [apply emits_getitem|]. intros v.
    destruct (negb _); [by apply emits_silent|].
    destruct (Nat.eqb _ _); [by apply emits_silent|apply IH]. }
  unfold round. apply emits_bind.
  { apply emits_bind; [intros i; by repeat constructor|]. intros _. apply pass_test_each. }
  intros tested. cbv zeta.
  destruct (Nat.ltb _ 1); [intros i; by repeat constructor|].
  destruct (endswith directory "-parallel").
  { apply emits_bind; [apply pass_execute_each|]. intros l. apply Hend. }
  destruct (endswith directory "-alternative").
  { apply emits_bind; [apply pass_decide_on_plugin|]. intros p. apply pass_execute. }
  destruct (last _) as [p|]; [|by apply emits_silent].
  apply emits_bind; [apply pass_execute|]. intros _. apply Hend.
Qed.

Lemma pass_visit_phase fuel n directory :
  emits of_the_pass (visit_phase self fuel n directory).
Proof.
  unfold visit_phase. apply emits_bind; [by apply emits_silent|]. intros _.
  apply emits_bind; [intros i; by repeat constructor|]. intros _.
  destruct (plugins self !! directory) as [subplugins|]; [|by apply emits_silent].
  apply emits_bind; [apply pass_run_phase|]. intros _.
  apply emits_bind.
  { unfold add_reward. apply emits_bind; [apply emits_getitem|].
    intros [a|l]; [|by apply emits_silent].
    destruct (as_number a); by apply emits_silent. }
  intros _. apply emits_bind; [apply emits_getitem|]. intros v.
  destruct (is_phase v directory); [by apply emits_silent|].
  unfold dirs_lookup_get. destruct v as [[| | |s]|]; try by apply emits_silent.
  destruct (dirs_lookup self !! s); by apply emits_silent.
Qed.

Lemma pass_apply_all visits fuel :
  emits of_the_pass (apply_all_plugins_on_value self visits fuel).
Proof.
  unfold apply_all_plugins_on_value. apply emits_bind; [by apply emits_silent|]. intros _.
  generalize 0. induction visits as [|visits IH]; intros n; simpl;
    destruct (dirs self !! n) as [directory|]; try by apply emits_silent.
  apply emits_bind; [apply pass_visit_phase|]. intros next. apply IH.
Qed.

Lemma finish_calls_of_the_pass t : Forall of_the_pass t -> finish_calls t = [].
Proof.
  induction 1 as [|e t He Ht IH]; [reflexivity|].
  unfold finish_calls in *. simpl. rewrite IH. by destruct e.
Qed.

(** X10: [process_issue] calls [ds.finish_episode] exactly once, as its
    last action and on the issue the pass left, when a decision service
    is configured and the pass returned; when the pass raised (or no
    service is configured) it is not called at all, and the exception of
    the pass is the exception of [process_issue].  The pass itself never
    calls it. *)
Theorem episode_is_finished_after_a_completed_pass (visits fuel : nat) (i : issue) :
  let x := apply_all_plugins_on_value self visits fuel i in
  finish_calls (trace_of x) = []
  /\ match result_of x, ds self with
     | Done _, Some d =>
         process_issue self visits fuel i
         = (match snd (finish_episode d (issue_of x)) with
            | Returns _ => Done tt
            | Raises => Raised CollaboratorError
            end,
            fst (finish_episode d (issue_of x)),
            trace_of x ++ [EFinish (snd (finish_episode d (issue_of x)))])
         /\ length (finish_calls (trace_of (process_issue self visits fuel i))) = 1
     | _, _ => process_issue self visits fuel i = x
     end.
Proof.
  intros x.
  assert (finish_calls (trace_of x) = []) as Hnone
    by apply finish_calls_of_the_pass, pass_apply_all.
  split; [exact Hnone|].
  unfold process_issue. fold x. subst x.
  destruct (apply_all_plugins_on_value self visits fuel i) as [[[[]| |] i1] t1] eqn:E;
    unfold result_of, issue_of, trace_of in *; simpl in *.
  - rewrite (bind_done _ _ _ _ _ _ E).
    destruct (ds self) as [d|].
    + unfold call_finish. destruct (finish_episode d i1) as [i2 [[]|]]; simpl;
        (split; [reflexivity|]);
        unfold finish_calls; rewrite flat_map_app; fold (finish_calls t1);
        by rewrite Hnone.
    + unfold ret, result_of, issue_of, trace_of. simpl. by rewrite app_nil_r.
  - by rewrite (bind_raised _ _ _ _ _ _ E).
  - by rewrite (bind_out_of_fuel _ _ _ _ _ E).
Qed.

(** X8: with no phase registered the pass only resets the reward: it
    returns at once, makes no call, and does not create
    [_current_phase]. *)
Theorem empty_registry_pass (visits fuel : nat) (i : issue) :
  plugins self = ∅ ->
  apply_all_plugins_on_value self visits fuel i
  = (Done tt, <["_reward" := Atom (AInt 0)]> i, [])
  /\ issue_of (apply_all_plugins_on_value self visits fuel i) !! "_current_phase"
     = i !! "_current_phase".
Proof.
  intros He.
  assert (dirs self = []) as Hd by (unfold dirs; by rewrite He, dom_empty_L, elements_empty).
  assert (apply_all_plugins_on_value self visits fuel i
          = (Done tt, <["_reward" := Atom (AInt 0)]> i, [])) as H.
  { unfold apply_all_plugins_on_value.
    rewrite (bind_done _ _ i tt (<["_reward" := Atom (AInt 0)]> i) []) by reflexivity.
    destruct visits; simpl; by rewrite Hd. }
  split; [exact H|]. rewrite H. unfold issue_of. simpl. by rewrite lookup_insert_ne.
Qed.

End WholePass.

(** A processor nobody registered a plugin with. *)
Lemma empty_registry_pass_witness :
  apply_all_plugins_on_value {| plugins := ∅; ds := None; auto_reward := 1 |} 0 0 ∅
  = (Done tt, {[ "_reward" := Atom (AInt 0) ]}, []).
Proof.
  exact (proj1 (empty_registry_pass {| plugins := ∅; ds := None; auto_reward := 1 |}
                  0 0 ∅ eq_refl)).
Defined.


(** ** A pass in which nothing matches *)

Section Linear.

Variable self : Processor.

Lemma test_each_nothing ps : Forall never_matches ps ->
  forall acc i, exists t,
    test_each ps acc i = (Done acc, i, t)
    /\ process_calls t = [] /\ decide_calls t = [] /\ phases_of t = [].
Proof.
  induction 1 as [|p ps Hp Hps IH]; intros acc i; simpl.
  - by exists [].
  - destruct (Hp i) as (o & Ho & Hfalsy).
    assert (test_plugin p i = (Done [], i, [ETest (ident p) o])) as Ht.
    { unfold test_plugin. rewrite Ho. destruct o as [v|].
      - unfold contexts_of. by rewrite Hfalsy.
      - unfold described in Hfalsy. by destruct (description p). }
    rewrite (bind_done _ _ _ _ _ _ Ht), app_nil_r.
    destruct (IH acc i) as (t & -> & Hc & Hd & Hph).
    eexists. split; [reflexivity|]. simpl.
    unfold process_calls, decide_calls, phases_of in *. simpl. by rewrite Hc, Hd, Hph.
Qed.

Lemma run_phase_nothing fuel directory ps i :
  Forall never_matches ps ->
  exists t,
    run_phase self (S fuel) directory ps [] i = (Done tt, i, t)
    /\ process_calls t = [] /\ decide_calls t = [] /\ phases_of t = [].
Proof.
  intros Hps. destruct (test_each_nothing ps Hps [] i) as (t & Ht & Hc & Hd & Hph).
  assert (test_plugins_on_value ps i = (Done [], i, ETesting :: t)) as Htp.
  { unfold test_plugins_on_value.
    rewrite (bind_done _ _ i tt i [ETesting]) by reflexivity. by rewrite Ht. }
  exists ((ETesting :: t) ++ [ENoPossible directory]).
  split; [by apply (round_without_candidates self fuel directory ps [] i [] i)|].
  rewrite process_calls_app, decide_calls_app, phases_of_app.
  unfold process_calls, decide_calls, phases_of in *. simpl. by rewrite Hc, Hd, Hph.
Qed.

Lemma visit_phase_nothing fuel n directory i r :
  nothing_matches self ->
  dirs self !! n = Some directory ->
  i !! "_reward" = Some (Atom (AInt r)) ->
  exists t,
    visit_phase self (S fuel) n directory i
    = (Done (S n),
       <["_reward" := Atom (AInt (r + auto_reward self))]>
         (<["_current_phase" := Atom (AStr directory)]> i),
       EPhase directory :: t)
    /\ process_calls t = [] /\ decide_calls t = [] /\ phases_of t = [].
Proof.
  intros Hno Hd Hr.
  assert (directory ∈ dirs self) as Hin by (apply list_elem_of_lookup; eauto).
  destruct (proj1 (dirs_spec self directory) Hin) as [ps Hps].
  set (i0 := <["_current_phase" := Atom (AStr directory)]> i).
  destruct (run_phase_nothing fuel directory ps i0 (Hno _ _ Hps))
    as (t & Hrun & Hc & Hdc & Hph).
  exists t. split; [|auto].
  rewrite (visit_phase_eq self _ _ _ _ _ Hps). cbv zeta. fold i0.
  rewrite (bind_done _ _ _ _ _ _ Hrun).
  assert (add_reward self i0
          = (Done tt, <["_reward" := Atom (AInt (r + auto_reward self))]> i0, [])) as Hadd.
  { unfold add_reward.
    rewrite (bind_done _ _ i0 (Atom (AInt r)) i0 [])
      by (unfold getitem, i0; by rewrite lookup_insert_ne, Hr).
    reflexivity. }
  rewrite (bind_done _ _ _ _ _ _ Hadd).
  rewrite (bind_done _ _ _ (Atom (AStr directory)) _ [])
    by (unfold getitem, i0; by rewrite lookup_insert_ne, lookup_insert_eq).
  simpl. rewrite String.eqb_refl.
  unfold result_of, issue_of, trace_of. simpl. by rewrite app_nil_r.
Qed.

Lemma run_phases_nothing fuel visits : forall n i r,
  nothing_matches self ->
  length (dirs self) <= visits + n ->
  i !! "_reward" = Some (Atom (AInt r)) ->
  let x := run_phases self visits (S fuel) n i in
  result_of x = Done tt
  /\ phases_of (trace_of x) = drop n (dirs self)
  /\ process_calls (trace_of x) = []
  /\ decide_calls (trace_of x) = []
  /\ issue_of x !! "_reward"
     = Some (Atom (AInt (r + auto_reward self * Z.of_nat (length (drop n (dirs self))))))
  /\ forall k, k <> "_reward" -> k <> "_current_phase" -> issue_of x !! k = i !! k.
Proof.
  induction visits as [|visits IH]; intros n i r Hno Hlen Hr x; subst x; simpl;
    destruct (dirs self !! n) as [directory|] eqn:Hd.
  - apply lookup_lt_Some in Hd. simpl in Hlen. lia.
  - apply lookup_ge_None in Hd. rewrite drop_ge by exact Hd.
    unfold ret, result_of, issue_of, trace_of. simpl.
    rewrite Hr. repeat split; auto. do 3 f_equal. lia.
  - destruct (visit_phase_nothing fuel n directory i r Hno Hd Hr)
      as (t & Hv & Hc & Hdc & Hph).
    rewrite (bind_done _ _ _ _ _ _ Hv).
    set (i1 := <["_reward" := Atom (AInt (r + auto_reward self))]>
                 (<["_current_phase" := Atom (AStr directory)]> i)) in *.
    destruct (IH (S n) i1 (r + auto_reward self)%Z Hno ltac:(lia)
                ltac:(unfold i1; apply lookup_insert_eq))
      as (Hres & Hphs & Hcs & Hds & Hrew & Hframe).
    unfold result_of, issue_of, trace_of in *. simpl in *.
    rewrite (drop_S _ _ _ Hd). simpl.
    split; [exact Hres|]. split; [|split; [|split; [|split]]].
    + change (EPhase directory :: t ++ ?u) with ([EPhase directory] ++ t ++ u).
      rewrite !phases_of_app, Hph, Hphs. reflexivity.
    + change (EPhase directory :: t ++ ?u) with ([EPhase directory] ++ t ++ u).
      rewrite !process_calls_app, Hc, Hcs. reflexivity.
    + change (EPhase directory :: t ++ ?u) with ([EPhase directory] ++ t ++ u).
      rewrite !decide_calls_app, Hdc, Hds. reflexivity.
    + rewrite Hrew. do 3 f_equal. lia.
    + intros k Hk1 Hk2. rewrite (Hframe k Hk1 Hk2). unfold i1.
      by rewrite lookup_insert_ne, lookup_insert_ne.
  - apply lookup_ge_None in Hd. rewrite drop_ge by exact Hd.
    unfold ret, result_of, issue_of, trace_of. simpl.
    rewrite Hr. repeat split; auto. do 3 f_equal. lia.
Qed.

(** X9: when no plugin applies (every [test] raises, as the inherited
    [Plugin.test] does, in a plugin that carries a description, or
    answers something falsy, without touching the issue), a pass with room for every phase returns after visiting each
    registered phase exactly once, in sorted order; no [process] and no
    arbiter call is made, the reward ends at [auto_reward] times the
    number of phases, and no field of the issue other than [_reward]
    and [_current_phase] changes. *)
Theorem pass_is_linear_when_nothing_matches (visits fuel : nat) (i : issue) :
  nothing_matches self ->
  length (dirs self) <= visits ->
  let x := apply_all_plugins_on_value self visits (S fuel) i in
  result_of x = Done tt
  /\ phases_of (trace_of x) = dirs self
  /\ process_calls (trace_of x) = []
  /\ decide_calls (trace_of x) = []
  /\ issue_of x !! "_reward"
     = Some (Atom (AInt (auto_reward self * Z.of_nat (length (dirs self)))))
  /\ forall k, k <> "_reward" -> k <> "_current_phase" -> issue_of x !! k = i !! k.
Proof.
  intros Hno Hlen x. subst x. unfold apply_all_plugins_on_value.
  rewrite (bind_done _ _ i tt (<["_reward" := Atom (AInt 0)]> i) []) by reflexivity.
  destruct (run_phases_nothing fuel visits 0 (<["_reward" := Atom (AInt 0)]> i) 0%Z Hno
              ltac:(lia) ltac:(apply lookup_insert_eq))
    as (Hres & Hphs & Hcs & Hds & Hrew & Hframe).
  unfold result_of, issue_of, trace_of in *. simpl in *.
  rewrite drop_0 in *.
  repeat split; auto.
  intros k Hk1 Hk2. rewrite (Hframe k Hk1 Hk2). by rewrite lookup_insert_ne.
Qed.

End Linear.

Lemma skeleton_matches_nothing : nothing_matches skeleton.
Proof.
  unfold nothing_matches, skeleton. simpl.
  apply map_Forall_insert_2; [|apply map_Forall_insert_2; [|apply map_Forall_singleton]];
    (constructor; [intros i; by exists Raises|constructor]).
Qed.

(** Three unimplemented phases are walked through in name order. *)
Lemma pass_is_linear_when_nothing_matches_witness :
  phases_of (trace_of (apply_all_plugins_on_value skeleton 3 1 ∅))
  = ["10-detect"; "20-fix"; "30-report-parallel"]
  /\ issue_of (apply_all_plugins_on_value skeleton 3 1 ∅) !! "_reward"
     = Some (Atom (AInt 6)).
Proof.
  destruct (pass_is_linear_when_nothing_matches skeleton 3 0 ∅ skeleton_matches_nothing
              ltac:(vm_compute; lia))
    as (_ & Hph & _ & _ & Hr & _).
  split; [exact Hph|exact Hr].
Defined.

(** ** The no-progress test of the inner loop *)

Section Guard.

Variable self : Processor.

Lemma end_of_round_guard next next' directory n (l : list candidate) j :
  length l <> n ->
  (forall l' j', next l' j' = next' l' j') ->
  end_of_round next directory n l j = end_of_round_unguarded next' directory l j.
Proof.
  intros Hn Hnext. unfold end_of_round, end_of_round_unguarded.
  apply bind_ext. intros v j'. destruct (negb _); [reflexivity|].
  apply Nat.eqb_neq in Hn. rewrite Hn. apply Hnext.
Qed.

(** A batch that returns has recorded all its candidates. *)
Lemma execute_each_returns possible : forall any_executed i l i1 t1,
  execute_each possible any_executed i = (Done l, i1, t1) -> l = any_executed ++ possible.
Proof.
  induction possible as [|c cs IH]; intros any_executed i l i1 t1 H; simpl in H.
  - unfold ret in H. inversion H; subst. by rewrite app_nil_r.
  - unfold bind in H.
    destruct (execute_plugin_with_context (fst c) (snd c) i) as [[[[]| |] j] u];
      try discriminate.
    destruct (execute_each cs (any_executed ++ [c]) j) as [[r j2] u2] eqn:E.
    inversion H; subst. apply IH in E. subst. by rewrite <- app_assoc.
Qed.

(** X11: the test [len(any_executed) == len_already_executed] of line
    117 never ends a phase: whenever it is reached the round has
    recorded at least one execution, so the inner loop behaves, for
    every policy, plugin list and issue, exactly like the loop without
    that test. *)
Theorem no_progress_test_never_fires (fuel : nat) (directory : string)
  (subplugins : list Plugin) (any_executed : list candidate) (i : issue) :
  run_phase self fuel directory subplugins any_executed i
  = run_phase_unguarded self fuel directory subplugins any_executed i.
Proof.
  revert any_executed i. induction fuel as [|fuel IH]; intros any_executed i; simpl;
    [reflexivity|].
  unfold round, round_unguarded. apply bind_ext. intros tested j.
  cbv zeta. destruct (remove_executed any_executed tested) as [|c cs] eqn:Hposs;
    [reflexivity|].
  change (Nat.ltb (length (c :: cs)) 1) with false. cbv iota.
  destruct (endswith directory "-parallel").
  { unfold bind.
    destruct (execute_each (c :: cs) any_executed j) as [[[l| |] j1] u1] eqn:E;
      [|reflexivity|reflexivity].
    apply execute_each_returns in E. subst l.
    rewrite (end_of_round_guard _ (run_phase_unguarded self fuel directory subplugins));
      [reflexivity| |exact IH].
    rewrite length_app. simpl. lia. }
  destruct (endswith directory "-alternative"); [reflexivity|].
  destruct (last (c :: cs)) as [p|]; [|reflexivity].
  apply bind_ext. intros _ j'.
  apply end_of_round_guard; [|exact IH]. rewrite length_app. simpl. lia.
Qed.

End Guard.

(** ** The order of executions under steady answers *)

Section Orders.

Variable self : Processor.

Lemma remove_executed_self (l : list candidate) : remove_executed l l = [].
Proof.
  unfold remove_executed. induction l as [|x l IH]; simpl; [reflexivity|].
  unfold list_contains. simpl. rewrite candidate_eqb_refl. simpl. exact IH.
Qed.

(** X12: in a fan-out phase whose plugins carry a description and whose
    tests keep giving the same candidate list, every listed candidate is
    executed exactly once, in list order, all in the first round; a
    second round, if the phase was not left, finds nothing new and
    closes the phase.  Two rounds of budget are always enough. *)
Theorem fan_out_runs_the_list_once (fuel : nat) (directory : string)
  (subplugins : list Plugin) (tested : list candidate) (i : issue) :
  Forall described subplugins ->
  endswith directory "-parallel" = true ->
  (forall j, exists j1 t1, test_plugins_on_value subplugins j = (Done tested, j1, t1)) ->
  let x := run_phase self (S (S fuel)) directory subplugins [] i in
  result_of x <> OutOfFuel
  /\ process_calls (trace_of x) = map call_of tested
  /\ rounds_of (trace_of x) <= 2.
Proof.
  intros Hdesc Hp Hconst x. subst x.
  destruct (Hconst i) as (i1 & t1 & Ht).
  destruct (tests_make_no_calls _ _ _ _ _ Ht) as [Hc _].
  destruct (tested_pairs _ _ _ _ _ Ht) as [_ Hr].
  destruct tested as [|c cs] eqn:Etested.
  { rewrite (round_without_candidates self _ directory subplugins [] i [] i1 t1 Ht eq_refl).
    unfold result_of, trace_of. simpl.
    rewrite process_calls_app, rounds_of_app, Hc, Hr.
    split; [discriminate|]. split; [reflexivity|]. unfold rounds_of. simpl. lia. }
  rewrite <- Etested in *.
  assert (remove_executed [] tested <> []) as Hne by (subst tested; discriminate).
  pose proof (round_looping self (S fuel) directory subplugins [] i tested i1 t1
                Hdesc (or_introl Hp) Ht Hne) as Hround.
  cbv zeta in Hround. unfold round_batch in Hround. rewrite Hp in Hround.
  change (remove_executed [] tested) with tested in Hround.
  change ([] ++ tested) with tested in Hround.
  rewrite Hround. clear Hround.
  set (i2 := run_all tested i1).
  assert (forall (r : result unit) j rest,
            r <> OutOfFuel -> process_calls rest = [] -> rounds_of rest <= 1 ->
            result_of (r, j, t1 ++ process_events tested i1 ++ rest) <> OutOfFuel
            /\ process_calls (trace_of (r, j, t1 ++ process_events tested i1 ++ rest))
               = map call_of tested
            /\ rounds_of (trace_of (r, j, t1 ++ process_events tested i1 ++ rest)) <= 2)
    as Hwrap.
  { intros r j rest Hres Hcalls Hrounds. unfold result_of, trace_of. simpl.
    rewrite !process_calls_app, !rounds_of_app, Hc, Hr, process_calls_events, Hcalls.
    assert (rounds_of (process_events tested i1) = 0) as ->.
    { clear. generalize i1. induction tested as [|c cs IH]; intros j; [reflexivity|].
      apply (IH (fst (process (fst c) j (snd c)))). }
    rewrite app_nil_r. repeat split; auto. lia. }
  destruct (i2 !! "_current_phase") as [v|] eqn:Ecur.
  - destruct (is_phase v directory) eqn:Eph.
    + rewrite (end_of_round_stays _ _ _ _ _ v Ecur Eph) by (subst tested; discriminate).
      destruct (Hconst i2) as (j1 & u1 & Hu).
      rewrite (round_without_candidates self _ directory subplugins tested i2 tested j1 u1 Hu
                 (remove_executed_self tested)).
      destruct (tests_make_no_calls _ _ _ _ _ Hu) as [Hc2 _].
      destruct (tested_pairs _ _ _ _ _ Hu) as [_ Hr2].
      apply Hwrap; [discriminate| |].
      * unfold trace_of. simpl. by rewrite process_calls_app, Hc2.
      * unfold trace_of. simpl snd. rewrite rounds_of_app, Hr2. unfold rounds_of. simpl. lia.
    + rewrite end_of_round_left by (unfold phase_left; by rewrite Ecur, Eph).
      apply Hwrap; [discriminate|reflexivity|unfold rounds_of, trace_of; simpl; lia].
  - unfold end_of_round.
    rewrite (bind_raised _ _ i2 (KeyError "_current_phase") i2 [])
      by (unfold getitem; by rewrite Ecur).
    apply Hwrap; [discriminate|reflexivity|unfold rounds_of, trace_of; simpl; lia].
Qed.

Lemma list_contains_snoc (x : candidate) l : list_contains x (l ++ [x]) = true.
Proof.
  unfold list_contains. rewrite existsb_app. simpl.
  rewrite candidate_eqb_refl. by rewrite orb_true_r.
Qed.

Lemma list_remove_snoc (x : candidate) l :
  (forall y, y ∈ l -> candidate_eqb y x = false) -> list_remove x (l ++ [x]) = l.
Proof.
  induction l as [|y l IH]; simpl; intros H.
  - by rewrite candidate_eqb_refl.
  - rewrite (H y) by (apply elem_of_cons; by left).
    rewrite IH; [reflexivity|]. intros z Hz. apply H, elem_of_cons. by right.
Qed.

(** What is left of a duplicate-free list once its tail was run, last
    element first. *)
Lemma remove_executed_suffix (s : list candidate) : forall l,
  NoDup (map pair_of (l ++ s)) -> remove_executed (rev s) (l ++ s) = l.
Proof.
  induction s as [|x s IH]; intros l Hnd; simpl.
  - by rewrite app_nil_r.
  - unfold remove_executed in *. rewrite fold_left_app.
    change (l ++ x :: s) with (l ++ [x] ++ s). rewrite app_assoc.
    rewrite IH by (by rewrite <- app_assoc).
    simpl. rewrite list_contains_snoc, list_remove_snoc; [reflexivity|].
    intros y Hy. destruct (candidate_eqb y x) eqn:E; [|reflexivity]. exfalso.
    apply candidate_eqb_pair in E.
    rewrite map_app in Hnd. apply NoDup_app in Hnd as (_ & Hdisj & _).
    apply (Hdisj (pair_of y)); [by apply pairs_elem|].
    simpl. rewrite E. apply elem_of_cons. by left.
Qed.

Section Steady.

Variables (directory : string) (subplugins : list Plugin) (tested : list candidate).

Hypothesis Hdesc : Forall described subplugins.
Hypothesis Hnot_parallel : endswith directory "-parallel" = false.
Hypothesis Hnot_alternative : endswith directory "-alternative" = false.
Hypothesis Hconst : forall j, exists j1 t1,
  test_plugins_on_value subplugins j = (Done tested, j1, t1)
  /\ j1 !! "_current_phase" = j !! "_current_phase".
Hypothesis Hnodup : NoDup (map pair_of tested).
Hypothesis Hstay : forall c j,
  c ∈ tested -> fst (process (fst c) j (snd c)) !! "_current_phase" = j !! "_current_phase".

Lemma default_order_from (l : list candidate) : forall s fuel j,
  tested = l ++ s ->
  length l < fuel ->
  j !! "_current_phase" = Some (Atom (AStr directory)) ->
  let x := run_phase self fuel directory subplugins (rev s) j in
  result_of x = Done tt
  /\ process_calls (trace_of x) = map call_of (rev l)
  /\ rounds_of (trace_of x) = S (length l).
Proof.
  induction l as [|c l IH] using rev_ind; intros s fuel j Htested Hfuel Hcur x; subst x.
  - destruct fuel as [|fuel]; [simpl in Hfuel; lia|].
    destruct (Hconst j) as (j1 & t1 & Ht & _).
    rewrite (round_without_candidates self _ directory subplugins (rev s) j tested j1 t1 Ht)
      by (rewrite Htested; apply (remove_executed_suffix s []); by rewrite <- Htested).
    destruct (tests_make_no_calls _ _ _ _ _ Ht) as [Hc _].
    destruct (tested_pairs _ _ _ _ _ Ht) as [_ Hr].
    unfold result_of, trace_of. simpl.
    rewrite process_calls_app, rounds_of_app, Hc, Hr. auto.
  - destruct fuel as [|fuel]; [simpl in Hfuel; lia|].
    rewrite length_app in *. simpl in Hfuel.
    destruct (Hconst j) as (j1 & t1 & Ht & Hj1).
    destruct (tests_make_no_calls _ _ _ _ _ Ht) as [Hc _].
    destruct (tested_pairs _ _ _ _ _ Ht) as [_ Hr].
    assert (remove_executed (rev s) tested = l ++ [c]) as Hposs.
    { rewrite Htested. apply remove_executed_suffix. by rewrite <- Htested. }
    assert (c ∈ tested) as Hin.
    { rewrite Htested. apply elem_of_app. left. apply elem_of_app. right.
      apply elem_of_cons. by left. }
    pose proof (round_looping self fuel directory subplugins (rev s) j tested j1 t1
                  Hdesc (or_intror Hnot_alternative) Ht) as Hround.
    rewrite Hposs in Hround. specialize (Hround ltac:(by destruct l)).
    cbv zeta in Hround. unfold round_batch in Hround.
    rewrite Hnot_parallel, last_snoc in Hround. rewrite Hround. clear Hround.
    set (j2 := run_all [c] j1).
    assert (j2 !! "_current_phase" = Some (Atom (AStr directory))) as Hcur2.
    { unfold j2. simpl. by rewrite (Hstay c j1 Hin), Hj1. }
    rewrite (end_of_round_stays _ _ _ _ _ _ Hcur2)
      by (simpl; rewrite ?String.eqb_refl, ?length_app; simpl; try reflexivity; lia).
    change (rev s ++ [c]) with (rev (c :: s)).
    destruct (IH (c :: s) fuel j2) as (Hres & Hcalls & Hrounds).
    { rewrite Htested. by rewrite <- app_assoc. }
    { lia. }
    { exact Hcur2. }
    simpl rev in Hres, Hcalls, Hrounds.
    unfold result_of in *. unfold trace_of in *. simpl fst. simpl snd.
    split; [exact Hres|].
    match goal with
    | |- context [process_event c j1 :: ?X] =>
        change (process_event c j1 :: X) with ([process_event c j1] ++ X)
    end.
    rewrite !process_calls_app, !rounds_of_app, Hc, Hr, Hcalls, Hrounds.
    rewrite rev_app_distr. unfold rounds_of. simpl.
    split; [reflexivity|lia].
Qed.

End Steady.

(** X13: in a default phase whose plugins carry a description, whose
    tests keep giving the same duplicate-free candidate list, and whose
    plugins leave [_current_phase] alone, the candidates are executed
    one per round from the end of the list to its beginning (the plugin
    declared last runs first), each exactly once, and one more round
    closes the phase. *)
Theorem default_runs_the_list_backwards (fuel : nat) (directory : string)
  (subplugins : list Plugin) (tested : list candidate) (i : issue) :
  Forall described subplugins ->
  endswith directory "-parallel" = false ->
  endswith directory "-alternative" = false ->
  (forall j, exists j1 t1,
     test_plugins_on_value subplugins j = (Done tested, j1, t1)
     /\ j1 !! "_current_phase" = j !! "_current_phase") ->
  NoDup (map pair_of tested) ->
  (forall c j, c ∈ tested ->
     fst (process (fst c) j (snd c)) !! "_current_phase" = j !! "_current_phase") ->
  i !! "_current_phase" = Some (Atom (AStr directory)) ->
  length tested < fuel ->
  let x := run_phase self fuel directory subplugins [] i in
  result_of x = Done tt
  /\ process_calls (trace_of x) = map call_of (rev tested)
  /\ rounds_of (trace_of x) = S (length tested).
Proof.
  intros Hdesc Hp Ha Hconst Hnd Hstay Hcur Hfuel.
  apply (default_order_from directory subplugins tested Hdesc Hp Ha Hconst Hnd Hstay
           tested [] fuel i);
    auto. by rewrite app_nil_r.
Qed.

End Orders.

Lemma cleanup_answers_steady j :
  exists j1 t1,
    test_plugins_on_value [escalate; purge_cache] j
    = (Done [(escalate, AStr "ticket"); (purge_cache, AStr "tmp"); (purge_cache, AStr "log")],
       j1, t1).
Proof. do 2 eexists. reflexivity. Qed.

(** The clean-up round runs its three candidates in list order. *)
Lemma fan_out_runs_the_list_once_witness :
  process_calls (trace_of (run_phase cleanup 2 "30-cleanup-parallel" [escalate; purge_cache] []
                             (issue_in "30-cleanup-parallel" 0)))
  = [(3, AStr "ticket"); (4, AStr "tmp"); (4, AStr "log")].
Proof.
  exact (proj1 (proj2 (fan_out_runs_the_list_once cleanup 0 "30-cleanup-parallel"
                         [escalate; purge_cache]
                         [(escalate, AStr "ticket"); (purge_cache, AStr "tmp");
                          (purge_cache, AStr "log")]
                         (issue_in "30-cleanup-parallel" 0)
                         cleanup_described eq_refl cleanup_answers_steady))).
Defined.

Lemma operators_answers_steady j :
  exists j1 t1,
    test_plugins_on_value [restart_db; reboot_host] j
    = (Done [(restart_db, AStr "db"); (reboot_host, AStr "host")], j1, t1)
    /\ j1 !! "_current_phase" = j !! "_current_phase".
Proof. do 2 eexists. split; reflexivity. Qed.

Lemma operators_described : Forall described [restart_db; reboot_host].
Proof. repeat constructor; done. Qed.

Lemma operators_pairs_differ :
  NoDup (map pair_of [(restart_db, AStr "db"); (reboot_host, AStr "host")]).
Proof. apply (bool_decide_unpack _). vm_compute. reflexivity. Qed.

Lemma operators_keep_phase (c : candidate) (j : issue) :
  c ∈ [(restart_db, AStr "db"); (reboot_host, AStr "host")] ->
  fst (process (fst c) j (snd c)) !! "_current_phase" = j !! "_current_phase".
Proof.
  intros Hc. apply elem_of_cons in Hc as [->|Hc]; [reflexivity|].
  apply elem_of_cons in Hc as [->|Hc]; [reflexivity|]. by apply elem_of_nil in Hc.
Qed.

(** Two operators in a default phase: the second one declared runs first. *)
Lemma default_runs_the_list_backwards_witness :
  process_calls (trace_of (run_phase (remediate None) 3 "10-detect" [restart_db; reboot_host] []
                             (issue_in "10-detect" 0)))
  = [(2, AStr "host"); (1, AStr "db")].
Proof.
  exact (proj1 (proj2 (default_runs_the_list_backwards (remediate None) 3 "10-detect"
                         [restart_db; reboot_host]
                         [(restart_db, AStr "db"); (reboot_host, AStr "host")]
                         (issue_in "10-detect" 0)
                         operators_described eq_refl eq_refl operators_answers_steady
                         operators_pairs_differ
                         operators_keep_phase eq_refl ltac:(simpl; lia)))).
Defined.

(** ** Damaged engine fields, and the names that select a policy *)

Section Fields.

Variable self : Processor.

(** X15: what the engine does when a plugin has damaged
    [_current_phase].  In the looping policies, with plugins that carry
    a description, a missing field raises [KeyError] right after the
    round, before the reward is added.  At
    the end of a phase invocation (any policy), after the reward has
    been added: a missing field raises [KeyError], a list raises
    [TypeError] (it cannot be looked up in [dirs_lookup]), and [None], a
    boolean or a number is no error: the pass moves on to the next
    phase. *)
Theorem damaged_phase_field :
  (forall fuel directory subplugins any_executed i tested i1 t1,
     Forall described subplugins ->
     endswith directory "-parallel" = true \/ endswith directory "-alternative" = false ->
     test_plugins_on_value subplugins i = (Done tested, i1, t1) ->
     remove_executed any_executed tested <> [] ->
     let batch := round_batch directory (remove_executed any_executed tested) in
     run_all batch i1 !! "_current_phase" = None ->
     run_phase self (S fuel) directory subplugins any_executed i
     = (Raised (KeyError "_current_phase"), run_all batch i1, t1 ++ process_events batch i1))
  /\ (forall fuel n directory subplugins i ia ta a z,
        plugins self !! directory = Some subplugins ->
        run_phase self fuel directory subplugins []
          (<["_current_phase" := Atom (AStr directory)]> i) = (Done tt, ia, ta) ->
        ia !! "_reward" = Some (Atom a) ->
        as_number a = Some z ->
        let ib := <["_reward" := Atom (AInt (z + auto_reward self))]> ia in
        match ia !! "_current_phase" with
        | None =>
            visit_phase self fuel n directory i
            = (Raised (KeyError "_current_phase"), ib, EPhase directory :: ta)
        | Some (VList _) =>
            visit_phase self fuel n directory i
            = (Raised TypeError, ib, EPhase directory :: ta)
        | Some (Atom (AStr _)) => True
        | Some (Atom _) =>
            visit_phase self fuel n directory i = (Done (S n), ib, EPhase directory :: ta)
        end).
Proof.
  split.
  - intros fuel directory subplugins any_executed i tested i1 t1 Hdesc Hpol Ht Hne batch Hcur.
    pose proof (round_looping self fuel directory subplugins any_executed i tested i1 t1
                  Hdesc Hpol Ht Hne) as Hr.
    cbv zeta in Hr. fold batch in Hr. rewrite Hr. unfold end_of_round.
    rewrite (bind_raised _ _ _ (KeyError "_current_phase") (run_all batch i1) [])
      by (unfold getitem; by rewrite Hcur).
    unfold result_of, issue_of, trace_of. simpl. by rewrite app_nil_r.
  - intros fuel n directory subplugins i ia ta a z Hsub Hrun Hrew Hnum ib.
    assert (add_reward self ia = (Done tt, ib, [])) as Hadd.
    { unfold add_reward.
      rewrite (bind_done _ _ ia (Atom a) ia []) by (unfold getitem; by rewrite Hrew).
      by rewrite Hnum. }
    assert (ib !! "_current_phase" = ia !! "_current_phase") as Hcp
      by (unfold ib; by rewrite lookup_insert_ne).
    assert (forall (k : M nat) r,
              k ib = (r, ib, []) ->
              (run_phase self fuel directory subplugins [] ;;; add_reward self ;;; k)
                (<["_current_phase" := Atom (AStr directory)]> i)
              = (r, ib, ta)) as Hk.
    { intros k r Hkr. rewrite (bind_done _ _ _ _ _ _ Hrun), (bind_done _ _ _ _ _ _ Hadd).
      rewrite Hkr. unfold result_of, issue_of, trace_of. simpl. by rewrite app_nil_r. }
    rewrite (visit_phase_eq self _ _ _ _ _ Hsub). cbv zeta.
    destruct (ia !! "_current_phase") as [[[| | |s]|l]|] eqn:Ecur; try exact I;
      (erewrite Hk; [reflexivity|]);
      try (rewrite (bind_done _ _ ib _ ib []) by (unfold getitem; rewrite Hcp; reflexivity);
           reflexivity);
      rewrite (bind_raised _ _ ib (KeyError "_current_phase") ib [])
        by (unfold getitem; by rewrite Hcp);
      reflexivity.
Qed.

Lemma endswith_unfold s suffix :
  endswith s suffix
  = if String.eqb s suffix then true
    else match s with
         | EmptyString => false
         | String _ s' => endswith s' suffix
         end.
Proof. by destruct s. Qed.

Lemma endswith_spec s suffix :
  endswith s suffix = true <-> exists pre, s = String.append pre suffix.
Proof.
  split.
  - induction s as [|c s IH]; intros H; rewrite endswith_unfold in H.
    + destruct (String.eqb EmptyString suffix) eqn:E; [|discriminate].
      apply String.eqb_eq in E. by exists EmptyString.
    + destruct (String.eqb (String c s) suffix) eqn:E.
      * apply String.eqb_eq in E. by exists EmptyString.
      * destruct (IH H) as [pre ->]. by exists (String c pre).
  - intros [pre ->]. induction pre as [|c pre IH].
    + change (String.append EmptyString suffix) with suffix.
      by rewrite endswith_unfold, String.eqb_refl.
    + change (String.append (String c pre) suffix)
        with (String c (String.append pre suffix)).
      rewrite endswith_unfold, IH.
      destruct (String.eqb (String c (String.append pre suffix)) suffix); reflexivity.
Qed.

(** X16: the policy of a phase depends on the end of its name only:
    [endswith] holds exactly for the names made of any prefix followed
    by the suffix, and no name ends both in [-parallel] and in
    [-alternative], so the order of the two tests of lines 102 and 106
    does not matter. *)
Theorem policy_is_decided_by_the_suffix :
  (forall s suffix, endswith s suffix = true <-> exists pre, s = String.append pre suffix)
  /\ (forall directory,
        endswith directory "-parallel" = true -> endswith directory "-alternative" = false).
Proof.
  split; [apply endswith_spec|].
  induction directory as [|c d IH].
  - discriminate.
  - rewrite (endswith_unfold (String c d) "-parallel"),
      (endswith_unfold (String c d) "-alternative").
    destruct (String.eqb (String c d) "-parallel") eqn:Ep.
    + apply String.eqb_eq in Ep. inversion Ep; subst. intros _. reflexivity.
    + intros H. destruct (String.eqb (String c d) "-alternative") eqn:Ea; [|by apply IH].
      apply String.eqb_eq in Ea. inversion Ea; subst. discriminate.
Qed.

End Fields.

(** A plugin that deletes the phase field, in a default phase and in an
    exclusive one. *)
Lemma damaged_phase_field_witness :
  run_phase erasing 1 "40-erase" [eraser] [] (issue_in "40-erase" 0)
  = (Raised (KeyError "_current_phase"), fresh_issue,
     [ETesting; ETest 10 (Returns (Atom (AStr "all")));
      EProcess 10 (AStr "all") (Returns tt)])
  /\ visit_phase erasing 1 0 "41-erase-alternative" fresh_issue
     = (Raised (KeyError "_current_phase"), {[ "_reward" := Atom (AInt 1) ]},
        [EPhase "41-erase-alternative"; ETesting; ETest 10 (Returns (Atom (AStr "all")));
         EProcess 10 (AStr "all") (Returns tt)]).
Proof.
  split.
  - assert (remove_executed [] [(eraser, AStr "all")] <> []) as Hne by discriminate.
    assert (Forall described [eraser]) as Hdesc by (repeat constructor; done).
    exact (proj1 (damaged_phase_field erasing) 0 "40-erase" [eraser] []
             (issue_in "40-erase" 0) [(eraser, AStr "all")] (issue_in "40-erase" 0)
             [ETesting; ETest 10 (Returns (Atom (AStr "all")))]
             Hdesc (or_intror eq_refl) eq_refl Hne eq_refl).
  - exact (proj2 (damaged_phase_field erasing) 1 0 "41-erase-alternative" [eraser]
             fresh_issue fresh_issue
             [ETesting; ETest 10 (Returns (Atom (AStr "all")));
              EProcess 10 (AStr "all") (Returns tt)]
             (AInt 0) 0%Z eq_refl eq_refl eq_refl eq_refl).
Defined.

Lemma policy_is_decided_by_the_suffix_witness :
  endswith "30-cleanup-parallel" "-alternative" = false.
Proof.
  exact (proj2 policy_is_decided_by_the_suffix "30-cleanup-parallel" eq_refl).
Defined.

(** ** The three levels of the logger *)

(** X17: for a logger whose [isEnabledFor] is a threshold (what is
    enabled at a level is enabled at every higher level, as in the
    standard library), the three added levels lie between the standard
    ones: heartbeats are handled wherever warnings are and dropped
    wherever errors are; verbose messages are handled wherever debug
    messages are and dropped wherever info messages are; trace messages
    are dropped wherever debug messages are, and where they are handled
    so are verbose messages and heartbeats.  Each method hands on at
    most one record, at its own level, after those already handled. *)
Theorem added_levels_lie_between_standard_ones
  (isEnabledFor : Z -> bool) (msg : string) (handled : list (Z * string)) :
  (forall a b, (a <= b)%Z -> isEnabledFor a = true -> isEnabledFor b = true) ->
  (isEnabledFor WARNING = true -> heartbeat isEnabledFor msg handled = handled ++ [(35%Z, msg)])
  /\ (isEnabledFor ERROR = false -> heartbeat isEnabledFor msg handled = handled)
  /\ (isEnabledFor DEBUG = true -> verbose isEnabledFor msg handled = handled ++ [(15%Z, msg)])
  /\ (isEnabledFor INFO = false -> verbose isEnabledFor msg handled = handled)
  /\ (isEnabledFor DEBUG = false -> trace isEnabledFor msg handled = handled)
  /\ (trace isEnabledFor msg handled = handled ++ [(5%Z, msg)] ->
        verbose isEnabledFor msg handled = handled ++ [(15%Z, msg)]
        /\ heartbeat isEnabledFor msg handled = handled ++ [(35%Z, msg)])
  /\ (forall f, f = verbose \/ f = trace \/ f = heartbeat ->
        exists more, f isEnabledFor msg handled = handled ++ more /\ length more <= 1).
Proof.
  intros Hmono.
  assert (forall a b, (a <= b)%Z -> isEnabledFor b = false -> isEnabledFor a = false) as Hdown.
  { intros a b Hab Hb. destruct (isEnabledFor a) eqn:Ea; [|reflexivity].
    by rewrite (Hmono a b Hab Ea) in Hb. }
  unfold heartbeat, verbose, trace, log_record.
  split; [|split; [|split; [|split; [|split; [|split]]]]].
  - intros H. by rewrite (Hmono WARNING HEARTBEAT ltac:(unfold WARNING, HEARTBEAT; lia) H).
  - intros H. by rewrite (Hdown HEARTBEAT ERROR ltac:(unfold ERROR, HEARTBEAT; lia) H).
  - intros H. by rewrite (Hmono DEBUG VERBOSE ltac:(unfold DEBUG, VERBOSE; lia) H).
  - intros H. by rewrite (Hdown VERBOSE INFO ltac:(unfold VERBOSE, INFO; lia) H).
  - intros H. by rewrite (Hdown TRACE DEBUG ltac:(unfold TRACE, DEBUG; lia) H).
  - destruct (isEnabledFor TRACE) eqn:Et.
    + intros _.
      by rewrite (Hmono TRACE VERBOSE ltac:(unfold TRACE, VERBOSE; lia) Et),
        (Hmono TRACE HEARTBEAT ltac:(unfold TRACE, HEARTBEAT; lia) Et).
    + intros H. apply (f_equal length) in H. rewrite length_app in H. simpl in H. lia.
  - intros f [-> | [-> | ->]]; unfold heartbeat, verbose, trace, log_record;
      (match goal with |- context [isEnabledFor ?l] => destruct (isEnabledFor l) end);
      first [ exists []; split; [by rewrite app_nil_r|simpl; lia]
            | eexists; split; [reflexivity|simpl; lia] ].
Qed.

(** A logger set to WARNING: heartbeats pass, verbose messages do not. *)
Lemma added_levels_lie_between_standard_ones_witness :
  heartbeat (fun l => Z.leb WARNING l) "alive" [] = [(35%Z, "alive")]
  /\ verbose (fun l => Z.leb WARNING l) "detail" [] = [].
Proof.
  assert (forall a b, (a <= b)%Z -> Z.leb WARNING a = true -> Z.leb WARNING b = true) as Hmono
    by (intros a b Hab Ha; apply Z.leb_le; apply Z.leb_le in Ha; lia).
  split.
  - exact (proj1 (added_levels_lie_between_standard_ones (fun l => Z.leb WARNING l) "alive" []
                    Hmono) eq_refl).
  - destruct (added_levels_lie_between_standard_ones (fun l => Z.leb WARNING l) "detail" []
                Hmono) as (_ & _ & _ & H & _).
    exact (H eq_refl).
Defined.

(** ** The exceptions a pass can raise *)

Section PassErrors.

Variable self : Processor.

Lemma raises_bind (P : exn -> Prop) {A B} (Q : A -> Prop) (m : M A) (f : A -> M B) :
  raises_only P m -> returns Q m -> (forall a, Q a -> raises_only P (f a)) ->
  raises_only P (bind m f).
Proof.
  intros Hm HQ Hf i e i' t H. unfold bind in H.
  destruct (m i) as [[[a| |] i1] t1] eqn:E.
  - destruct (f a i1) as [[r i2] t2] eqn:E2. inversion H; subst.
    exact (Hf a (HQ _ _ _ _ E) _ _ _ _ E2).
  - inversion H; subst. by eapply Hm.
  - discriminate.
Qed.

Lemma raises_bind' (P : exn -> Prop) {A B} (m : M A) (f : A -> M B) :
  raises_only P m -> (forall a, raises_only P (f a)) -> raises_only P (bind m f).
Proof.
  intros Hm Hf. apply (raises_bind P (fun _ => True)); auto. by intros ????.
Qed.

Lemma raises_never (P : exn -> Prop) {A} (m : M A) :
  (forall i e, result_of (m i) <> Raised e) -> raises_only P m.
Proof. intros Hm i e i' t H. destruct (Hm i e). by rewrite H. Qed.

Lemma raises_getitem (P : exn -> Prop) key : P (KeyError key) -> raises_only P (getitem key).
Proof.
  intros HP i e i' t H. unfold getitem in H.
  destruct (i !! key); inversion H; by subst.
Qed.

Lemma raises_raise (P : exn -> Prop) {A} e : P e -> raises_only P (@raise A e).
Proof. intros HP i e' i' t H. inversion H; by subst. Qed.

Lemma raises_weaken (P P' : exn -> Prop) {A} (m : M A) :
  (forall e, P e -> P' e) -> raises_only P m -> raises_only P' m.
Proof. intros HPP Hm i e i' t H. by eapply HPP, Hm. Qed.

(** The candidate builder fails only in its handler, on a plugin
    without a description. *)
Lemma test_each_errors ps : forall acc, raises_only (bare_in ps) (test_each ps acc).
Proof.
  induction ps as [|p ps IH]; intros acc; simpl.
  - apply raises_never. discriminate.
  - apply raises_bind'.
    + intros i e i' t H. unfold test_plugin in H.
      destruct (test p i) as [j [v|]]; [discriminate|].
      destruct (description p) eqn:Ed; inversion H; subst.
      split; [reflexivity|]. exists p. split; [apply elem_of_cons; by left|done].
    + intros found. eapply raises_weaken; [|apply IH].
      intros e (-> & q & Hq & Hd). split; [reflexivity|].
      exists q. split; [apply elem_of_cons; by right|done].
Qed.

Lemma test_plugins_errors ps : raises_only (bare_in ps) (test_plugins_on_value ps).
Proof.
  apply raises_bind'; [apply raises_never; discriminate|]. intros _. apply test_each_errors.
Qed.

(** The guarded call fails only before the guard, on a plugin without a
    description. *)
Lemma execute_errors ps p c :
  p ∈ ps -> raises_only (bare_in ps) (execute_plugin_with_context p c).
Proof.
  intros Hp i e i' t H. unfold execute_plugin_with_context in H.
  destruct (description p) eqn:Ed.
  - destruct (process p i c) as [j o]. discriminate.
  - inversion H; subst. split; [reflexivity|]. by exists p.
Qed.

Lemma execute_each_errors ps possible : forall any_executed,
  (forall c, c ∈ possible -> fst c ∈ ps) ->
  raises_only (bare_in ps) (execute_each possible any_executed).
Proof.
  induction possible as [|c cs IH]; intros any_executed Hall; simpl.
  - apply raises_never. discriminate.
  - apply raises_bind'.
    + apply execute_errors, Hall, elem_of_cons. by left.
    + intros _. apply IH. intros c' Hc'. apply Hall, elem_of_cons. by right.
Qed.

Lemma decide_on_plugin_errors (possible : list candidate) :
  possible <> [] ->
  raises_only (fun e => ds self <> None /\ arbiter_error e) (decide_on_plugin self possible).
Proof.
  intros Hne i e i' t H. unfold decide_on_plugin in H.
  destruct possible as [|first others]; [done|].
  destruct (ds self) as [d|] eqn:Hds; [|discriminate].
  split; [done|].
  unfold bind, call_decide in H.
  destruct (decide d i (map label (first :: others))) as [i2 [decision|]].
  - destruct (resolve_cases decision (first :: others) i2)
      as [(chosen & Hr & _)|(e' & He & Hr & _)]; rewrite Hr in H; inversion H; subst.
    destruct He as [-> | ->]; unfold arbiter_error; auto.
  - inversion H; subst. unfold arbiter_error. auto.
Qed.

Lemma run_phase_errors fuel directory subplugins : forall any_executed,
  raises_only (phase_error self subplugins)
    (run_phase self fuel directory subplugins any_executed).
Proof.
  induction fuel as [|fuel IH]; intros any_executed; simpl.
  { apply raises_never. discriminate. }
  assert (forall n l, raises_only (phase_error self subplugins)
            (end_of_round (run_phase self fuel directory subplugins) directory n l)) as Hend.
  { intros n l. apply raises_bind'.
    - apply raises_getitem. left. left. reflexivity.
    - intros v. destruct (negb _); [apply raises_never; discriminate|].
      destruct (Nat.eqb _ _); [apply raises_never; discriminate|apply IH]. }
  assert (forall A (m : M A), raises_only (bare_in subplugins) m ->
            raises_only (phase_error self subplugins) m) as Hbare.
  { intros A m. apply raises_weaken. intros e He. right. by right. }
  unfold round.
  apply (raises_bind _ _ _ _ (Hbare _ _ (test_plugins_errors subplugins))
           (tested_plugins subplugins)).
  intros tested Htested. cbv beta zeta.
  assert (forall c, c ∈ remove_executed any_executed tested -> fst c ∈ subplugins) as Hposs.
  { intros c Hc. apply Htested. by eapply remove_executed_subset. }
  destruct (remove_executed any_executed tested) as [|c cs] eqn:Eposs.
  { apply raises_never. discriminate. }
  change (Nat.ltb (length (c :: cs)) 1) with false. cbv iota.
  destruct (endswith directory "-parallel").
  { apply raises_bind'; [by apply Hbare, execute_each_errors|]. intros l. apply Hend. }
  destruct (endswith directory "-alternative").
  { assert (c :: cs <> []) as Hne by done.
    apply (raises_bind _ (fun p => p ∈ c :: cs)).
    - eapply raises_weaken; [|by apply decide_on_plugin_errors].
      intros e He. right. by left.
    - apply decide_on_plugin_chooses.
    - intros p Hp. by apply Hbare, execute_errors, Hposs. }
  destruct (last_nonempty (c :: cs) ltac:(done)) as [p Hl]. rewrite Hl.
  apply raises_bind'; [|intros _; apply Hend].
  apply Hbare, execute_errors, Hposs.
  apply last_Some in Hl as [l' ->]. apply elem_of_app. right. apply elem_of_cons. by left.
Qed.

Lemma visit_phase_errors fuel n directory :
  dirs self !! n = Some directory ->
  raises_only (pass_error self) (visit_phase self fuel n directory).
Proof.
  intros Hd.
  assert (directory ∈ dirs self) as Hin by (apply list_elem_of_lookup; eauto).
  destruct (proj1 (dirs_spec self directory) Hin) as [ps Hps].
  unfold visit_phase. rewrite Hps.
  apply raises_bind'; [apply raises_never; discriminate|]. intros _.
  apply raises_bind'; [apply raises_never; discriminate|]. intros _.
  apply raises_bind'.
  { eapply raises_weaken; [|apply run_phase_errors].
    intros e [He|[He|(-> & p & Hp & Hdesc)]]; [by left|right; by left|].
    right. right. split; [reflexivity|]. by exists directory, ps, p. }
  intros _. apply raises_bind'.
  { unfold add_reward. apply raises_bind'.
    - apply raises_getitem. left. right. left. reflexivity.
    - intros [a|l].
      + destruct (as_number a); [apply raises_never; discriminate|].
        apply raises_raise. left. right. right. reflexivity.
      + apply raises_raise. left. right. right. reflexivity. }
  intros _. apply raises_bind'.
  { apply raises_getitem. left. left. reflexivity. }
  intros v. destruct (is_phase v directory); [apply raises_never; discriminate|].
  unfold dirs_lookup_get. destruct v as [[| | |s]|];
    try (apply raises_never; discriminate).
  - destruct (dirs_lookup self !! s); apply raises_never; discriminate.
  - apply raises_raise. left. right. right. reflexivity.
Qed.

Lemma run_phases_errors visits fuel : forall n,
  raises_only (pass_error self) (run_phases self visits fuel n).
Proof.
  induction visits as [|visits IH]; intros n; simpl;
    destruct (dirs self !! n) as [directory|] eqn:Hd;
    try (apply raises_never; discriminate).
  apply raises_bind'; [by apply visit_phase_errors|]. intros next. apply IH.
Qed.

(** X18: the only exceptions that can leave [process_issue] come from a
    damaged engine field ([KeyError] for a missing [_current_phase] or
    [_reward], [TypeError] for a non-numeric reward or a list as phase
    name), from the arbiter when a decision service is configured
    ([IndexError], [ValueError], or its own exception), or from a log
    line that reads the description of a registered plugin which has
    none ([AttributeError]).  In particular [possible[0]],
    [possible.pop()] and [self.plugins[directory]] never fail; without a
    decision service no arbiter error occurs; and when every registered
    plugin has a description, no [AttributeError] occurs and no
    exception of a plugin leaves the pass. *)
Theorem exceptions_of_a_pass (visits fuel : nat) (i : issue) (e : exn) (i' : issue)
  (t : list event) :
  process_issue self visits fuel i = (Raised e, i', t) ->
  field_error e
  \/ (ds self <> None /\ arbiter_error e)
  \/ (e = AttributeError
      /\ exists directory ps p,
           plugins self !! directory = Some ps /\ p ∈ ps /\ description p = None).
Proof.
  revert i e i' t. change (raises_only (pass_error self) (process_issue self visits fuel)).
  unfold process_issue, apply_all_plugins_on_value.
  apply raises_bind'.
  - apply raises_bind'; [apply raises_never; discriminate|]. intros _.
    apply run_phases_errors.
  - intros _. destruct (ds self) as [d|] eqn:Hds; [|apply raises_never; discriminate].
    intros i e i' t H. unfold call_finish in H.
    destruct (finish_episode d i) as [i2 [[]|]]; inversion H; subst.
    right. left. split; [by rewrite Hds|]. unfold arbiter_error. auto.
Qed.

End PassErrors.

(** The one plugin has no description and its [test] raises: the pass
    ends in the handler. *)
Lemma exceptions_of_a_pass_witness :
  field_error AttributeError
  \/ (ds careless <> None /\ arbiter_error AttributeError)
  \/ (AttributeError = AttributeError
      /\ exists directory ps p,
           plugins careless !! directory = Some ps /\ p ∈ ps /\ description p = None).
Proof.
  exact (exceptions_of_a_pass careless 1 1 ∅ AttributeError
           (<["_current_phase" := Atom (AStr "10-detect")]>
              (<["_reward" := Atom (AInt 0)]> ∅))
           [EPhase "10-detect"; ETesting; ETest 12 Raises]
           eq_refl).
Defined.

(** ** Exception freedom with well-behaved collaborators *)

Section Safety.

Variable self : Processor.

Lemma safely_bind E P R Q {A B} (S : A -> Prop) (m : M A) (f : A -> M B) :
  safely E P m R -> returns S m -> (forall a, S a -> safely E R (f a) Q) ->
  safely E P (bind m f) Q.
Proof.
  intros Hm HS Hf i r i' t HP H. unfold bind in H.
  destruct (m i) as [[[a| |] i1] t1] eqn:E1.
  - destruct (f a i1) as [[r2 i2] t2] eqn:E2. inversion H; subst.
    exact (Hf a (HS _ _ _ _ E1) i1 r i' t2 (Hm _ _ _ _ HP E1) E2).
  - inversion H; subst. exact (Hm _ _ _ _ HP E1).
  - inversion H; subst. exact I.
Qed.

Lemma safely_bind' E P R Q {A B} (m : M A) (f : A -> M B) :
  safely E P m R -> (forall a, safely E R (f a) Q) -> safely E P (bind m f) Q.
Proof.
  intros Hm Hf. apply (safely_bind E P R Q (fun _ => True)); auto. by intros ????.
Qed.

Lemma safely_ret E P {A} (a : A) : safely E P (ret a) P.
Proof. intros i r i' t HP H. inversion H; by subst. Qed.

Lemma safely_emit E P e : safely E P (emit e) P.
Proof. intros i r i' t HP H. inversion H; by subst. Qed.

Lemma safely_out_of_fuel E P Q {A} : safely E P (@out_of_fuel A) Q.
Proof. intros i r i' t HP H. inversion H; by subst. Qed.

(** A plugin that has a description and keeps the two fields sound. *)
Lemma safely_test_plugin E p :
  described p -> plugin_keeps_fields p ->
  safely E sound_fields (test_plugin p) sound_fields.
Proof.
  unfold described. intros Hd Hp i r i' t Hi H. destruct (Hp i Hi) as [Ht _].
  unfold test_plugin in H.
  destruct (test p i) as [j [v|]]; [inversion H; by subst|].
  destruct (description p); [|done]. inversion H; by subst.
Qed.

Lemma safely_test_each E ps :
  Forall described ps -> Forall plugin_keeps_fields ps ->
  forall acc, safely E sound_fields (test_each ps acc) sound_fields.
Proof.
  induction 1 as [|p ps Hd Hds IH]; intros Hk acc; simpl.
  - apply safely_ret.
  - apply Forall_cons in Hk as [Hp Hps].
    eapply safely_bind'; [by apply safely_test_plugin|]. intros a. by apply IH.
Qed.

Lemma safely_test_plugins_on_value E ps :
  Forall described ps -> Forall plugin_keeps_fields ps ->
  safely E sound_fields (test_plugins_on_value ps) sound_fields.
Proof.
  intros Hd Hk. eapply safely_bind'; [apply safely_emit|]. intros _.
  by apply safely_test_each.
Qed.

Lemma safely_execute E p c :
  described p -> plugin_keeps_fields p ->
  safely E sound_fields (execute_plugin_with_context p c) sound_fields.
Proof.
  unfold described. intros Hd Hp i r i' t Hi H. destruct (Hp i Hi) as [_ Hc].
  specialize (Hc c). unfold execute_plugin_with_context in H.
  destruct (description p); [|done].
  destruct (process p i c) as [j o]; inversion H; by subst.
Qed.

Lemma safely_execute_each E possible : forall any_executed,
  (forall c, c ∈ possible -> described (fst c) /\ plugin_keeps_fields (fst c)) ->
  safely E sound_fields (execute_each possible any_executed) sound_fields.
Proof.
  induction possible as [|c cs IH]; intros any_executed H; simpl.
  - apply safely_ret.
  - eapply safely_bind'.
    + apply safely_execute; apply (H c), elem_of_cons; by left.
    + intros _. apply IH. intros c' Hc'. apply H, elem_of_cons. by right.
Qed.

Lemma safely_end_of_round E next directory n any_executed :
  (forall l, safely E sound_fields (next l) sound_fields) ->
  safely E sound_fields (end_of_round next directory n any_executed) sound_fields.
Proof.
  intros Hnext. unfold end_of_round. apply (safely_bind' _ _ sound_fields).
  - intros i r i' t Hi H. unfold getitem in H.
    destruct Hi as [[s Hs] Hr]. rewrite Hs in H. inversion H; subst.
    split; [by exists s|done].
  - intros v. destruct (negb _); [apply safely_ret|].
    destruct (Nat.eqb _ _); [apply safely_ret|apply Hnext].
Qed.

Lemma safely_decide_on_plugin (possible : list candidate) :
  possible <> [] ->
  (forall d, ds self = Some d -> service_keeps_fields d) ->
  safely (arbiter_only self) sound_fields (decide_on_plugin self possible) sound_fields.
Proof.
  intros Hne Hds i r i' t Hi H. unfold decide_on_plugin in H.
  destruct possible as [|first others]; [done|].
  destruct (ds self) as [d|] eqn:Ed; [|inversion H; by subst].
  specialize (Hds d eq_refl i (map label (first :: others)) Hi).
  unfold bind, call_decide in H.
  destruct (decide d i (map label (first :: others))) as [i2 [decision|]].
  - destruct (resolve_cases decision (first :: others) i2)
      as [(chosen & Hr & _)|(e' & He & Hr & _)]; rewrite Hr in H; inversion H; subst; [done|].
    split; [by rewrite Ed|]. destruct He as [-> | ->]; unfold arbiter_error; auto.
  - inversion H; subst. split; [by rewrite Ed|]. unfold arbiter_error. auto.
Qed.

Lemma safely_run_phase fuel directory subplugins :
  Forall described subplugins ->
  Forall plugin_keeps_fields subplugins ->
  (forall d, ds self = Some d -> service_keeps_fields d) ->
  forall any_executed,
    safely (arbiter_only self) sound_fields
      (run_phase self fuel directory subplugins any_executed) sound_fields.
Proof.
  intros Hdesc Hps Hds. pose proof Hps as Hall. rewrite Forall_forall in Hps.
  pose proof Hdesc as Hdall. rewrite Forall_forall in Hdesc.
  induction fuel as [|fuel IH]; intros any_executed; simpl.
  { apply safely_out_of_fuel. }
  unfold round.
  apply (safely_bind _ _ _ _ _ _ _ (safely_test_plugins_on_value _ _ Hdall Hall)
           (tested_plugins subplugins)).
  intros tested Htested. cbv beta zeta.
  assert (forall c, c ∈ remove_executed any_executed tested ->
                    described (fst c) /\ plugin_keeps_fields (fst c)) as Hposs.
  { intros c Hc. split; [apply Hdesc|apply Hps]; apply Htested;
      by eapply remove_executed_subset. }
  destruct (remove_executed any_executed tested) as [|c cs] eqn:Eposs.
  { apply safely_emit. }
  change (Nat.ltb (length (c :: cs)) 1) with false. cbv iota.
  destruct (endswith directory "-parallel").
  { eapply safely_bind'; [by apply safely_execute_each|].
    intros l. by apply safely_end_of_round. }
  destruct (endswith directory "-alternative").
  { assert (c :: cs <> []) as Hne by done.
    apply (safely_bind _ _ _ _ _ _ _ (safely_decide_on_plugin _ Hne Hds)
             (decide_on_plugin_chooses self _)).
    intros p Hp. apply safely_execute; by apply Hposs. }
  destruct (last_nonempty (c :: cs) ltac:(done)) as [p El]. rewrite El.
  eapply safely_bind'.
  - assert (p ∈ c :: cs) as Hin.
    { apply last_Some in El as [l' ->].
      apply elem_of_app. right. apply elem_of_cons. by left. }
    apply safely_execute; by apply Hposs.
  - intros _. by apply safely_end_of_round.
Qed.

Lemma safely_add_reward E : safely E sound_fields (add_reward self) sound_fields.
Proof.
  intros i r i' t [[s Hs] (a & z & Ha & Hz)] H. unfold add_reward, bind, getitem in H.
  rewrite Ha, Hz in H. inversion H; subst. split.
  - exists s. by rewrite lookup_insert_ne.
  - exists (AInt (Z.add z (auto_reward self))), (Z.add z (auto_reward self)).
    by rewrite lookup_insert_eq.
Qed.

Lemma safely_visit_phase fuel n directory :
  all_described self ->
  fields_are_kept self ->
  dirs self !! n = Some directory ->
  safely (arbiter_only self) rewarded (visit_phase self fuel n directory) rewarded.
Proof.
  intros Hdesc [Hps Hds] Hd.
  assert (directory ∈ dirs self) as Hin by (apply list_elem_of_lookup; eauto).
  destruct (proj1 (dirs_spec self directory) Hin) as [ps Eps].
  unfold visit_phase. rewrite Eps.
  apply (safely_bind' _ _ sound_fields).
  { intros i r i' t (a & z & Ha & Hz) H. inversion H; subst. split.
    - exists directory. by rewrite lookup_insert_eq.
    - exists a, z. by rewrite lookup_insert_ne. }
  intros _. apply (safely_bind' _ _ sound_fields); [apply safely_emit|].
  intros _. apply (safely_bind' _ _ sound_fields).
  { apply safely_run_phase; [exact (Hdesc _ _ Eps)|exact (Hps _ _ Eps)|done]. }
  intros _. apply (safely_bind' _ _ sound_fields); [apply safely_add_reward|].
  intros _. intros i r i' t [[s Hs] Hr] H. unfold bind, getitem in H. rewrite Hs in H.
  simpl in H. destruct (String.eqb s directory).
  - inversion H; by subst.
  - unfold dirs_lookup_get in H.
    destruct (dirs_lookup self !! s); inversion H; by subst.
Qed.

Lemma safely_run_phases visits fuel :
  all_described self ->
  fields_are_kept self ->
  forall n, safely (arbiter_only self) rewarded (run_phases self visits fuel n) rewarded.
Proof.
  intros Hdesc Hk. induction visits as [|visits IH]; intros n; simpl;
    destruct (dirs self !! n) as [directory|] eqn:Hd;
    try apply safely_ret; try apply safely_out_of_fuel.
  eapply safely_bind'; [by apply safely_visit_phase|]. intros next. apply IH.
Qed.

(** X19: when every registered plugin has a description, and every
    plugin, and the decision service if there is one, leaves a string in
    [_current_phase] and a number in [_reward] (both may be rewritten),
    [process_issue] raises nothing of its own from any incoming issue:
    it completes, or the loops are cut off by the fuel, or the decision
    service is configured and the exception is one of the arbiter's. *)
Theorem well_kept_fields_never_fail (visits fuel : nat) (i : issue) :
  all_described self ->
  fields_are_kept self ->
  result_of (process_issue self visits fuel i) = Done tt
  \/ result_of (process_issue self visits fuel i) = OutOfFuel
  \/ (ds self <> None
      /\ exists e, arbiter_error e
           /\ result_of (process_issue self visits fuel i) = Raised e).
Proof.
  intros Hdesc Hk.
  assert (safely (arbiter_only self) (fun _ => True) (process_issue self visits fuel)
            (fun _ => True)) as Hsafe.
  { unfold process_issue, apply_all_plugins_on_value.
    apply (safely_bind' _ _ rewarded).
    - apply (safely_bind' _ _ rewarded); [|intros _; by apply safely_run_phases].
      intros j r j' t _ H. inversion H; subst.
      exists (AInt 0), 0%Z. by rewrite lookup_insert_eq.
    - intros _. destruct (ds self) as [d|] eqn:Ed;
        [|intros j r j' t _ H; inversion H; by subst].
      intros j r j' t _ H. unfold call_finish in H.
      destruct (finish_episode d j) as [j2 [[]|]]; inversion H; subst; [done|].
      split; [by rewrite Ed|]. unfold arbiter_error. auto. }
  destruct (process_issue self visits fuel i) as [[r i'] t] eqn:E.
  specialize (Hsafe i r i' t I E). unfold result_of. simpl.
  destruct r as [[]|e|]; [by left|right; right|right; by left].
  destruct Hsafe as [Hd He]. split; [done|]. by exists e.
Qed.

End Safety.

Lemma always_keeps_fields n k v : plugin_keeps_fields (always n k v).
Proof. intros i Hi. by split. Qed.

Lemma jumper_keeps_fields n k v target : plugin_keeps_fields (jumper n k v target).
Proof.
  intros i Hi. split; [done|]. intros c. simpl. destruct Hi as [_ (a & z & Ha & Hz)]. split.
  - exists target. by rewrite lookup_insert_eq.
  - exists a, z. by rewrite lookup_insert_ne.
Qed.

Lemma cleanup_all_described : all_described cleanup.
Proof.
  unfold all_described, cleanup. simpl.
  apply map_Forall_insert_2; [|apply map_Forall_singleton; constructor].
  exact cleanup_described.
Qed.

Lemma cleanup_keeps_fields : fields_are_kept cleanup.
Proof.
  split; [|discriminate]. unfold cleanup. simpl.
  apply map_Forall_insert_2; [|apply map_Forall_singleton; constructor].
  apply Forall_cons; split; [exact (jumper_keeps_fields _ _ _ _)|].
  apply Forall_cons; split; [exact (always_keeps_fields _ _ _)|constructor].
Qed.

(** The fan-out phase whose first plugin redirects the issue, from an
    empty issue. *)
Lemma well_kept_fields_never_fail_witness :
  result_of (process_issue cleanup 2 2 ∅) = Done tt
  \/ result_of (process_issue cleanup 2 2 ∅) = OutOfFuel
  \/ (ds cleanup <> None
      /\ exists e, arbiter_error e
           /\ result_of (process_issue cleanup 2 2 ∅) = Raised e).
Proof.
  exact (well_kept_fields_never_fail cleanup 2 2 ∅ cleanup_all_described cleanup_keeps_fields).
Defined.

(** ** The already-run filter *)

Lemma list_remove_length a (l : list candidate) :
  length l <= S (length (list_remove a l)).
Proof.
  induction l as [|x l IH]; simpl; [lia|].
  destruct (candidate_eqb x a); simpl; lia.
Qed.

(** X14: the already-run filter of lines 96-98 takes away at most one
    occurrence per recorded execution ([list.remove] drops the first
    match only), and only occurrences of candidates it was given: a
    pair the tests list [k] times is still a candidate until it has
    been executed [k] times. *)
Theorem filter_drops_one_occurrence_per_execution
  (any_executed possible : list candidate) :
  length possible <= length (remove_executed any_executed possible) + length any_executed
  /\ forall c, c ∈ remove_executed any_executed possible -> c ∈ possible.
Proof.
  split; [|intros c; apply remove_executed_subset].
  unfold remove_executed. revert possible.
  induction any_executed as [|a l IH]; intros possible; simpl; [lia|].
  destruct (list_contains a possible).
  - specialize (IH (list_remove a possible)).
    pose proof (list_remove_length a possible). lia.
  - specialize (IH possible). lia.
Qed.
